(** * RCS virtual try-on webhook: session store, image fetcher, classifier,
      generation orchestrator and delivery chain

    A shallow embedding of the inbound-webhook server (the Express
    application that keeps [userSessions], downloads the two images,
    calls the generation backend and sends the result over RCS), and the
    properties of it that the design document states.

    Conventions of the embedding.
    - JavaScript numbers that are timestamps, sizes or HTTP statuses are
      [Z]; a header that [Number(...)] turns into [NaN] is read as [0]
      (both are falsy, and the code only uses the value under [||] and
      [>]).
    - Strings are [string], the UTF-8 bytes of the JavaScript string.
      The class [\w] of the regular expressions is within ASCII, so
      every byte of a character outside ASCII is a non-word character.
      [toLowerCase] lower-cases A to Z and the two characters outside
      ASCII whose lower case has an ASCII letter (U+212A, U+0130); the
      lower case of any other character is outside ASCII as the
      character is, and the character is left as it stands: the code
      tests lower-cased strings for ASCII words and substrings only.
    - [userSessions] is a map from phone numbers to object references and
      the session objects live in a heap, because the handler keeps a
      reference ([session]) across suspension points while the table
      entry may be replaced.
    - Every [await] is a suspension point of a turn; a turn is a state
      machine whose states are the pending external calls.  The awaits of
      the [for await] loop of [collectFromStream] touch locals only and
      are merged with the call that opens the stream.
    - The clock is a sequence of readings: the n-th call of [Date.now()]
      returns the n-th one, so any amount of time may pass between two
      calls, also inside a synchronous segment.
    - Every [await] of the handler sits inside a [try] of the source;
      a call that fails is the outcome [Rejected] and the segment that
      follows is the [catch].  A turn starts where the request has
      been read (lines 234-237); from there on synchronous code does not
      throw.  A request without a body makes the handler throw before
      that (lines 232 and 234 read [req.body]), and is no turn here;
      likewise a request of [/try-on] is one with a body (line 427
      reads [req.body]).
    - Logging is left out.

    Besides the inbound webhook the development covers the readers of
    the webhook body, the authentication middleware, the status and
    debug routes, the local route [/try-on], and the handler of the
    earlier version (module [Earlier]).  The local route and the earlier
    handler await calls outside any [try]: there a call that fails
    rejects the handler, which is a final state of its own
    ([TryRejected], [Earlier.Rejected]). *)

From stdpp Require Import gmap strings list fin_maps.
From Stdlib Require Import ZArith Ascii String Lia DecimalString DecimalPos DecimalZ.

#[local] Open Scope string_scope.
#[local] Open Scope Z_scope.
#[local] Set Warnings "-register-all".

(** ** JavaScript strings *)

Definition lower_ascii (c : ascii) : ascii :=
  let n := N_of_ascii c in
  if ((65 <=? n) && (n <=? 90))%N then ascii_of_N (n + 32) else c.

(** The lower case of the letters A to Z, byte by byte. *)
Fixpoint ascii_lower (s : string) : string :=
  match s with
  | EmptyString => EmptyString
  | String c s' => String (lower_ascii c) (ascii_lower s')
  end.

(** The two characters outside ASCII whose lower case has an ASCII
    letter, in UTF-8: U+212A (the Kelvin sign) and U+0130 (the capital I
    with a dot). *)
Definition kelvin_sign : string := String "226" (String "132" (String "170" "")).
Definition dotted_capital_i : string := String "196" (String "176" "").

(** [s.toLowerCase()] on the UTF-8 bytes of [s]: A to Z become a to z,
    U+212A becomes k, and U+0130 becomes i followed by U+0307. *)
Fixpoint toLowerCase (s : string) : string :=
  match s with
  | EmptyString => EmptyString
  | String c1 s1 =>
      let plain := String (lower_ascii c1) (toLowerCase s1) in
      match s1 with
      | EmptyString => plain
      | String c2 s2 =>
          if Ascii.eqb c1 "196" && Ascii.eqb c2 "176"
          then String "i" (String "204" (String "135" (toLowerCase s2)))
          else
            match s2 with
            | EmptyString => plain
            | String c3 s3 =>
                if Ascii.eqb c1 "226" && Ascii.eqb c2 "132" && Ascii.eqb c3 "170"
                then String "k" (toLowerCase s3)
                else plain
            end
      end
  end.

(** [s.includes(sub)] *)
Fixpoint includes (s sub : string) : bool :=
  String.prefix sub s ||
  match s with
  | EmptyString => false
  | String _ s' => includes s' sub
  end.

(** The class [\w] of a regular expression without the [u] flag. *)
Definition is_word_char (c : ascii) : bool :=
  let n := N_of_ascii c in
  (((48 <=? n) && (n <=? 57)) || ((65 <=? n) && (n <=? 90)) ||
   ((97 <=? n) && (n <=? 122)) || (n =? 95))%N.

Definition is_word (c : option ascii) : bool :=
  match c with Some a => is_word_char a | None => false end.

(** [\b]: exactly one of the two neighbours is a word character; the
    ends of the input count as non-word. *)
Definition word_boundary (prev next : option ascii) : bool :=
  xorb (is_word prev) (is_word next).

Definition first_char (s : string) : option ascii :=
  match s with EmptyString => None | String c _ => Some c end.

Fixpoint last_char (prev : option ascii) (s : string) : option ascii :=
  match s with EmptyString => prev | String c s' => last_char (Some c) s' end.

Fixpoint drop_chars (n : nat) (s : string) : string :=
  match n, s with
  | S n', String _ s' => drop_chars n' s'
  | _, _ => s
  end.

(** [\b(w1|...|wn)\b] matched at the current position; [prev] is the
    character before it. *)
Definition match_word_here (alts : list string) (prev : option ascii) (s : string) : bool :=
  word_boundary prev (first_char s) &&
  existsb (fun w =>
    String.prefix w s &&
    word_boundary (last_char prev w) (first_char (drop_chars (String.length w) s)))
    alts.

(** [/\b(w1|...|wn)\b/.test(s)]: some position matches. *)
Fixpoint regex_test_from (alts : list string) (prev : option ascii) (s : string) : bool :=
  match_word_here alts prev s ||
  match s with
  | EmptyString => false
  | String c s' => regex_test_from alts (Some c) s'
  end.

Definition regex_test (alts : list string) (s : string) : bool :=
  regex_test_from alts None s.

(** Truthiness of a value that is a string or absent. *)
Definition truthy_str (s : option string) : bool :=
  match s with
  | Some (String _ _) => true
  | _ => false
  end.

(** [a || b] on strings. *)
Definition str_or (a b : string) : string :=
  match a with EmptyString => b | _ => a end.

(** ** JavaScript values of the backend's responses *)

Inductive JsVal : Type :=
| JUndefined
| JNull
| JBool (b : bool)
| JNum (n : Z)
| JStr (s : string)
| JArr (items : list JsVal)
| JObj (fields : list (string * JsVal)).

Definition truthy (v : JsVal) : bool :=
  match v with
  | JUndefined | JNull => false
  | JBool b => b
  | JNum n => negb (n =? 0)
  | JStr s => truthy_str (Some s)
  | JArr _ | JObj _ => true
  end.

Fixpoint assoc (k : string) (fs : list (string * JsVal)) : JsVal :=
  match fs with
  | [] => JUndefined
  | (k', v) :: fs' => if String.eqb k k' then v else assoc k fs'
  end.

(** [o.k]; also [o?.k], since here a missing base yields [undefined]. *)
Definition get_prop (o : JsVal) (k : string) : JsVal :=
  match o with
  | JObj fs => assoc k fs
  | _ => JUndefined
  end.

(** [Object.keys(obj)] visits the fields in the order of the list. *)
Fixpoint findInlineData (obj : JsVal) : option JsVal :=
  let fix in_items (l : list JsVal) : option JsVal :=
    match l with
    | [] => None
    | it :: l' =>
        match findInlineData it with
        | Some f => Some f
        | None => in_items l'
        end
    end in
  let fix in_fields (fs : list (string * JsVal)) : option JsVal :=
    match fs with
    | [] => None
    | (_, v) :: fs' =>
        match findInlineData v with
        | Some f => Some f
        | None => in_fields fs'
        end
    end in
  match obj with
  | JArr l =>
      (* arrays carry neither key; the element loop, then the key loop *)
      match in_items l with
      | Some f => Some f
      | None => in_items l
      end
  | JObj fs =>
      if truthy (get_prop (get_prop obj "inlineData") "data")
      then Some (get_prop obj "inlineData")
      else if truthy (get_prop (get_prop obj "inline_data") "data")
      then Some (get_prop obj "inline_data")
      else in_fields fs
  | _ => None
  end.

(** A property that the backend documents as a string: its value, and
    the empty string when it is anything else. *)
Definition js_string (v : JsVal) : string :=
  match v with
  | JStr s => s
  | _ => ""
  end.

(** The text an event or a response carries ([ev.text] when truthy). *)
Definition text_of (v : JsVal) : string := js_string (get_prop v "text").

Record Collected := { imagePart : option JsVal; collected_text : string }.

(** The loop of [collectFromStream]: text accumulates over every event,
    the image part is the first one found. *)
Fixpoint collect_loop (evs : list JsVal) (acc : Collected) : Collected :=
  match evs with
  | [] => acc
  | ev :: evs' =>
      let text := collected_text acc +:+ text_of ev in
      let maybe := findInlineData ev in
      let img := match maybe, imagePart acc with
                 | Some m, None => Some m
                 | _, cur => cur
                 end in
      collect_loop evs' {| imagePart := img; collected_text := text |}
  end.

Definition collectFromStream (streamResp : list JsVal) : Collected :=
  collect_loop streamResp {| imagePart := None; collected_text := "" |}.

(** ** The environment of the process *)

(** Configuration read from [process.env] at start-up, the clock, and
    the two library functions whose results are only passed on.
    [Date_now n] is the value of the [n]-th call of [Date.now()]. *)
Class Env := {
  IMAGE_MAX_BYTES : Z;
  SESSION_TTL_MS : Z;
  PHOTOS_PATH : string;
  PUBLIC_BASE_URL : option string;
  RCS_SENDER_ID : option string;
  Date_now : nat -> Z;
  to_base64 : list Byte.byte -> string;
  path_join : string -> string -> string
}.

Definition MODEL_ID : string := "gemini-2.5-flash-image".

(** ** Sessions *)

Inductive Slot := Selfie | Clothing.

#[global] Instance Slot_eq_dec : EqDecision Slot.
Proof. solve_decision. Defined.

Record ImageAsset := { data : string; mime : string; ts : Z }.

Record Session := {
  selfie : option ImageAsset;
  clothing : option ImageAsset;
  inProgress : bool;
  lastUpdated : Z
}.

(** [{ lastUpdated: t, inProgress: false }] *)
Definition new_session (t : Z) : Session :=
  {| selfie := None; clothing := None; inProgress := false; lastUpdated := t |}.

#[global] Instance Session_inhabited : Inhabited Session := populate (new_session 0).

(** The object literals passed to [updateSession]: one key each. *)
Inductive Patch :=
| PatchSlot (k : Slot) (v : option ImageAsset)
| PatchInProgress (b : bool).

Definition Object_assign (s : Session) (patch : Patch) : Session :=
  match patch with
  | PatchSlot Selfie v =>
      {| selfie := v; clothing := clothing s; inProgress := inProgress s; lastUpdated := lastUpdated s |}
  | PatchSlot Clothing v =>
      {| selfie := selfie s; clothing := v; inProgress := inProgress s; lastUpdated := lastUpdated s |}
  | PatchInProgress b =>
      {| selfie := selfie s; clothing := clothing s; inProgress := b; lastUpdated := lastUpdated s |}
  end.

Definition set_lastUpdated (t : Z) (s : Session) : Session :=
  {| selfie := selfie s; clothing := clothing s; inProgress := inProgress s; lastUpdated := t |}.

Definition set_inProgress (b : bool) (s : Session) : Session :=
  Object_assign s (PatchInProgress b).

(** ** The shared store and synchronous code *)

(** [userSessions] maps a phone number to a reference; [heap] holds the
    session objects, a reference being an index; [ticks] counts the
    calls of [Date.now()] made so far. *)
Record World := {
  userSessions : gmap string nat;
  heap : list Session;
  ticks : nat
}.

Definition initial_world : World :=
  {| userSessions := ∅; heap := []; ticks := 0 |}.

(** Code that runs without suspension: a state transformer on [World]. *)
Definition Sync (A : Type) : Type := World -> A * World.

#[global] Instance Sync_ret : MRet Sync := fun A a w => (a, w).

#[global] Instance Sync_bind : MBind Sync :=
  fun A B k m w => let (a, w') := m w in k a w'.

Section Store.
Context `{Env}.

(** [now()] *)
Definition now : Sync Z := fun w =>
  (Date_now (ticks w),
   {| userSessions := userSessions w; heap := heap w; ticks := S (ticks w) |}).

(** The store after one more reading of the clock. *)
Definition tick (w : World) : World := (now w).2.

Definition entry (userPhone : string) : Sync (option nat) := fun w =>
  (userSessions w !! userPhone, w).

(** [userSessions[userPhone] = { ... }]: a new object, and the entry
    rebound to it. *)
Definition assign_entry (userPhone : string) (s : Session) : Sync nat := fun w =>
  let l := List.length (heap w) in
  (l, {| userSessions := <[userPhone := l]> (userSessions w);
         heap := heap w ++ [s]; ticks := ticks w |}).

Definition read (l : nat) : Sync Session := fun w => (heap w !!! l, w).

Definition write (l : nat) (f : Session -> Session) : Sync unit := fun w =>
  (tt, {| userSessions := userSessions w;
          heap := alter f l (heap w); ticks := ticks w |}).

(** [s.lastUpdated || 0] *)
Definition lastUpdated_or_0 (s : Session) : Z :=
  if lastUpdated s =? 0 then 0 else lastUpdated s.

Definition getSession (userPhone : string) : Sync nat :=
  e ← entry userPhone;
  match e with
  | None =>
      t ← now;
      assign_entry userPhone (new_session t)
  | Some l =>
      s ← read l;
      t ← now;
      (* TTL expiry -> hard reset *)
      if t - lastUpdated_or_0 s >? SESSION_TTL_MS then
        t' ← now;
        assign_entry userPhone (new_session t')
      else mret l
  end.

Definition resetSession (userPhone : string) : Sync unit :=
  t ← now;
  assign_entry userPhone (new_session t);;
  mret tt.

Definition updateSession (userPhone : string) (patch : Patch) : Sync unit :=
  s ← getSession userPhone;
  write s (fun o => Object_assign o patch);;
  t ← now;
  write s (set_lastUpdated t).

End Store.

(** ** Image fetcher *)

(** What a [HEAD] or [GET] response exposes to the code.  The length is
    the header after [Number(...)], absent when the header is. *)
Record HeadResp := {
  head_status : Z;
  head_content_type : option string;
  head_content_length : option Z
}.

Record GetResp := {
  res_status : Z;
  res_content_type : option string
}.

(** [res.ok] of the fetch library: a status in the 2xx range. *)
Definition res_ok (res : GetResp) : bool :=
  (200 <=? res_status res) && (res_status res <? 300).

(** A thrown [Error] with the properties the code attaches to it. *)
Record JsError := {
  e_code : option string;
  e_size : option Z;
  e_contentType : option string
}.

Definition error_code (c : string) : JsError :=
  {| e_code := Some c; e_size := None; e_contentType := None |}.

(** An error of a library call, which carries none of the codes. *)
Definition plain_error : JsError :=
  {| e_code := None; e_size := None; e_contentType := None |}.

Inductive Exc (A : Type) : Type :=
| Ok (a : A)
| Throw (e : JsError).
Arguments Ok {A} a.
Arguments Throw {A} e.

Record Download := {
  img_base64 : string;
  img_mime : string;
  img_size : Z;
  img_contentType : string
}.

(** The three values read from the probe; [h] is [None] when [head]
    caught an exception and returned [null]. *)
Record Probe := { headCT : string; headLen : Z; headStatus : Z }.

Definition probe (h : option HeadResp) : Probe :=
  {| headCT := toLowerCase (str_or (default "" (h ≫= head_content_type)) "");
     headLen := default 0 (h ≫= head_content_length);
     headStatus := default 0 (head_status <$> h) |}.

Definition is_401_or_403 (status : Z) : bool :=
  (status =? 401) || (status =? 403).

Section Fetcher.
Context `{Env}.

(** Lines 95-97: after the probe. *)
Definition download_after_head (p : Probe) : Exc unit :=
  if is_401_or_403 (headStatus p) then Throw (error_code "FETCH_FORBIDDEN")
  else Ok tt.

(** Lines 100-104: after the retrieval. *)
Definition download_after_get (res : GetResp) : Exc unit :=
  if negb (res_ok res) then
    Throw (error_code (if is_401_or_403 (res_status res)
                       then "FETCH_FORBIDDEN" else "FETCH_FAILED"))
  else Ok tt.

(** [headCT || (res.headers.get("content-type") || "").toLowerCase()] *)
Definition resolved_type (p : Probe) (res : GetResp) : string :=
  str_or (headCT p) (toLowerCase (str_or (default "" (res_content_type res)) "")).

(** [headLen || buf.length] *)
Definition resolved_length (p : Probe) (buf : list Byte.byte) : Z :=
  if headLen p =? 0 then Z.of_nat (List.length buf) else headLen p.

(** Lines 105-125: after the body has been read. *)
Definition download_finish (p : Probe) (res : GetResp) (buf : list Byte.byte) : Exc Download :=
  let ct := resolved_type p res in
  let len := resolved_length p buf in
  if len >? IMAGE_MAX_BYTES then
    Throw {| e_code := Some "TOO_LARGE"; e_size := Some len; e_contentType := None |}
  else
    let isPng := includes ct "image/png" in
    let isJpeg := includes ct "image/jpeg" || includes ct "image/jpg" in
    if negb (isPng || isJpeg) then
      Throw {| e_code := Some (if includes ct "image/webp" then "UNSUPPORTED_WEBP"
                               else if includes ct "image/heic" || includes ct "image/heif"
                               then "UNSUPPORTED_HEIC"
                               else "UNSUPPORTED_TYPE");
               e_size := None;
               e_contentType := Some ct |}
    else
      Ok {| img_base64 := to_base64 buf;
            img_mime := if isPng then "image/png" else "image/jpeg";
            img_size := len;
            img_contentType := ct |}.

(** The whole function, given what its three awaits produce: the probe
    ([None] for a caught failure), the retrieval and the body. *)
Definition downloadImageAsBase64IfSupported
    (h : option HeadResp) (get : Exc GetResp) (body : Exc (list Byte.byte)) : Exc Download :=
  let p := probe h in
  match download_after_head p with
  | Throw e => Throw e
  | Ok _ =>
      match get with
      | Throw e => Throw e
      | Ok res =>
          match download_after_get res with
          | Throw e => Throw e
          | Ok _ =>
              match body with
              | Throw e => Throw e
              | Ok buf => download_finish p res buf
              end
          end
      end
  end.

End Fetcher.

(** ** Message classifier *)

Definition selfie_words : list string := ["selfie"; "me"; "face"; "portrait"].
Definition clothing_words : list string :=
  ["clothing"; "dress"; "shirt"; "outfit"; "attire"; "wear"].

(** Lines 244-249: the label taken from the text. *)
Definition classify_text (text : option string) : option Slot :=
  if truthy_str text then
    let lower := toLowerCase (default "" text) in
    if regex_test selfie_words lower then Some Selfie
    else if regex_test clothing_words lower then Some Clothing
    else None
  else None.

(** Truthiness of a slot: an object, or [undefined]. *)
Definition held (o : option ImageAsset) : bool :=
  match o with Some _ => true | None => false end.

(** Lines 244-252: [imageType]; [None] is [undefined]. *)
Definition classify (text mediaUrl : option string) (session : Session) : option Slot :=
  match classify_text text with
  | Some ty => Some ty
  | None =>
      if truthy_str mediaUrl
      then Some (if held (selfie session) then Clothing else Selfie)
      else None
  end.

(** The classification of the earlier, session-less handler
    (second source file, lines 84-96): substring tests, two
    vocabularies of two and three words, no inference from position. *)
Definition classify_includes (text : option string) : option Slot :=
  match text with
  | None => None
  | Some t =>
      let lower := toLowerCase t in
      if includes lower "selfie" || includes lower "me" then Some Selfie
      else if includes lower "clothing" || includes lower "dress" || includes lower "shirt"
      then Some Clothing
      else None
  end.

(** ** External calls and their outcomes *)

Inductive Part :=
| InlineData (data mimeType : string)
| TextPart (text : string).

(** The argument of both generation calls: [{ model, config, contents }]. *)
Record GenRequest := {
  model : string;
  responseModalities : list string;
  responseMimeType : string;
  role : string;
  parts : list Part
}.

Inductive OutMessage :=
| RCSImage (to : string) (from : option string) (image_url text : string)
| PlainImage (to : string) (from : option string) (image_url text : string)
| PlainText (to : string) (from : option string) (text : string).

Inductive ExtCall :=
| FetchHead (url : string)
| FetchGet (url : string)
| ReadBuffer
| GenerateContentStream (req : GenRequest)
| GenerateContent (req : GenRequest)
| Mkdir (path : string)
| WriteFile (path : string) (base64data : string)
| Send (m : OutMessage).

(** How an awaited call settles.  [RespStream] is a stream consumed to
    its end; a failure while opening or reading it is [Rejected]. *)
Inductive ExtResult :=
| Rejected (e : JsError)
| RespHead (h : HeadResp)
| RespGet (res : GetResp)
| RespBuffer (buf : list Byte.byte)
| RespStream (events : list JsVal)
| RespFull (full : JsVal)
| Fulfilled.

Definition rejected (r : ExtResult) : bool :=
  match r with Rejected _ => true | _ => false end.

(** [head(url)]: the response, or [null] when the call threw. *)
Definition as_head (r : ExtResult) : option HeadResp :=
  match r with RespHead h => Some h | _ => None end.

(** A result of another kind than the call's own counts as a failure of
    the call. *)
Definition as_get (r : ExtResult) : Exc GetResp :=
  match r with RespGet res => Ok res | Rejected e => Throw e | _ => Throw plain_error end.

Definition as_buffer (r : ExtResult) : Exc (list Byte.byte) :=
  match r with RespBuffer b => Ok b | Rejected e => Throw e | _ => Throw plain_error end.

Definition as_stream (r : ExtResult) : Exc (list JsVal) :=
  match r with RespStream evs => Ok evs | Rejected e => Throw e | _ => Throw plain_error end.

Definition as_full (r : ExtResult) : Exc JsVal :=
  match r with RespFull v => Ok v | Rejected e => Throw e | _ => Throw plain_error end.

Definition string_of_Z (n : Z) : string := NilZero.string_of_int (Z.to_int n).

(** ** One turn of the inbound webhook *)

(** The normalised request: what [extractText], [extractMediaUrl] and
    the sender lookup return, and what [buildPublicUrl] reads. *)
Record Request := {
  req_from : option string;
  req_text : option string;
  req_mediaUrl : option string;
  req_protocol : string;
  req_host : string
}.

(** The locals of the handler that live across suspension points;
    [session] is the reference returned by the first [getSession]. *)
Record Locals := {
  userPhone : string;
  text : option string;
  mediaUrl : option string;
  session : nat;
  protocol : string;
  host : string
}.

(** A suspended turn, named after the call it awaits. *)
Inductive Turn :=
| AwaitHead (c : Locals) (imageType : Slot)
| AwaitGet (c : Locals) (imageType : Slot) (p : Probe)
| AwaitBuffer (c : Locals) (imageType : Slot) (p : Probe) (res : GetResp)
| AwaitTip (c : Locals) (tip : string)
| AwaitStream (c : Locals) (req : GenRequest)
| AwaitFull (c : Locals) (req : GenRequest) (textResponse : string)
| AwaitMkdir (c : Locals) (imagePart : JsVal) (textResponse outFile : string)
| AwaitWrite (c : Locals) (imagePart : JsVal) (textResponse outFile : string)
| AwaitRich (c : Locals) (publicUrl textResponse : string)
| AwaitPlain (c : Locals) (publicUrl textResponse : string)
| AwaitLink (c : Locals) (publicUrl : string)
| AwaitApology (c : Locals)
| AwaitGuidance (c : Locals) (message : string)
| Finished (status : Z).

Definition prompt : string :=
  "Create a stylized fashion mock-up by overlaying the clothing (2nd image) onto the person (1st image). Keep it clearly stylized (non-photorealistic), do not modify facial features, simple background.".

Definition preview_caption : string := "Here is your (stylized) try-on preview!".

Definition apology : string :=
  "I couldn’t render a preview. Use a clear selfie and clothing photo (PNG/JPEG).".

(** Lines 294-302. *)
Definition build_request (selfie clothing : ImageAsset) : GenRequest :=
  {| model := MODEL_ID;
     responseModalities := ["IMAGE"; "TEXT"];
     responseMimeType := "image/png";
     role := "user";
     parts := [InlineData (data selfie) (mime selfie);
               InlineData (data clothing) (mime clothing);
               TextPart prompt] |}.

Section Handler.
Context `{Env}.

(** Lines 268-272. *)
Definition tip_for (e : JsError) : string :=
  let tip := "Please resend the image as PNG or JPEG." in
  let tip := if decide (e_code e = Some "UNSUPPORTED_WEBP")
             then "That looks like a WEBP. Please resend as PNG or JPEG." else tip in
  let tip := if decide (e_code e = Some "UNSUPPORTED_HEIC")
             then "That looks like an iPhone HEIC. Please resend as PNG or JPEG." else tip in
  let tip := if decide (e_code e = Some "TOO_LARGE")
             then "That image is too large. Please send a smaller PNG/JPEG (<= "
                  +:+ string_of_Z IMAGE_MAX_BYTES +:+ " bytes)." else tip in
  let tip := if decide (e_code e = Some "FETCH_FORBIDDEN")
             then "The image link was not accessible. Please resend the image." else tip in
  tip.

Definition buildPublicUrl (c : Locals) (outFile : string) : string :=
  let base := match PUBLIC_BASE_URL with
              | Some (String a b) => String a b
              | _ => protocol c +:+ "://" +:+ host c
              end in
  base +:+ "/photos/" +:+ outFile.

(** The call a suspended turn is waiting for. *)
Definition pending (t : Turn) : option ExtCall :=
  match t with
  | AwaitHead c _ => Some (FetchHead (default "" (mediaUrl c)))
  | AwaitGet c _ _ => Some (FetchGet (default "" (mediaUrl c)))
  | AwaitBuffer _ _ _ _ => Some ReadBuffer
  | AwaitTip c tip => Some (Send (PlainText (userPhone c) RCS_SENDER_ID tip))
  | AwaitStream _ req => Some (GenerateContentStream req)
  | AwaitFull _ req _ => Some (GenerateContent req)
  | AwaitMkdir _ _ _ _ => Some (Mkdir PHOTOS_PATH)
  | AwaitWrite _ ip _ outFile =>
      Some (WriteFile (path_join PHOTOS_PATH outFile) (js_string (get_prop ip "data")))
  | AwaitRich c url tr =>
      Some (Send (RCSImage (userPhone c) RCS_SENDER_ID url (str_or tr preview_caption)))
  | AwaitPlain c url tr =>
      Some (Send (PlainImage (userPhone c) RCS_SENDER_ID url (str_or tr preview_caption)))
  | AwaitLink c url =>
      Some (Send (PlainText (userPhone c) RCS_SENDER_ID ("Your preview is ready: " +:+ url)))
  | AwaitApology c => Some (Send (PlainText (userPhone c) RCS_SENDER_ID apology))
  | AwaitGuidance c message => Some (Send (PlainText (userPhone c) RCS_SENDER_ID message))
  | Finished _ => None
  end.

(** Lines 409-422: the guidance message, from the current session. *)
Definition guidance (c : Locals) : Sync Turn :=
  s ← getSession (userPhone c);
  o ← read s;
  let haveSelfie := held (selfie o) in
  let hint := if haveSelfie then "Now send a clothing image (PNG/JPEG)."
              else "First send a selfie (PNG/JPEG)." in
  mret (AwaitGuidance c
          (if truthy_str (mediaUrl c) || truthy_str (text c) then hint
           else "Send a selfie (PNG/JPEG), then a clothing image.")).

(** Lines 286-302: the ready check on the reference [session], the
    lock, and the request.  The source reads the two images from
    [session] again after the lock; the lock patches [inProgress] only,
    so they are the ones the check has seen. *)
Definition ready_check (c : Locals) : Sync Turn :=
  o ← read (session c);
  match selfie o, clothing o, inProgress o with
  | Some selfie, Some clothing, false =>
      (* lock to avoid race/mixing *)
      updateSession (userPhone c) (PatchInProgress true);;
      mret (AwaitStream c (build_request selfie clothing))
  | _, _, _ => guidance c
  end.

(** Lines 259-264. *)
Definition store_media (c : Locals) (imageType : Slot) (img : Download) : Sync unit :=
  (if decide (imageType = Selfie)
   then updateSession (userPhone c) (PatchSlot Clothing None)
   else mret tt);;
  t ← now;
  updateSession (userPhone c)
    (PatchSlot imageType (Some {| data := img_base64 img; mime := img_mime img; ts := t |})).

(** Lines 266-282: the catch of the store; the tip is sent next. *)
Definition download_failed (c : Locals) (e : JsError) : Sync Turn :=
  mret (AwaitTip c (tip_for e)).

(** Lines 387-388, 399-400 and the [finally] of lines 402-406. *)
Definition finish_generation (c : Locals) : Sync Turn :=
  resetSession (userPhone c);;
  (* Safety unlock *)
  s ← getSession (userPhone c);
  write s (set_inProgress false);;
  mret (Finished 200).

(** Lines 324-327: an image part with data starts the delivery. *)
Definition after_generation (c : Locals) (imagePart : option JsVal) (textResponse : string) : Sync Turn :=
  match imagePart with
  | Some ip =>
      if truthy (get_prop ip "data") then
        t ← now;
        let outFile := "tryon_" +:+ userPhone c +:+ "_" +:+ string_of_Z t +:+ ".png" in
        mret (AwaitMkdir c ip textResponse outFile)
      else mret (AwaitApology c)
  | None => mret (AwaitApology c)
  end.

(** Lines 231-252 and the test of line 255: the first segment. *)
Definition inbound (req : Request) : Sync Turn :=
  if negb (truthy_str (req_from req)) then mret (Finished 200)
  else
    let userPhone := default "" (req_from req) in
    (* fetch session (auto-resets if TTL passes) *)
    session ← getSession userPhone;
    o ← read session;
    let c := {| userPhone := userPhone; text := req_text req;
                mediaUrl := req_mediaUrl req; session := session;
                protocol := req_protocol req; host := req_host req |} in
    match classify (req_text req) (req_mediaUrl req) o with
    | Some imageType =>
        if truthy_str (req_mediaUrl req) then mret (AwaitHead c imageType)
        else ready_check c
    | None => ready_check c
    end.

(** The segment that runs when the awaited call settles with [r]. *)
Definition resume (t : Turn) (r : ExtResult) : Sync Turn :=
  match t with
  | AwaitHead c imageType =>
      let p := probe (as_head r) in
      match download_after_head p with
      | Throw e => download_failed c e
      | Ok _ => mret (AwaitGet c imageType p)
      end
  | AwaitGet c imageType p =>
      match as_get r with
      | Throw e => download_failed c e
      | Ok res =>
          match download_after_get res with
          | Throw e => download_failed c e
          | Ok _ => mret (AwaitBuffer c imageType p res)
          end
      end
  | AwaitBuffer c imageType p res =>
      match as_buffer r with
      | Throw e => download_failed c e
      | Ok buf =>
          match download_finish p res buf with
          | Throw e => download_failed c e
          | Ok img => store_media c imageType img;; ready_check c
          end
      end
  | AwaitTip c _ => ready_check c
  | AwaitStream c req =>
      match as_stream r with
      | Throw _ => after_generation c None ""
      | Ok events =>
          let collected := collectFromStream events in
          match imagePart collected with
          | Some ip => after_generation c (Some ip) (collected_text collected)
          | None => mret (AwaitFull c req (collected_text collected))
          end
      end
  | AwaitFull c req textResponse =>
      match as_full r with
      | Throw _ => after_generation c None textResponse
      | Ok full =>
          after_generation c (findInlineData full) (textResponse +:+ text_of full)
      end
  | AwaitMkdir c ip textResponse outFile =>
      if rejected r then mret (AwaitRich c (buildPublicUrl c outFile) textResponse)
      else mret (AwaitWrite c ip textResponse outFile)
  | AwaitWrite c ip textResponse outFile =>
      mret (AwaitRich c (buildPublicUrl c outFile) textResponse)
  | AwaitRich c publicUrl textResponse =>
      if rejected r then mret (AwaitPlain c publicUrl textResponse)
      else finish_generation c
  | AwaitPlain c publicUrl textResponse =>
      if rejected r then mret (AwaitLink c publicUrl)
      else finish_generation c
  | AwaitLink c _ => finish_generation c
  | AwaitApology c => finish_generation c
  | AwaitGuidance _ _ => mret (Finished 200)
  | Finished status => mret (Finished status)
  end.

(** A turn run alone: the calls it issues, in order, and where it
    stands when the outcomes run out. *)
Fixpoint run (t : Turn) (rs : list ExtResult) (w : World) : list ExtCall * Turn * World :=
  match pending t, rs with
  | None, _ => ([], t, w)
  | Some call, [] => ([call], t, w)
  | Some call, r :: rs' =>
      let (t', w') := resume t r w in
      let '(calls, t'', w'') := run t' rs' w' in
      (call :: calls, t'', w'')
  end.

(** ** Interleaved turns *)

(** The process: the store and the turns started so far. *)
Record System := { world : World; turns : list Turn }.

Definition initial_system : System := {| world := initial_world; turns := [] |}.

(** A request arrives and its first segment runs, or the call awaited by
    turn [i] settles and its next segment runs. *)
Inductive Event :=
| Arrive (req : Request)
| Settle (i : nat) (r : ExtResult).

Definition sys_step (s : System) (e : Event) : System :=
  match e with
  | Arrive req =>
      let (t, w) := inbound req (world s) in
      {| world := w; turns := turns s ++ [t] |}
  | Settle i r =>
      match turns s !! i with
      | Some t =>
          let (t', w) := resume t r (world s) in
          {| world := w; turns := <[i := t']> (turns s) |}
      | None => s
      end
  end.

Definition sys_run (es : list Event) (s : System) : System :=
  fold_left sys_step es s.

End Handler.

(** The user a suspended turn works for. *)
Definition turn_locals (t : Turn) : option Locals :=
  match t with
  | AwaitHead c _ | AwaitGet c _ _ | AwaitBuffer c _ _ _ | AwaitTip c _
  | AwaitStream c _ | AwaitFull c _ _ | AwaitMkdir c _ _ _ | AwaitWrite c _ _ _
  | AwaitRich c _ _ | AwaitPlain c _ _ | AwaitLink c _ | AwaitApology c
  | AwaitGuidance c _ => Some c
  | Finished _ => None
  end.

(** A backend call of the turn is in flight. *)
Definition generating (t : Turn) : bool :=
  match t with
  | AwaitStream _ _ | AwaitFull _ _ _ => true
  | _ => false
  end.

(** The turn is inside the [try] of lines 288-401: it took the lock and
    has not yet reset the session. *)
Definition in_generation (t : Turn) : bool :=
  match t with
  | AwaitStream _ _ | AwaitFull _ _ _ | AwaitMkdir _ _ _ _ | AwaitWrite _ _ _ _
  | AwaitRich _ _ _ | AwaitPlain _ _ _ | AwaitLink _ _ | AwaitApology _ => true
  | _ => false
  end.

(** The turn is past its backend calls and has not ended yet. *)
Definition after_backend (t : Turn) : bool :=
  in_generation t && negb (generating t).

(** The session the table holds for a user. *)
Definition session_of (w : World) (user : string) : option Session :=
  l ← userSessions w !! user; heap w !! l.

(** Every entry of the table refers to an object of the heap. *)
Definition well_formed (w : World) : Prop :=
  forall u l, userSessions w !! u = Some l -> (l < List.length (heap w))%nat.

(** An upper bound on the number of settlements a turn still needs. *)
Definition remaining (t : Turn) : nat :=
  match t with
  | AwaitHead _ _ => 11
  | AwaitGet _ _ _ => 10
  | AwaitBuffer _ _ _ _ => 9
  | AwaitTip _ _ => 8
  | AwaitStream _ _ => 7
  | AwaitFull _ _ _ => 6
  | AwaitMkdir _ _ _ _ => 5
  | AwaitWrite _ _ _ _ => 4
  | AwaitRich _ _ _ => 3
  | AwaitPlain _ _ _ => 2
  | AwaitLink _ _ => 1
  | AwaitApology _ => 1
  | AwaitGuidance _ _ => 1
  | Finished _ => 0
  end.

(** The requests of the non-streaming calls among the calls of a turn. *)
Definition full_calls (calls : list ExtCall) : list GenRequest :=
  omap (fun call => match call with GenerateContent req => Some req | _ => None end) calls.

(** The messages among the calls of a turn. *)
Definition sends (calls : list ExtCall) : list OutMessage :=
  omap (fun call => match call with Send m => Some m | _ => None end) calls.

(** ** The classifier's rule, as the design states it *)

(** Two characters that are the same, or the same letter of A to Z in
    its two cases. *)
Definition same_letter (a b : ascii) : bool :=
  let m := N_of_ascii a in
  let n := N_of_ascii b in
  ((m =? n) || ((65 <=? m) && (m <=? 90) && (n =? m + 32)) ||
   ((65 <=? n) && (n <=? 90) && (m =? n + 32)))%N.

Fixpoint same_letters (a b : string) : bool :=
  match a, b with
  | EmptyString, EmptyString => true
  | String c a', String d b' => same_letter c d && same_letters a' b'
  | _, _ => false
  end.

(** [text] contains the word [w], ignoring case, with no word character
    next to it on either side: a match of [\bw\b] with the flag [i]. *)
Definition word_occurs (w text : string) : Prop :=
  exists pre mid post,
    text = pre +:+ mid +:+ post /\ same_letters mid w = true /\
    is_word (last_char None pre) = false /\ is_word (first_char post) = false.

Definition mentions (vocabulary : list string) (text : option string) : Prop :=
  exists t w, text = Some t /\ In w vocabulary /\ word_occurs w t.

(** [s] contains [w] as it is written, with no word character next to
    it on either side. *)
Definition stands_in (w s : string) : Prop :=
  exists pre post,
    s = pre +:+ w +:+ post /\
    is_word (last_char None pre) = false /\ is_word (first_char post) = false.

(** The lower-cased text has a word of the vocabulary. *)
Definition lower_case_has (vocabulary : list string) (text : option string) : Prop :=
  exists t w, text = Some t /\ In w vocabulary /\ stands_in w (toLowerCase t).

(** The text has neither U+212A nor U+0130. *)
Fixpoint plain_case (s : string) : bool :=
  match s with
  | EmptyString => true
  | String c s' =>
      negb (String.prefix kelvin_sign (String c s')) &&
      negb (String.prefix dotted_capital_i (String c s')) &&
      plain_case s'
  end.

(** A vocabulary entry: lower-case word characters, at least one. *)
Fixpoint word_chars (w : string) : bool :=
  match w with
  | EmptyString => true
  | String c w' => is_word_char c && word_chars w'
  end.

Definition plain_word (w : string) : bool :=
  truthy_str (Some w) && word_chars w && String.eqb (ascii_lower w) w.

(** ** One generation at a time *)

Section Exclusion.
Context `{Env}.

(** Two turns of one user never have the lock at once. *)
Definition one_generation_per_user (s : System) : Prop :=
  forall i j ti tj ci cj,
    turns s !! i = Some ti -> turns s !! j = Some tj ->
    in_generation ti = true -> in_generation tj = true ->
    turn_locals ti = Some ci -> turn_locals tj = Some cj ->
    userPhone ci = userPhone cj -> i = j.

(** Two turns of one user never have a backend call in flight at once. *)
Definition no_concurrent_generation (s : System) : Prop :=
  forall i j ti tj ci cj,
    turns s !! i = Some ti -> turns s !! j = Some tj ->
    generating ti = true -> generating tj = true ->
    turn_locals ti = Some ci -> turn_locals tj = Some cj ->
    userPhone ci = userPhone cj -> i = j.

(** While a turn of a user has the lock, the user's session says so. *)
Definition flag_set_while_generating (s : System) : Prop :=
  forall i t c,
    turns s !! i = Some t -> in_generation t = true -> turn_locals t = Some c ->
    exists o, session_of (world s) (userPhone c) = Some o /\ inProgress o = true.

(** None of the first [N] readings of the clock is further than the TTL
    ahead of an earlier reading, so no access that reads the clock among
    them finds a session expired. *)
Definition within_ttl (N : nat) : Prop :=
  forall m n, (m <= n)%nat -> (n < N)%nat -> Date_now n - Date_now m <= SESSION_TTL_MS.

(** The turn has not reached the ready check yet. *)
Definition before_check (t : Turn) : bool :=
  match t with
  | AwaitHead _ _ | AwaitGet _ _ _ | AwaitBuffer _ _ _ _ | AwaitTip _ _ => true
  | _ => false
  end.

(** The reference a turn holds is the user's current session, or a
    replaced one, which stays locked. *)
Definition reference_ok (w : World) (c : Locals) : Prop :=
  userSessions w !! userPhone c = Some (session c) \/
  ((exists o, heap w !! session c = Some o /\ inProgress o = true) /\
   forall u, userSessions w !! u <> Some (session c)).

Record store_ok (w : World) : Prop := {
  table_in_heap : well_formed w;
  table_injective : forall u v l,
    userSessions w !! u = Some l -> userSessions w !! v = Some l -> u = v;
  stamps_from_clock : forall l o,
    heap w !! l = Some o -> exists m, (m < ticks w)%nat /\ lastUpdated o = Date_now m
}.

(** A change of the store that keeps every entry of the table, adds
    entries for new objects only, and keeps every object in place and
    every locked object locked. *)
Record benign (w w' : World) : Prop := {
  entries_kept : forall u l, userSessions w !! u = Some l -> userSessions w' !! u = Some l;
  entries_new : forall u l,
    userSessions w' !! u = Some l ->
    userSessions w !! u = Some l \/ (List.length (heap w) <= l)%nat;
  locks_kept : forall l o,
    heap w !! l = Some o ->
    exists o', heap w' !! l = Some o' /\ (inProgress o = true -> inProgress o' = true)
}.

Record system_ok (s : System) : Prop := {
  sys_store : store_ok (world s);
  sys_refs : forall i t c,
    turns s !! i = Some t -> before_check t = true -> turn_locals t = Some c ->
    reference_ok (world s) c;
  sys_one : one_generation_per_user s;
  sys_flag : flag_set_while_generating s
}.

End Exclusion.

(** The same deployment with another TTL. *)
Definition with_ttl (E : Env) (ttl : Z) : Env :=
  {| IMAGE_MAX_BYTES := @IMAGE_MAX_BYTES E;
     SESSION_TTL_MS := ttl;
     PHOTOS_PATH := @PHOTOS_PATH E;
     PUBLIC_BASE_URL := @PUBLIC_BASE_URL E;
     RCS_SENDER_ID := @RCS_SENDER_ID E;
     Date_now := @Date_now E;
     to_base64 := @to_base64 E;
     path_join := @path_join E |}.

(** ** The accesses to the sessions *)

Section Accesses.
Context `{Env}.

(** [getSession userPhone], called in store [w], finds the session
    expired: the test of line 46. *)
Definition finds_expired (userPhone : string) (w : World) : bool :=
  match userSessions w !! userPhone with
  | Some l => Date_now (ticks w) - lastUpdated_or_0 (heap w !!! l) >? SESSION_TTL_MS
  | None => false
  end.

(** The calls of [getSession] that a piece of synchronous code makes,
    in order: the user, and the store in which the call is made.
    [updateSession] and [guidance] call it first thing; [resetSession]
    does not call it. *)

(** Lines 259-264: the call of each [updateSession]; the second comes
    after the reading of the clock for [ts]. *)
Definition store_media_accesses (c : Locals) (imageType : Slot) (w : World) :
    list (string * World) :=
  if decide (imageType = Selfie)
  then [(userPhone c, w);
        (userPhone c, tick (updateSession (userPhone c) (PatchSlot Clothing None) w).2)]
  else [(userPhone c, tick w)].

(** Lines 286-290 and 409-410: the call of the lock's [updateSession],
    or the one of the guidance. *)
Definition ready_check_accesses (c : Locals) (w : World) : list (string * World) :=
  [(userPhone c, w)].

(** Lines 387-406: the call of the [finally], after the reset. *)
Definition finish_generation_accesses (c : Locals) (w : World) : list (string * World) :=
  [(userPhone c, (resetSession (userPhone c) w).2)].

(** Lines 241-252: the call of line 241, and those of the ready check
    when the turn has no picture to fetch. *)
Definition inbound_accesses (req : Request) (w : World) : list (string * World) :=
  if negb (truthy_str (req_from req)) then []
  else
    let userPhone := default "" (req_from req) in
    let session := (getSession userPhone w).1 in
    let w1 := (getSession userPhone w).2 in
    (userPhone, w) ::
    match classify (req_text req) (req_mediaUrl req) (heap w1 !!! session) with
    | Some _ => if truthy_str (req_mediaUrl req) then [] else [(userPhone, w1)]
    | None => [(userPhone, w1)]
    end.

Definition resume_accesses (t : Turn) (r : ExtResult) (w : World) : list (string * World) :=
  match t with
  | AwaitBuffer c imageType p res =>
      match as_buffer r with
      | Throw _ => []
      | Ok buf =>
          match download_finish p res buf with
          | Throw _ => []
          | Ok img =>
              (store_media_accesses c imageType w ++
               ready_check_accesses c (store_media c imageType img w).2)%list
          end
      end
  | AwaitTip c _ => ready_check_accesses c w
  | AwaitRich c _ _ | AwaitPlain c _ _ =>
      if rejected r then [] else finish_generation_accesses c w
  | AwaitLink c _ | AwaitApology c => finish_generation_accesses c w
  | _ => []
  end.

Definition sys_step_accesses (s : System) (e : Event) : list (string * World) :=
  match e with
  | Arrive req => inbound_accesses req (world s)
  | Settle i r =>
      match turns s !! i with
      | Some t => resume_accesses t r (world s)
      | None => []
      end
  end.

(** The accesses of a run, from state [s]. *)
Fixpoint sys_run_accesses (es : list Event) (s : System) : list (string * World) :=
  match es with
  | [] => []
  | e :: es' => (sys_step_accesses s e ++ sys_run_accesses es' (sys_step s e))%list
  end.

(** No access of the run finds a session expired. *)
Definition no_access_finds_expired (es : list Event) : Prop :=
  Forall (fun access => finds_expired access.1 access.2 = false)
         (sys_run_accesses es initial_system).

End Accesses.

(** ** A concrete deployment, for the examples *)

(** The defaults of the code (12 MiB, ten minutes) and a clock that
    advances by one millisecond per reading. *)
Definition steady_env : Env :=
  {| IMAGE_MAX_BYTES := 12 * 1024 * 1024;
     SESSION_TTL_MS := 10 * 60 * 1000;
     PHOTOS_PATH := "/Pictures";
     PUBLIC_BASE_URL := None;
     RCS_SENDER_ID := Some "TryOn";
     Date_now := fun n => 1700000000000 + Z.of_nat n;
     to_base64 := fun buf => string_of_Z (Z.of_nat (List.length buf));
     path_join := fun dir file => dir +:+ "/" +:+ file |}.

(** The same deployment with a clock that stands still for its first
    [n] readings and is eleven minutes further from then on. *)
Definition jump_env (n : nat) : Env :=
  {| IMAGE_MAX_BYTES := 12 * 1024 * 1024;
     SESSION_TTL_MS := 10 * 60 * 1000;
     PHOTOS_PATH := "/Pictures";
     PUBLIC_BASE_URL := None;
     RCS_SENDER_ID := Some "TryOn";
     Date_now := fun k => if (k <? n)%nat then 1700000000000
                          else 1700000000000 + 11 * 60 * 1000;
     to_base64 := fun buf => string_of_Z (Z.of_nat (List.length buf));
     path_join := fun dir file => dir +:+ "/" +:+ file |}.

Definition picture (label url : string) : Request :=
  {| req_from := Some "447700900123";
     req_text := Some label;
     req_mediaUrl := Some url;
     req_protocol := "https";
     req_host := "tryon.example" |}.

Definition head_ok (content_type : string) : ExtResult :=
  RespHead {| head_status := 200;
              head_content_type := Some content_type;
              head_content_length := Some 2048 |}.

Definition get_ok : ExtResult :=
  RespGet {| res_status := 200; res_content_type := None |}.

(** Turn [i] downloads and stores its picture. *)
Definition fetched (i : nat) (content_type : string) : list Event :=
  [Settle i (head_ok content_type); Settle i get_ok; Settle i (RespBuffer [])].

(** A selfie, then clothing: turn 1 calls the backend, which does not
    answer.  Eleven minutes later the user sends both pictures again:
    turn 3 calls the backend as well.  The clock of [jump_env 13] jumps
    after the lock of turn 1. *)
Definition resend_after_ttl : list Event :=
  [Arrive (picture "selfie" "https://media.example/face.jpg")] ++
  fetched 0 "image/jpeg" ++ [Settle 0 Fulfilled] ++
  [Arrive (picture "shirt" "https://media.example/shirt.png")] ++
  fetched 1 "image/png" ++
  [Arrive (picture "selfie" "https://media.example/face.jpg")] ++
  fetched 2 "image/jpeg" ++ [Settle 2 Fulfilled] ++
  [Arrive (picture "shirt" "https://media.example/shirt.png")] ++
  fetched 3 "image/png".

(** Turn 1 has the lock and waits for the backend; turn 2, a second
    shirt, starts its download.  The clock of [jump_env 14] jumps here. *)
Definition locked_and_waiting : list Event :=
  [Arrive (picture "selfie" "https://media.example/face.jpg")] ++
  fetched 0 "image/jpeg" ++ [Settle 0 Fulfilled] ++
  [Arrive (picture "shirt" "https://media.example/shirt.png")] ++
  fetched 1 "image/png" ++
  [Arrive (picture "shirt" "https://media.example/shirt2.png")].

(** The request that arrives while the flag is set: a WEBP picture. *)
Definition late_request : Request := picture "shirt" "https://media.example/shirt.webp".

(** Turn 3 (the late request) starts its download; a new selfie arrives
    and is stored by turn 4; turn 2 stores its shirt; the download of
    turn 3 fails on the type, its tip is sent, and its ready check
    runs. *)
Definition after_late_request : list Event :=
  [Arrive (picture "selfie" "https://media.example/face2.jpg")] ++
  fetched 4 "image/jpeg" ++ [Settle 4 Fulfilled] ++
  fetched 2 "image/png" ++ [Settle 2 Fulfilled] ++
  fetched 3 "image/webp" ++ [Settle 3 Fulfilled].

(** A store in which the user's session, holding both pictures, was last
    updated [age] milliseconds before the first reading of [steady_env]. *)
Definition aged_session (age : Z) : Session :=
  {| selfie := Some {| data := "c2VsZmll"; mime := "image/jpeg"; ts := 1700000000000 - age |};
     clothing := Some {| data := "c2hpcnQ="; mime := "image/png"; ts := 1700000000000 - age |};
     inProgress := false;
     lastUpdated := 1700000000000 - age |}.

Definition aged_world (age : Z) : World :=
  {| userSessions := {[ "447700900123" := 0%nat ]};
     heap := [aged_session age];
     ticks := 0 |}.

(** A probe that declares thirteen megabytes of a type of one's choice. *)
Definition big_probe (content_type : string) : Probe :=
  probe (Some {| head_status := 200;
                 head_content_type := Some content_type;
                 head_content_length := Some 13000000 |}).

Definition plain_get : GetResp := {| res_status := 200; res_content_type := None |}.

(** A probe that declares two kilobytes of a type of one's choice. *)
Definition small_probe (content_type : string) : Probe :=
  probe (Some {| head_status := 200;
                 head_content_type := Some content_type;
                 head_content_length := Some 2048 |}).

(** The locals of a turn of the example user that holds reference [l]. *)
Definition example_locals (l : nat) : Locals :=
  {| userPhone := "447700900123";
     text := None;
     mediaUrl := Some "https://media.example/picture";
     session := l;
     protocol := "https";
     host := "tryon.example" |}.

(** A response of the backend that carries an image, and one that was
    stopped by a safety filter. *)
Definition image_response : JsVal :=
  JObj [("candidates",
         JArr [JObj [("content",
                      JObj [("parts",
                             JArr [JObj [("text", JStr "Here you go")];
                                   JObj [("inlineData",
                                          JObj [("mimeType", JStr "image/png");
                                                ("data", JStr "iVBORw0KGgo=")])]])])]])].

Definition blocked_response : JsVal :=
  JObj [("candidates", JArr [JObj [("finishReason", JStr "SAFETY")]])].

(** An exchange that is finished, and eleven minutes later (on the
    clock of [jump_env 16]) the first request of another user. *)
Definition exchange_then_other_user : list Event :=
  [Arrive (picture "selfie" "https://media.example/face.jpg")] ++
  fetched 0 "image/jpeg" ++ [Settle 0 Fulfilled] ++
  [Arrive (picture "shirt" "https://media.example/shirt.png")] ++
  fetched 1 "image/png" ++
  [Settle 1 (RespStream [image_response]); Settle 1 Fulfilled; Settle 1 Fulfilled;
   Settle 1 Fulfilled] ++
  [Arrive {| req_from := Some "447700900456";
             req_text := Some "me";
             req_mediaUrl := Some "https://media.example/other.jpg";
             req_protocol := "https";
             req_host := "tryon.example" |}].

(** A picture sent without a caption. *)
Definition unlabelled (url : string) : Request :=
  {| req_from := Some "447700900123";
     req_text := None;
     req_mediaUrl := Some url;
     req_protocol := "https";
     req_host := "tryon.example" |}.

(** A selfie with its caption, then a picture without one. *)
Definition two_pictures : list Event :=
  [Arrive (picture "selfie" "https://media.example/face.jpg")] ++
  fetched 0 "image/jpeg" ++ [Settle 0 Fulfilled] ++
  [Arrive (unlabelled "https://media.example/shirt.png")] ++
  fetched 1 "image/png".

(** The backend streams the image, the file is written and the rich
    message goes through. *)
Definition generation_succeeds : list Event :=
  [Settle 1 (RespStream [image_response]); Settle 1 Fulfilled; Settle 1 Fulfilled;
   Settle 1 Fulfilled].

(** The backend returns no image, on the stream and on the fallback. *)
Definition generation_blocked : list Event :=
  [Settle 1 (RespStream [blocked_response]); Settle 1 (RespFull blocked_response);
   Settle 1 Fulfilled].

(** ** Where the search for inline data looks *)

(** The first result of [f] over a list, in order. *)
Fixpoint first_found {A : Type} (f : A -> option JsVal) (l : list A) : option JsVal :=
  match l with
  | [] => None
  | x :: l' => match f x with Some r => Some r | None => first_found f l' end
  end.

(** [v] occurs in [root]: it is [root], an element of an array in it or
    the value of a field of an object in it. *)
Inductive inside (v : JsVal) : JsVal -> Prop :=
| inside_here : inside v v
| inside_item (x : JsVal) (items : list JsVal) :
    In x items -> inside v x -> inside v (JArr items)
| inside_field (k : string) (x : JsVal) (fields : list (string * JsVal)) :
    In (k, x) fields -> inside v x -> inside v (JObj fields).

(** The inline data an object carries itself (lines 130-131):
    [inlineData] when its [data] is truthy, else [inline_data] when its
    [data] is. *)
Definition own_payload (o : JsVal) : option JsVal :=
  match o with
  | JObj _ =>
      if truthy (get_prop (get_prop o "inlineData") "data")
      then Some (get_prop o "inlineData")
      else if truthy (get_prop (get_prop o "inline_data") "data")
      then Some (get_prop o "inline_data")
      else None
  | _ => None
  end.

(** ** Reading the webhook body *)

(** The values that [??] and [?.] skip. *)
Definition nullish (v : JsVal) : bool :=
  match v with JUndefined | JNull => true | _ => false end.

(** [a ?? b] *)
Definition coalesce (a b : JsVal) : JsVal := if nullish a then b else a.

(** [v?.k1?.k2...]: [get_prop] already yields [undefined] on a base
    that is [null], [undefined] or a primitive. *)
Definition path (v : JsVal) (ks : list string) : JsVal := fold_left get_prop ks v.

(** Lines 62-70; [??] associates to the left. *)
Definition extractText (msg : JsVal) : JsVal :=
  coalesce
    (coalesce
      (coalesce
        (coalesce (path msg ["text"]) (path msg ["message"; "text"]))
        (path msg ["message"; "content"; "text"]))
      (path msg ["message"; "content"; "message"; "text"]))
    JNull.

(** Lines 71-84. *)
Definition extractMediaUrl (msg : JsVal) : JsVal :=
  coalesce
    (coalesce
      (coalesce
        (coalesce
          (coalesce
            (coalesce
              (coalesce
                (coalesce
                  (coalesce (path msg ["image"; "url"])
                            (path msg ["message"; "image"; "url"]))
                  (path msg ["message"; "content"; "image"; "url"]))
                (path msg ["content"; "image"; "url"]))
              (path msg ["message"; "content"; "message"; "image"; "url"]))
            (path msg ["file"; "url"]))
          (path msg ["message"; "file"; "url"]))
        (path msg ["message"; "content"; "file"; "url"]))
      (path msg ["content"; "file"; "url"]))
    JNull.

(** The places [extractText] and [extractMediaUrl] look at, in order. *)
Definition text_paths : list (list string) :=
  [["text"]; ["message"; "text"]; ["message"; "content"; "text"];
   ["message"; "content"; "message"; "text"]].

Definition image_paths : list (list string) :=
  [["image"; "url"]; ["message"; "image"; "url"];
   ["message"; "content"; "image"; "url"]; ["content"; "image"; "url"];
   ["message"; "content"; "message"; "image"; "url"]].

Definition file_paths : list (list string) :=
  [["file"; "url"]; ["message"; "file"; "url"];
   ["message"; "content"; "file"; "url"]; ["content"; "file"; "url"]].

(** The first value that is neither [null] nor [undefined], else [null]. *)
Fixpoint first_present (vs : list JsVal) : JsVal :=
  match vs with
  | [] => JNull
  | v :: vs' => if nullish v then first_present vs' else v
  end.

(** ** Webhook authentication *)

(** [s.split(" ")] *)
Fixpoint split_space (s : string) : list string :=
  match s with
  | EmptyString => [EmptyString]
  | String c s' =>
      if Ascii.eqb c " " then EmptyString :: split_space s'
      else match split_space s' with
           | w :: ws => String c w :: ws
           | [] => [String c EmptyString]
           end
  end.

(** The settings read from [process.env] by the middleware and the
    local routes, and [verifySignature] of the JWT library, which
    answers or throws. *)
Class Access := {
  SKIP_VONAGE_JWT : option string;
  VONAGE_API_SIGNATURE_SECRET : option string;
  GEMINI_API_KEY : option string;
  verifySignature : string -> option string -> Exc bool
}.

(** What the middleware does with a request: hand it on, or answer 401
    with a problem document. *)
Inductive Gate :=
| Next
| Unauthorized (detail : string).

Definition no_space (s : string) : Prop := ~ In " "%char (list_ascii_of_string s).

Section Middleware.
Context `{Access}.

(** Lines 153-164; [authorization] is the header, [None] when absent. *)
Definition verifyWebhookSignature (authorization : option string) : Gate :=
  if decide (SKIP_VONAGE_JWT = Some "true") then Next
  else
    let jwtToken := authorization ≫= (fun a => split_space a !! 1%nat) in
    if negb (truthy_str jwtToken) then Unauthorized "No JWT token provided."
    else
      match verifySignature (default "" jwtToken) VONAGE_API_SIGNATURE_SECRET with
      | Ok true => Next
      | Ok false => Unauthorized "Invalid JWT signature."
      | Throw _ => Unauthorized "JWT verification failed."
      end.

End Middleware.


(** ** What the store keeps, whatever the clock does *)

Definition accepted_mime (m : string) : Prop := m = "image/png" \/ m = "image/jpeg".

Definition asset_ok (a : option ImageAsset) : Prop :=
  forall x, a = Some x -> accepted_mime (mime x).

Definition session_ok (o : Session) : Prop :=
  asset_ok (selfie o) /\ asset_ok (clothing o).

Definition patch_ok (patch : Patch) : Prop :=
  match patch with
  | PatchSlot _ v => asset_ok v
  | PatchInProgress _ => True
  end.

(** Every entry of the table refers to an object of the heap, no two
    users share an object, and every stored picture is a PNG or a JPEG. *)
Record sound (w : World) : Prop := {
  sound_table : well_formed w;
  sound_injective : forall u v l,
    userSessions w !! u = Some l -> userSessions w !! v = Some l -> u = v;
  sound_assets : forall l o, heap w !! l = Some o -> session_ok o
}.

(** The request was built from two pictures of accepted types. *)
Definition request_ok (req : GenRequest) : Prop :=
  exists sf cl, req = build_request sf cl /\
                accepted_mime (mime sf) /\ accepted_mime (mime cl).

(** The request of the backend call a turn is waiting for. *)
Definition turn_request (t : Turn) : option GenRequest :=
  match t with
  | AwaitStream _ req | AwaitFull _ req _ => Some req
  | _ => None
  end.

(** The reference a turn holds is an object of the heap, and the
    request it has sent is a proper one. *)
Definition turn_ok (w : World) (t : Turn) : Prop :=
  (forall c, turn_locals t = Some c -> (session c < List.length (heap w))%nat) /\
  (forall req, turn_request t = Some req -> request_ok req).

(** A change of the store made for [user]: no object goes away and the
    sessions of the other users are what they were. *)
Record touches (user : string) (w w' : World) : Prop := {
  heap_grows : (List.length (heap w) <= List.length (heap w'))%nat;
  others_kept : forall v, v <> user -> session_of w' v = session_of w v
}.

Definition advance (user : string) (w w' : World) : Prop :=
  sound w' /\ touches user w w'.

Record system_sound (s : System) : Prop := {
  ss_store : sound (world s);
  ss_turns : Forall (turn_ok (world s)) (turns s)
}.

(** The user an event works for: the sender of an arriving request, the
    user of the turn that is resumed. *)
Definition event_user (s : System) (e : Event) : option string :=
  match e with
  | Arrive req => if truthy_str (req_from req) then req_from req else None
  | Settle i _ => userPhone <$> (turns s !! i ≫= turn_locals)
  end.


(** A request of a second user, for the examples. *)
Definition other_request : Request :=
  {| req_from := Some "447700900456";
     req_text := Some "me";
     req_mediaUrl := Some "https://media.example/other.jpg";
     req_protocol := "https";
     req_host := "tryon.example" |}.


(** The calls of the download. *)
Definition is_fetch (call : ExtCall) : bool :=
  match call with
  | FetchHead _ | FetchGet _ | ReadBuffer => true
  | _ => false
  end.

(** The turn is inside [downloadImageAsBase64IfSupported]. *)
Definition fetching (t : Turn) : bool :=
  match t with
  | AwaitHead _ _ | AwaitGet _ _ _ | AwaitBuffer _ _ _ _ => true
  | _ => false
  end.

(** A message that carries a caption only. *)
Definition caption_only (label : string) : Request :=
  {| req_from := Some "447700900123";
     req_text := Some label;
     req_mediaUrl := None;
     req_protocol := "https";
     req_host := "tryon.example" |}.


(** ** The other routes *)

(** [res.status(n).end()] and [res.status(n).json(body)]. *)
Inductive Reply :=
| ReplyEnd (status : Z)
| ReplyJson (status : Z) (body : JsVal).

(** The document of the middleware's refusals. *)
Definition unauthorized (detail : string) : Reply :=
  ReplyJson 401 (JObj [("status", JNum 401); ("title", JStr "Unauthorized");
                       ("detail", JStr detail)]).

(** [req.headers.authorization] *)
Definition authorization_of (headers : JsVal) : option string :=
  match get_prop headers "authorization" with
  | JStr a => Some a
  | _ => None
  end.

(** [lastWebhook], when it is not [null]. *)
Record Webhook := { wh_time : Z; wh_headers : JsVal; wh_body : JsVal }.

(** The session store together with [lastWebhook]. *)
Record Process := { store : World; lastWebhook : option Webhook }.

(** The body of [POST /try-on] and what [buildPublicUrl] reads of the
    request. *)
Record TryOnRequest := {
  try_authorization : option string;
  clothingImageData : option string;
  clothingMimeType : option string;
  try_protocol : string;
  try_host : string
}.

(** The calls of the local route: the read of the stored selfie, and
    calls the webhook makes as well. *)
Inductive LocalCall :=
| ReadFile (path : string)
| Shared (call : ExtCall).

(** A suspended turn of the local route, its reply, or the rejection of
    the handler when an awaited call outside a [try] fails. *)
Inductive TryOn :=
| TryRead (q : TryOnRequest)
| TryStream (q : TryOnRequest) (req : GenRequest)
| TryFull (q : TryOnRequest) (req : GenRequest) (textResponse : string)
| TryMkdir (q : TryOnRequest) (imagePart : JsVal) (textResponse outFile : string)
| TryWrite (q : TryOnRequest) (imagePart : JsVal) (textResponse outFile : string)
| TryReplied (reply : Reply)
| TryRejected (e : JsError).

Definition try_prompt : string :=
  "Stylized clothing overlay. Non-photorealistic. Do not modify facial features.".

(** Lines 434-442. *)
Definition try_request (selfie clothing clothingMimeType : string) : GenRequest :=
  {| model := MODEL_ID;
     responseModalities := ["IMAGE"; "TEXT"];
     responseMimeType := "image/png";
     role := "user";
     parts := [InlineData selfie "image/png";
               InlineData clothing clothingMimeType;
               TextPart try_prompt] |}.

(** [a || b] on values. *)
Definition js_or (a b : JsVal) : JsVal := if truthy a then a else b.

(** What [buildPublicUrl] reads of the request of the local route. *)
Definition try_locals (q : TryOnRequest) : Locals :=
  {| userPhone := ""; text := None; mediaUrl := None; session := 0%nat;
     protocol := try_protocol q; host := try_host q |}.

(** The failure of an awaited call, if it failed. *)
Definition failure (r : ExtResult) : option JsError :=
  match r with Rejected e => Some e | _ => None end.

Section Routes.
Context `{Env} `{Access}.

(** Lines 183-187, behind the middleware. *)
Definition webhooks_status (headers body : JsVal) (p : Process) : Reply * Process :=
  match verifyWebhookSignature (authorization_of headers) with
  | Unauthorized detail => (unauthorized detail, p)
  | Next =>
      let (t, w) := now (store p) in
      (ReplyEnd 200,
       {| store := w;
          lastWebhook := Some {| wh_time := t; wh_headers := headers; wh_body := body |} |})
  end.

(** Lines 190-193. *)
Definition debug_last (p : Process) : Reply :=
  match lastWebhook p with
  | None => ReplyJson 404 (JObj [("error", JStr "no webhook seen yet")])
  | Some wh =>
      ReplyJson 200
        (JObj [("lastWebhook",
                JObj [("time", JNum (wh_time wh)); ("headers", wh_headers wh);
                      ("body", wh_body wh)])])
  end.

(** The status webhooks of a list, served in order. *)
Definition serve_status (posts : list (JsVal * JsVal)) (p : Process) : Process :=
  fold_left (fun p post => (webhooks_status post.1 post.2 p).2) posts p.

(** The middleware lets the webhook through. *)
Definition admitted (post : JsVal * JsVal) : bool :=
  match verifyWebhookSignature (authorization_of post.1) with
  | Next => true
  | Unauthorized _ => false
  end.

(** Lines 457-466. *)
Definition try_after (q : TryOnRequest) (imagePart : option JsVal) (textResponse : string) :
    Sync TryOn :=
  let no_image :=
    TryReplied (ReplyJson 500 (JObj [("success", JBool false);
                                     ("message", JStr "No image generated");
                                     ("textResponse", JStr textResponse)])) in
  match imagePart with
  | Some ip =>
      if truthy (get_prop ip "data") then
        t ← now;
        mret (TryMkdir q ip textResponse ("tryon_local_" +:+ string_of_Z t +:+ ".png"))
      else mret no_image
  | None => mret no_image
  end.

(** Lines 426-430: the middleware, the two checks and the first call. *)
Definition try_on (q : TryOnRequest) : TryOn :=
  match verifyWebhookSignature (try_authorization q) with
  | Unauthorized detail => TryReplied (unauthorized detail)
  | Next =>
      if negb (truthy_str GEMINI_API_KEY)
      then TryReplied (ReplyJson 500 (JObj [("error", JStr "GEMINI_API_KEY not set")]))
      else if negb (truthy_str (clothingImageData q))
      then TryReplied (ReplyJson 400 (JObj [("error", JStr "Provide clothingImageData (base64)")]))
      else TryRead q
  end.

Definition try_pending (t : TryOn) : option LocalCall :=
  match t with
  | TryRead _ => Some (ReadFile (path_join PHOTOS_PATH "me.png"))
  | TryStream _ req => Some (Shared (GenerateContentStream req))
  | TryFull _ req _ => Some (Shared (GenerateContent req))
  | TryMkdir _ _ _ _ => Some (Shared (Mkdir PHOTOS_PATH))
  | TryWrite _ ip _ outFile =>
      Some (Shared (WriteFile (path_join PHOTOS_PATH outFile) (js_string (get_prop ip "data"))))
  | TryReplied _ | TryRejected _ => None
  end.

(** The segment that runs when the awaited call settles with [r]. *)
Definition try_resume (t : TryOn) (r : ExtResult) : Sync TryOn :=
  match t with
  | TryRead q =>
      match as_buffer r with
      | Throw e => mret (TryRejected e)
      | Ok fileBuffer =>
          mret (TryStream q
                  (try_request (to_base64 fileBuffer) (default "" (clothingImageData q))
                     (str_or (default "" (clothingMimeType q)) "image/jpeg")))
      end
  | TryStream q req =>
      match as_stream r with
      | Throw _ => try_after q None ""
      | Ok events =>
          let collected := collectFromStream events in
          match imagePart collected with
          | Some ip => try_after q (Some ip) (collected_text collected)
          | None => mret (TryFull q req (collected_text collected))
          end
      end
  | TryFull q req textResponse =>
      match as_full r with
      | Throw _ => try_after q None textResponse
      | Ok full => try_after q (findInlineData full) (textResponse +:+ text_of full)
      end
  | TryMkdir q ip textResponse outFile =>
      match failure r with
      | Some e => mret (TryRejected e)
      | None => mret (TryWrite q ip textResponse outFile)
      end
  | TryWrite q ip textResponse outFile =>
      match failure r with
      | Some e => mret (TryRejected e)
      | None =>
          mret (TryReplied
                  (ReplyJson 200
                     (JObj [("success", JBool true);
                            ("imageUrl", JStr (buildPublicUrl (try_locals q) outFile));
                            ("mimeType", js_or (get_prop ip "mimeType") (JStr "image/png"));
                            ("textResponse", JStr textResponse)])))
      end
  | TryReplied reply => mret (TryReplied reply)
  | TryRejected e => mret (TryRejected e)
  end.

(** A turn of the local route run alone: its calls, in order, and where
    it stands when the outcomes run out. *)
Fixpoint try_run (t : TryOn) (rs : list ExtResult) (w : World) : list LocalCall * TryOn * World :=
  match try_pending t, rs with
  | None, _ => ([], t, w)
  | Some call, [] => ([call], t, w)
  | Some call, r :: rs' =>
      let (t', w') := try_resume t r w in
      let '(calls, t'', w'') := try_run t' rs' w' in
      (call :: calls, t'', w'')
  end.

End Routes.


(** The calls of the local route that are not inside a [try]. *)
Definition is_file_call (call : LocalCall) : bool :=
  match call with
  | ReadFile _ | Shared (Mkdir _) | Shared (WriteFile _ _) => true
  | _ => false
  end.

(** The request a turn of the local route serves. *)
Definition try_request_of (t : TryOn) : option TryOnRequest :=
  match t with
  | TryRead q | TryStream q _ | TryFull q _ _ | TryMkdir q _ _ _ | TryWrite q _ _ _ => Some q
  | TryReplied _ | TryRejected _ => None
  end.

(** The turn is past the write of the artifact. *)
Definition delivering (t : Turn) : bool :=
  match t with
  | AwaitRich _ _ _ | AwaitPlain _ _ _ | AwaitLink _ _ | Finished _ => true
  | _ => false
  end.

Definition is_write (call : ExtCall) : bool :=
  match call with WriteFile _ _ => true | _ => false end.

(** No underscore in the string. *)
Fixpoint no_underscore (s : string) : bool :=
  match s with
  | EmptyString => true
  | String c s' => negb (Ascii.eqb c "_") && no_underscore s'
  end.

(** A local request that is let through, and a deployment that lets it. *)
Definition local_request : TryOnRequest :=
  {| try_authorization := None;
     clothingImageData := Some "c2hpcnQ=";
     clothingMimeType := None;
     try_protocol := "http";
     try_host := "localhost:3000" |}.

Definition open_access : Access :=
  {| SKIP_VONAGE_JWT := Some "true";
     VONAGE_API_SIGNATURE_SECRET := None;
     GEMINI_API_KEY := Some "key";
     verifySignature := fun _ _ => Ok false |}.


(** ** The earlier handler (second source file) *)

(** The handler of the earlier version keeps [userImages], a map from
    phone numbers to objects with the keys [selfie] and [clothing]; it
    reads the map again after every suspension, so the objects are
    values here.  None of its awaits is inside a [try]: a call that
    fails rejects the handler. *)
Module Earlier.

Record Images := { selfie : option string; clothing : option string }.

(** [{}] *)
Definition no_images : Images := {| selfie := None; clothing := None |}.

(** [images[imageType] = base64] *)
Definition set_image (images : Images) (imageType : Slot) (base64 : string) : Images :=
  match imageType with
  | Selfie => {| selfie := Some base64; clothing := clothing images |}
  | Clothing => {| selfie := selfie images; clothing := Some base64 |}
  end.

(** [{ model, config, contents }] of lines 103-131. *)
Record StreamRequest := {
  model : string;
  responseModalities : list string;
  role : string;
  parts : list Part
}.

Definition contents (selfie clothing : string) : StreamRequest :=
  {| model := "gemini-2.5-flash-image-preview";
     responseModalities := ["IMAGE"; "TEXT"];
     role := "user";
     parts := [InlineData selfie "image/jpeg";
               InlineData clothing "image/jpeg";
               TextPart "Try this clothing on me."] |}.

Inductive Call :=
| Fetch (url : string)
| ReadBody
| GenerateContentStream (req : StreamRequest)
| WriteFile (path : string) (bytes : list Byte.byte)
| SendImage (to : string) (from : option string) (image_url : string).

(** How an awaited call settles.  A stream yields its chunks and may
    fail after them; the loop of lines 133-138 stops reading at the
    first image. *)
Inductive Result :=
| Failed (e : JsError)
| Response
| Body (buffer : list Byte.byte)
| Stream (chunks : list JsVal) (failure : option JsError)
| Settled.

(** The failure of an awaited call whose value is not used. *)
Definition failed (r : Result) : option JsError :=
  match r with Failed e => Some e | _ => None end.

(** The locals that live across suspension points. *)
Record Locals := { userPhone : string; url : string }.

(** A suspended turn, its reply, or the rejection of the handler. *)
Inductive Turn :=
| Fetching (c : Locals) (imageType : Slot)
| Reading (c : Locals) (imageType : Slot)
| Streaming (c : Locals) (req : StreamRequest)
| Writing (c : Locals) (bytes : list Byte.byte)
| Sending (c : Locals)
| Ended (status : Z)
| Rejected (e : JsError).

Definition turn_user (t : Turn) : option string :=
  match t with
  | Fetching c _ | Reading c _ | Streaming c _ | Writing c _ | Sending c => Some (userPhone c)
  | Ended _ | Rejected _ => None
  end.

(** [v?.[0]] *)
Definition first_of (v : JsVal) : JsVal :=
  match v with
  | JArr (x :: _) => x
  | JObj fs => assoc "0" fs
  | JStr (String c _) => JStr (String c "")
  | _ => JUndefined
  end.

(** [chunk.candidates?.[0]?.content?.parts?.[0]?.inlineData] *)
Definition first_part_inlineData (chunk : JsVal) : JsVal :=
  get_prop
    (first_of (get_prop (get_prop (first_of (get_prop chunk "candidates")) "content") "parts"))
    "inlineData".

(** Lines 132-138: the first chunk whose first part has inline data; a
    chunk that is [null] or [undefined] makes the property access
    throw. *)
Fixpoint first_image (chunks : list JsVal) (failure : option JsError) : Exc (option JsVal) :=
  match chunks with
  | [] => match failure with Some e => Throw e | None => Ok None end
  | chunk :: rest =>
      if nullish chunk then Throw plain_error
      else if truthy (first_part_inlineData chunk) then Ok (Some (first_part_inlineData chunk))
      else first_image rest failure
  end.

Section Handler.
Context `{Env}.
(** [Buffer.from(v, "base64")], which answers or throws. *)
Variable Buffer_from : JsVal -> Exc (list Byte.byte).

(** [`${process.env.PUBLIC_BASE_URL}/photos/tryon_${userPhone}.png`] *)
Definition publicUrl (c : Locals) : string :=
  default "undefined" PUBLIC_BASE_URL +:+ "/photos/tryon_" +:+ userPhone c +:+ ".png".

Definition outPath (c : Locals) : string :=
  path_join PHOTOS_PATH ("tryon_" +:+ userPhone c +:+ ".png").

(** Line 102: both pictures are there. *)
Definition pair (userImages : gmap string Images) (user : string) : option (string * string) :=
  images ← userImages !! user;
  if truthy_str (selfie images) && truthy_str (clothing images)
  then Some (default "" (selfie images), default "" (clothing images))
  else None.

(** Lines 102-131 and 155: the generation starts, or the reply is sent. *)
Definition generate (c : Locals) (userImages : gmap string Images) : Turn :=
  match pair userImages (userPhone c) with
  | Some (selfie, clothing) => Streaming c (contents selfie clothing)
  | None => Ended 200
  end.

(** Lines 79-98: the first segment. *)
Definition inbound (req : Request) (userImages : gmap string Images) : Turn :=
  if negb (truthy_str (req_from req)) then Ended 200
  else
    let c := {| userPhone := default "" (req_from req);
                url := default "" (req_mediaUrl req) |} in
    match classify_includes (req_text req) with
    | Some imageType =>
        if truthy_str (req_mediaUrl req) then Fetching c imageType
        else generate c userImages
    | None => generate c userImages
    end.

(** The call a suspended turn is waiting for. *)
Definition pending (t : Turn) : option Call :=
  match t with
  | Fetching c _ => Some (Fetch (url c))
  | Reading _ _ => Some ReadBody
  | Streaming _ req => Some (GenerateContentStream req)
  | Writing c bytes => Some (WriteFile (outPath c) bytes)
  | Sending c => Some (SendImage (userPhone c) RCS_SENDER_ID (publicUrl c))
  | Ended _ | Rejected _ => None
  end.

(** The segment that runs when the awaited call settles with [r]. *)
Definition resume (t : Turn) (r : Result) (userImages : gmap string Images) :
    Turn * gmap string Images :=
  match t with
  | Fetching c imageType =>
      match failed r with
      | Some e => (Rejected e, userImages)
      | None => (Reading c imageType, userImages)
      end
  | Reading c imageType =>
      match r with
      | Body buffer =>
          let base64 := to_base64 buffer in
          let images := default no_images (userImages !! userPhone c) in
          let userImages' := <[userPhone c := set_image images imageType base64]> userImages in
          (generate c userImages', userImages')
      | Failed e => (Rejected e, userImages)
      | _ => (Rejected plain_error, userImages)
      end
  | Streaming c _ =>
      match r with
      | Stream chunks failure =>
          match first_image chunks failure with
          | Throw e => (Rejected e, userImages)
          | Ok None => (Ended 200, userImages)
          | Ok (Some generatedImageData) =>
              match Buffer_from (get_prop generatedImageData "data") with
              | Throw e => (Rejected e, userImages)
              | Ok bytes => (Writing c bytes, userImages)
              end
          end
      | Failed e => (Rejected e, userImages)
      | _ => (Rejected plain_error, userImages)
      end
  | Writing c _ =>
      match failed r with
      | Some e => (Rejected e, userImages)
      | None => (Sending c, userImages)
      end
  | Sending c =>
      match failed r with
      | Some e => (Rejected e, userImages)
      | None => (Ended 200, delete (userPhone c) userImages)
      end
  | Ended status => (Ended status, userImages)
  | Rejected e => (Rejected e, userImages)
  end.

(** A turn run alone: the calls it issues, in order, and where it
    stands when the outcomes run out. *)
Fixpoint run (t : Turn) (rs : list Result) (userImages : gmap string Images) :
    list Call * Turn * gmap string Images :=
  match pending t, rs with
  | None, _ => ([], t, userImages)
  | Some call, [] => ([call], t, userImages)
  | Some call, r :: rs' =>
      let (t', userImages') := resume t r userImages in
      let '(calls, t'', userImages'') := run t' rs' userImages' in
      (call :: calls, t'', userImages'')
  end.

End Handler.

End Earlier.

(** Both pictures of the example user, as the earlier handler keeps
    them, and a message of that user with neither picture nor label. *)
Definition stored_pair : gmap string Earlier.Images :=
  {[ "447700900123" := {| Earlier.selfie := Some "c2VsZmll"; Earlier.clothing := Some "c2hpcnQ=" |} ]}.

Definition hello : Request :=
  {| req_from := Some "447700900123";
     req_text := Some "hello";
     req_mediaUrl := None;
     req_protocol := "https";
     req_host := "tryon.example" |}.


(** A chunk whose first part is the picture. *)
Definition picture_chunk : JsVal :=
  JObj [("candidates",
         JArr [JObj [("content",
                      JObj [("parts",
                             JArr [JObj [("inlineData",
                                          JObj [("mimeType", JStr "image/png");
                                                ("data", JStr "iVBORw0KGgo=")])]])])]])].


(** A store in which the user's session holds a selfie stored one second
    before the first reading of [steady_env]. *)
Definition selfie_session : Session :=
  {| selfie := Some {| data := "c2VsZmll"; mime := "image/jpeg"; ts := 1700000000000 - 1000 |};
     clothing := None;
     inProgress := false;
     lastUpdated := 1700000000000 - 1000 |}.

Definition selfie_world : World :=
  {| userSessions := {[ "447700900123" := 0%nat ]};
     heap := [selfie_session];
     ticks := 0 |}.


(** * Properties *)

Section StoreFacts.
Context `{Env}.

Lemma lastUpdated_or_0_id (s : Session) : lastUpdated_or_0 s = lastUpdated s.
Proof.
  unfold lastUpdated_or_0.
  destruct (Z.eqb_spec (lastUpdated s) 0); congruence.
Qed.

(** [getSession] as a function of the table entry and of the clock. *)
Lemma getSession_unfold (userPhone : string) (w : World) :
  getSession userPhone w =
  match userSessions w !! userPhone with
  | None => assign_entry userPhone (new_session (Date_now (ticks w))) (tick w)
  | Some l =>
      if Date_now (ticks w) - lastUpdated (heap w !!! l) >? SESSION_TTL_MS
      then assign_entry userPhone (new_session (Date_now (S (ticks w)))) (tick (tick w))
      else (l, tick w)
  end.
Proof.
  unfold getSession, mbind, Sync_bind, entry, read, now, tick, mret, Sync_ret; simpl.
  destruct (userSessions w !! userPhone) as [l|]; [|reflexivity].
  rewrite lastUpdated_or_0_id.
  destruct (_ >? _); reflexivity.
Qed.

Lemma session_of_assign_entry (userPhone : string) (s : Session) (w : World) :
  session_of (assign_entry userPhone s w).2 userPhone = Some s.
Proof.
  unfold session_of, assign_entry; simpl.
  rewrite lookup_insert_eq; simpl.
  rewrite lookup_app_r by lia.
  by rewrite Nat.sub_diag.
Qed.

End StoreFacts.

(** C3.  An access later than the TTL after the last update returns a
    new, empty session (no selfie, no clothing, not in progress), which
    is also the one the table now holds, and not the stored object; an
    access at or under the TTL returns the stored object and leaves the
    table and every session as they were. *)
Theorem getSession_expiry `{Env} (userPhone : string) (w : World) (l : nat) (s : Session) :
  userSessions w !! userPhone = Some l ->
  heap w !! l = Some s ->
  let age := Date_now (ticks w) - lastUpdated s in
  let l' := (getSession userPhone w).1 in
  let w' := (getSession userPhone w).2 in
  (SESSION_TTL_MS < age ->
     exists s', heap w' !! l' = Some s' /\ session_of w' userPhone = Some s' /\
                selfie s' = None /\ clothing s' = None /\ inProgress s' = false /\
                l' <> l) /\
  (age <= SESSION_TTL_MS ->
     l' = l /\ heap w' !! l' = Some s /\
     heap w' = heap w /\ userSessions w' = userSessions w).
Proof.
  intros Hentry Hobj age l' w'; subst age l' w'.
  rewrite getSession_unfold, Hentry.
  rewrite (list_lookup_total_correct _ _ _ Hobj).
  split; intros Hage.
  - assert ((Date_now (ticks w) - lastUpdated s >? SESSION_TTL_MS) = true) as -> by lia.
    pose proof (lookup_lt_Some _ _ _ Hobj) as Hlt.
    exists (new_session (Date_now (S (ticks w)))).
    split; [|split; [apply session_of_assign_entry|]].
    + simpl. rewrite lookup_app_r by (unfold tick; simpl; lia).
      unfold tick; simpl. by rewrite Nat.sub_diag.
    + repeat split; try reflexivity. simpl. unfold tick; simpl. lia.
  - assert ((Date_now (ticks w) - lastUpdated s >? SESSION_TTL_MS) = false) as -> by lia.
    simpl. unfold tick; simpl. done.
Qed.

Lemma getSession_expiry_witness :
  userSessions (aged_world 600001) !! "447700900123" = Some 0%nat /\
  heap (aged_world 600001) !! 0%nat = Some (aged_session 600001) /\
  let l' := (@getSession steady_env "447700900123" (aged_world 600001)).1 in
  let w' := (@getSession steady_env "447700900123" (aged_world 600001)).2 in
  ((@SESSION_TTL_MS steady_env) < 600001 ->
     exists s', heap w' !! l' = Some s' /\ session_of w' "447700900123" = Some s' /\
                selfie s' = None /\ clothing s' = None /\ inProgress s' = false /\
                l' <> 0%nat) /\
  (600001 <= (@SESSION_TTL_MS steady_env) ->
     l' = 0%nat /\ heap w' !! l' = Some (aged_session 600001) /\
     heap w' = heap (aged_world 600001) /\
     userSessions w' = userSessions (aged_world 600001)).
Proof.
  split; [reflexivity|]. split; [reflexivity|].
  apply (@getSession_expiry steady_env "447700900123" (aged_world 600001) 0%nat
           (aged_session 600001)); reflexivity.
Defined.

Section FetcherFacts.
Context `{Env}.

Lemma download_too_large (p : Probe) (res : GetResp) (buf : list Byte.byte) :
  IMAGE_MAX_BYTES < resolved_length p buf ->
  download_finish p res buf =
  Throw {| e_code := Some "TOO_LARGE";
           e_size := Some (resolved_length p buf);
           e_contentType := None |}.
Proof.
  intros Hlen. unfold download_finish.
  assert ((resolved_length p buf >? IMAGE_MAX_BYTES) = true) as -> by lia.
  reflexivity.
Qed.

(** Whatever the three calls produce, a success went through
    [download_finish]. *)
Lemma download_ok_inv (h : option HeadResp) (get : Exc GetResp)
    (body : Exc (list Byte.byte)) (img : Download) :
  downloadImageAsBase64IfSupported h get body = Ok img ->
  exists res buf, get = Ok res /\ body = Ok buf /\
                  download_finish (probe h) res buf = Ok img.
Proof.
  unfold downloadImageAsBase64IfSupported.
  destruct (download_after_head _); [|discriminate].
  destruct get as [res|]; [|discriminate].
  destruct (download_after_get _); [|discriminate].
  destruct body as [buf|]; [|discriminate].
  eauto.
Qed.

Lemma tip_too_large (n : Z) :
  tip_for {| e_code := Some "TOO_LARGE"; e_size := Some n; e_contentType := None |} =
  "That image is too large. Please send a smaller PNG/JPEG (<= "
    +:+ string_of_Z IMAGE_MAX_BYTES +:+ " bytes).".
Proof. reflexivity. Qed.

End FetcherFacts.

(** C5.  Once the payload length is resolved (the probe's content-length
    when it has one, else the number of bytes read) and exceeds the
    maximum, the fetch fails with [TOO_LARGE] carrying that length,
    whatever the content types of the probe and of the response are: the
    size check precedes the type check.  The fetch then never succeeds,
    whatever the retrieval returns, and neither does any fetch whose
    probed content-length exceeds the maximum; the turn that meets the
    failure goes on to send the tip with the store untouched. *)
Theorem too_large_never_stored `{Env}
    (h : option HeadResp) (res : GetResp) (buf : list Byte.byte) :
  IMAGE_MAX_BYTES < resolved_length (probe h) buf ->
  download_finish (probe h) res buf =
    Throw {| e_code := Some "TOO_LARGE";
             e_size := Some (resolved_length (probe h) buf);
             e_contentType := None |} /\
  (forall get img, downloadImageAsBase64IfSupported h get (Ok buf) <> Ok img) /\
  (forall h' get body img,
     IMAGE_MAX_BYTES < headLen (probe h') ->
     downloadImageAsBase64IfSupported h' get body <> Ok img) /\
  (forall c imageType w,
     resume (AwaitBuffer c imageType (probe h) res) (RespBuffer buf) w =
     (AwaitTip c ("That image is too large. Please send a smaller PNG/JPEG (<= "
                    +:+ string_of_Z IMAGE_MAX_BYTES +:+ " bytes)."), w)).
Proof.
  intros Hlen. split; [by apply download_too_large|]. split; [|split].
  - intros get img Hok.
    apply download_ok_inv in Hok as (res' & buf' & -> & [= <-] & Hfin).
    by rewrite download_too_large in Hfin.
  - intros h' get body img Hp Hok.
    apply download_ok_inv in Hok as (res' & buf' & -> & -> & Hfin).
    rewrite download_too_large in Hfin; [discriminate|].
    unfold resolved_length.
    destruct (Z.eqb_spec (headLen (probe h')) 0) as [Hz|]; [|done].
    rewrite Hz in Hp. lia.
  - intros c imageType w. simpl.
    rewrite download_too_large by done.
    unfold download_failed. by rewrite tip_too_large.
Qed.

Lemma too_large_never_stored_witness :
  (@IMAGE_MAX_BYTES steady_env) <
    resolved_length (probe (Some {| head_status := 200;
                                    head_content_type := Some "image/png";
                                    head_content_length := Some 13000000 |})) [] /\
  @download_finish steady_env (big_probe "image/png") plain_get [] =
    Throw {| e_code := Some "TOO_LARGE"; e_size := Some 13000000; e_contentType := None |}.
Proof.
  split; [reflexivity|].
  apply (@too_large_never_stored steady_env
           (Some {| head_status := 200;
                    head_content_type := Some "image/png";
                    head_content_length := Some 13000000 |}) plain_get []).
  reflexivity.
Defined.

(** C9.  A payload that passes the size check is accepted exactly when
    its content type (the probe's, else the response's, in lower case)
    names PNG or JPEG, and is returned with the mime type normalised to
    [image/png] or [image/jpeg]; any other type fails with
    [UNSUPPORTED_WEBP] for webp, [UNSUPPORTED_HEIC] for heic or heif and
    [UNSUPPORTED_TYPE] otherwise, the error carrying the type. *)
Theorem only_png_and_jpeg_accepted `{Env} (p : Probe) (res : GetResp) (buf : list Byte.byte) :
  resolved_length p buf <= IMAGE_MAX_BYTES ->
  let ct := resolved_type p res in
  download_finish p res buf =
    if includes ct "image/png" then
      Ok {| img_base64 := to_base64 buf; img_mime := "image/png";
            img_size := resolved_length p buf; img_contentType := ct |}
    else if includes ct "image/jpeg" || includes ct "image/jpg" then
      Ok {| img_base64 := to_base64 buf; img_mime := "image/jpeg";
            img_size := resolved_length p buf; img_contentType := ct |}
    else if includes ct "image/webp" then
      Throw {| e_code := Some "UNSUPPORTED_WEBP"; e_size := None; e_contentType := Some ct |}
    else if includes ct "image/heic" || includes ct "image/heif" then
      Throw {| e_code := Some "UNSUPPORTED_HEIC"; e_size := None; e_contentType := Some ct |}
    else
      Throw {| e_code := Some "UNSUPPORTED_TYPE"; e_size := None; e_contentType := Some ct |}.
Proof.
  intros Hlen ct. unfold download_finish. fold ct.
  assert ((resolved_length p buf >? IMAGE_MAX_BYTES) = false) as -> by lia.
  destruct (includes ct "image/png"); simpl; [reflexivity|].
  destruct (includes ct "image/jpeg" || includes ct "image/jpg"); simpl; [reflexivity|].
  destruct (includes ct "image/webp"); [reflexivity|].
  destruct (includes ct "image/heic" || includes ct "image/heif"); reflexivity.
Qed.

Lemma only_png_and_jpeg_accepted_witness :
  resolved_length (small_probe "image/webp") [] <= (@IMAGE_MAX_BYTES steady_env) /\
  @download_finish steady_env (small_probe "image/webp") plain_get [] =
    Throw {| e_code := Some "UNSUPPORTED_WEBP"; e_size := None;
             e_contentType := Some "image/webp" |}.
Proof.
  split; [discriminate|].
  exact (@only_png_and_jpeg_accepted steady_env (small_probe "image/webp") plain_get []
           ltac:(discriminate)).
Defined.

Section SessionFacts.
Context `{Env}.

Lemma well_formed_initial : well_formed initial_world.
Proof. intros u l Hl. simpl in Hl. by rewrite lookup_empty in Hl. Qed.

Lemma well_formed_tick (w : World) : well_formed w -> well_formed (tick w).
Proof. done. Qed.

Lemma well_formed_assign_entry (u : string) (s : Session) (w : World) :
  well_formed w -> well_formed (assign_entry u s w).2.
Proof.
  intros Hw v l. unfold assign_entry; simpl.
  rewrite length_app; simpl.
  destruct (decide (u = v)) as [->|Hne].
  - rewrite lookup_insert_eq. intros [= <-]. lia.
  - rewrite lookup_insert_ne by done. intros Hl. apply Hw in Hl. lia.
Qed.

Lemma well_formed_write (l : nat) (f : Session -> Session) (w : World) :
  well_formed w -> well_formed (write l f w).2.
Proof.
  intros Hw v k. unfold write; simpl. rewrite length_alter. apply Hw.
Qed.

Lemma well_formed_getSession (u : string) (w : World) :
  well_formed w -> well_formed (getSession u w).2.
Proof.
  intros Hw. rewrite getSession_unfold.
  destruct (userSessions w !! u); [destruct (_ >? _)|];
    auto using well_formed_assign_entry, well_formed_tick.
Qed.

(** What [getSession] returns is the object now in the table: the one
    that was there, or a new one. *)
Lemma getSession_entry (u : string) (w : World) :
  well_formed w ->
  exists o,
    userSessions (getSession u w).2 !! u = Some (getSession u w).1 /\
    heap (getSession u w).2 !! (getSession u w).1 = Some o /\
    (session_of w u = Some o \/ exists t, o = new_session t).
Proof.
  intros Hw. rewrite getSession_unfold.
  destruct (userSessions w !! u) as [l|] eqn:Hl; [destruct (_ >? _)|].
  - eexists. simpl. rewrite lookup_insert_eq.
    rewrite lookup_app_r by (unfold tick; simpl; lia).
    unfold tick; simpl. rewrite Nat.sub_diag. eauto.
  - destruct (lookup_lt_is_Some_2 (heap w) l (Hw _ _ Hl)) as [o Ho].
    exists o. unfold tick, session_of; simpl. rewrite Hl; simpl. eauto.
  - eexists. simpl. rewrite lookup_insert_eq.
    rewrite lookup_app_r by (unfold tick; simpl; lia).
    unfold tick; simpl. rewrite Nat.sub_diag. eauto.
Qed.

Lemma updateSession_unfold (u : string) (patch : Patch) (w : World) :
  updateSession u patch w =
  let l := (getSession u w).1 in
  let w1 := (getSession u w).2 in
  let w2 := (write l (fun o => Object_assign o patch) w1).2 in
  write l (set_lastUpdated (Date_now (ticks w2))) (tick w2).
Proof.
  unfold updateSession, mbind, Sync_bind.
  destruct (getSession u w) as [l w1]; simpl.
  reflexivity.
Qed.

Lemma well_formed_updateSession (u : string) (patch : Patch) (w : World) :
  well_formed w -> well_formed (updateSession u patch w).2.
Proof.
  intros Hw. rewrite updateSession_unfold. cbv zeta.
  by apply well_formed_write, well_formed_tick, well_formed_write, well_formed_getSession.
Qed.

(** After [updateSession] the table holds the patched object, with a new
    time stamp; the object patched is the one that was in the table, or
    a new one. *)
Lemma updateSession_session (u : string) (patch : Patch) (w : World) :
  well_formed w ->
  exists o t,
    session_of (updateSession u patch w).2 u = Some (set_lastUpdated t (Object_assign o patch)) /\
    (session_of w u = Some o \/ exists t0, o = new_session t0).
Proof.
  intros Hw. destruct (getSession_entry u w Hw) as (o & Hentry & Hobj & Hfrom).
  exists o, (Date_now (ticks (getSession u w).2)). split; [|done].
  rewrite updateSession_unfold. unfold session_of, write, tick; simpl.
  rewrite Hentry; simpl.
  rewrite !list_lookup_alter_eq, Hobj. reflexivity.
Qed.

Lemma resetSession_unfold (u : string) (w : World) :
  resetSession u w = (tt, (assign_entry u (new_session (Date_now (ticks w))) (tick w)).2).
Proof. reflexivity. Qed.

Lemma well_formed_resetSession (u : string) (w : World) :
  well_formed w -> well_formed (resetSession u w).2.
Proof.
  intros Hw. rewrite resetSession_unfold.
  by apply well_formed_assign_entry, well_formed_tick.
Qed.

End SessionFacts.

Section HandlerFacts.
Context `{Env}.

Lemma store_media_unfold (c : Locals) (imageType : Slot) (img : Download) (w : World) :
  store_media c imageType img w =
  let w1 := if decide (imageType = Selfie)
            then (updateSession (userPhone c) (PatchSlot Clothing None) w).2 else w in
  updateSession (userPhone c)
    (PatchSlot imageType
       (Some {| data := img_base64 img; mime := img_mime img; ts := Date_now (ticks w1) |}))
    (tick w1).
Proof.
  unfold store_media, mbind, Sync_bind.
  destruct (decide (imageType = Selfie)); simpl.
  - by destruct (updateSession _ _ w) as [[] w1].
  - reflexivity.
Qed.

Lemma well_formed_store_media (c : Locals) (imageType : Slot) (img : Download) (w : World) :
  well_formed w -> well_formed (store_media c imageType img w).2.
Proof.
  intros Hw. rewrite store_media_unfold. cbv zeta.
  apply well_formed_updateSession, well_formed_tick.
  destruct (decide _); [by apply well_formed_updateSession|done].
Qed.

Lemma guidance_unfold (c : Locals) (w : World) :
  exists message, guidance c w = (AwaitGuidance c message, (getSession (userPhone c) w).2).
Proof.
  unfold guidance, mbind, Sync_bind.
  destruct (getSession _ w) as [l w1]; simpl. eauto.
Qed.

(** The ready check either takes the lock and calls the backend, or
    goes on to the guidance. *)
Lemma ready_check_cases (c : Locals) (w : World) :
  (exists sf cl o,
      heap w !! session c = Some o /\ selfie o = Some sf /\ clothing o = Some cl /\
      inProgress o = false /\
      ready_check c w =
      (AwaitStream c (build_request sf cl),
       (updateSession (userPhone c) (PatchInProgress true) w).2)) \/
  ((forall o, heap w !! session c = Some o ->
      selfie o = None \/ clothing o = None \/ inProgress o = true) /\
   ready_check c w = guidance c w).
Proof.
  unfold ready_check, mbind, Sync_bind, read; simpl.
  destruct (heap w !! session c) as [o|] eqn:Ho.
  - rewrite (list_lookup_total_correct _ _ _ Ho).
    destruct (selfie o) as [sf|] eqn:Hsf; [|right; split; [intros ? [= <-]; auto|done]].
    destruct (clothing o) as [cl|] eqn:Hcl; [|right; split; [intros ? [= <-]; auto|done]].
    destruct (inProgress o) eqn:Hp; [right; split; [intros ? [= <-]; auto|done]|].
    left. exists sf, cl, o. repeat split; try done.
    by destruct (updateSession _ _ w) as [[] w1].
  - right. split; [done|].
    rewrite list_lookup_total_alt, Ho; simpl. reflexivity.
Qed.

(** Nothing after the store puts an image into the session: if the
    user's session holds no clothing, the ready check leaves it so. *)
Lemma ready_check_keeps_no_clothing (c : Locals) (w : World) :
  well_formed w ->
  (exists s, session_of w (userPhone c) = Some s /\ clothing s = None) ->
  exists s', session_of (ready_check c w).2 (userPhone c) = Some s' /\ clothing s' = None.
Proof.
  intros Hw (s & Hs & Hcl).
  destruct (ready_check_cases c w) as [(sf & cl & o & _ & _ & _ & _ & ->)|[_ ->]]; simpl.
  - destruct (updateSession_session (userPhone c) (PatchInProgress true) w Hw)
      as (o' & t & Hs' & Hfrom).
    eexists. split; [exact Hs'|]. simpl.
    destruct Hfrom as [?|[t0 ->]]; [congruence|reflexivity].
  - destruct (guidance_unfold c w) as [m ->]; simpl.
    destruct (getSession_entry (userPhone c) w Hw) as (o' & He & Ho' & Hfrom).
    exists o'. split.
    + unfold session_of. rewrite He; simpl. exact Ho'.
    + destruct Hfrom as [?|[t ->]]; [congruence|reflexivity].
Qed.

End HandlerFacts.

(** C1.  Storing a selfie first clears the clothing of the user's
    session and then stores the selfie, in one synchronous stretch:
    after the first update the session holds no clothing, the second
    update is the store of the new selfie, and after it the session
    holds the new selfie and no clothing.  The session still holds no
    clothing when the segment of the turn that stored the selfie ends. *)
Theorem new_selfie_clears_clothing `{Env} (c : Locals) (img : Download) (w : World) :
  well_formed w ->
  let user := userPhone c in
  let cleared := (updateSession user (PatchSlot Clothing None) w).2 in
  let asset := {| data := img_base64 img; mime := img_mime img;
                  ts := Date_now (ticks cleared) |} in
  let stored := (store_media c Selfie img w).2 in
  (exists s1, session_of cleared user = Some s1 /\ clothing s1 = None) /\
  stored = (updateSession user (PatchSlot Selfie (Some asset)) (tick cleared)).2 /\
  (exists s2, session_of stored user = Some s2 /\
              selfie s2 = Some asset /\ clothing s2 = None) /\
  (forall p res buf,
     download_finish p res buf = Ok img ->
     exists s3,
       session_of (resume (AwaitBuffer c Selfie p res) (RespBuffer buf) w).2 user = Some s3 /\
       clothing s3 = None).
Proof.
  intros Hw user cleared asset stored.
  assert (exists s1, session_of cleared user = Some s1 /\ clothing s1 = None) as Hcleared.
  { destruct (updateSession_session user (PatchSlot Clothing None) w Hw)
      as (o & t & Hs & _).
    eexists. split; [exact Hs|reflexivity]. }
  assert (stored = (updateSession user (PatchSlot Selfie (Some asset)) (tick cleared)).2)
    as Hstored.
  { subst stored. rewrite store_media_unfold. reflexivity. }
  assert (exists s2, session_of stored user = Some s2 /\
                     selfie s2 = Some asset /\ clothing s2 = None) as Hfinal.
  { rewrite Hstored.
    assert (well_formed (tick cleared)) as Hw1
      by (by apply well_formed_tick, well_formed_updateSession).
    destruct (updateSession_session user (PatchSlot Selfie (Some asset)) _ Hw1)
      as (o & t & Hs & Hfrom).
    eexists. split; [exact Hs|]. split; [reflexivity|]. simpl.
    destruct Hfrom as [Ho|[t0 ->]]; [|reflexivity].
    destruct Hcleared as (s1 & Hs1 & Hc1).
    unfold session_of, tick in Ho; simpl in Ho.
    unfold session_of in Hs1. congruence. }
  repeat split; try done.
  intros p res buf Hdl. simpl. rewrite Hdl.
  unfold mbind, Sync_bind.
  destruct Hfinal as (s2 & Hs2 & _ & Hc2).
  pose proof (well_formed_store_media c Selfie img w Hw) as Hw2.
  subst stored.
  destruct (store_media c Selfie img w) as [[] w2].
  apply ready_check_keeps_no_clothing; eauto.
Qed.

Lemma new_selfie_clears_clothing_witness :
  well_formed (aged_world 1000) /\
  exists s2,
    session_of (@store_media steady_env (example_locals 0)
                  Selfie
                  {| img_base64 := "ZmFjZQ=="; img_mime := "image/jpeg";
                     img_size := 2048; img_contentType := "image/jpeg" |}
                  (aged_world 1000)).2 "447700900123" = Some s2 /\
    is_Some (selfie s2) /\ clothing s2 = None.
Proof.
  assert (well_formed (aged_world 1000)) as Hw.
  { intros u l Hl. unfold aged_world in Hl; simpl in Hl.
    apply lookup_singleton_Some in Hl as [_ <-]. simpl. lia. }
  split; [exact Hw|].
  destruct (@new_selfie_clears_clothing steady_env (example_locals 0)
              {| img_base64 := "ZmFjZQ=="; img_mime := "image/jpeg";
                 img_size := 2048; img_contentType := "image/jpeg" |}
              (aged_world 1000) Hw) as (_ & _ & (s2 & Hs2 & Hsel & Hcl) & _).
  exists s2. split; [exact Hs2|]. split; [by rewrite Hsel|exact Hcl].
Defined.

Section GenerationFacts.
Context `{Env}.

Lemma set_inProgress_new_session (t : Z) : set_inProgress false (new_session t) = new_session t.
Proof. reflexivity. Qed.

(** The end of a generation: the table holds a new, empty session. *)
Lemma finish_generation_resets (c : Locals) (w : World) :
  exists t w',
    finish_generation c w = (Finished 200, w') /\
    session_of w' (userPhone c) = Some (new_session t).
Proof.
  unfold finish_generation, mbind, Sync_bind.
  rewrite resetSession_unfold.
  set (w1 := (assign_entry _ _ (tick w)).2).
  assert (userSessions w1 !! userPhone c = Some (List.length (heap w))) as Hentry
    by (subst w1; simpl; by rewrite lookup_insert_eq).
  assert (heap w1 !! List.length (heap w) = Some (new_session (Date_now (ticks w)))) as Hobj.
  { subst w1; simpl. rewrite lookup_app_r by (unfold tick; simpl; lia).
    unfold tick; simpl. by rewrite Nat.sub_diag. }
  rewrite getSession_unfold, Hentry.
  destruct (_ >? _).
  - eexists _, _. split; [reflexivity|].
    unfold session_of, write, assign_entry; simpl.
    rewrite lookup_insert_eq; simpl.
    rewrite list_lookup_alter_eq.
    rewrite lookup_app_r by lia. rewrite Nat.sub_diag. reflexivity.
  - eexists _, _. split; [reflexivity|].
    unfold session_of, write, tick; simpl.
    rewrite lookup_insert_eq; simpl.
    rewrite list_lookup_alter_eq.
    rewrite lookup_app_r by lia. rewrite Nat.sub_diag. reflexivity.
Qed.

Lemma finish_generation_turn (c : Locals) (w : World) :
  finish_generation c w = (Finished 200, (finish_generation c w).2).
Proof. by destruct (finish_generation_resets c w) as (t & w' & -> & _). Qed.

Lemma after_generation_cases (c : Locals) (ip : option JsVal) (tr : string) (w : World) :
  after_generation c ip tr w = (AwaitApology c, w) \/
  exists v outFile, ip = Some v /\ truthy (get_prop v "data") = true /\
                    after_generation c ip tr w = (AwaitMkdir c v tr outFile, tick w).
Proof.
  unfold after_generation. destruct ip as [v|]; [|by left].
  destruct (truthy _) eqn:Hd; [|by left].
  right. eexists _, _. split; [done|]. split; [done|]. reflexivity.
Qed.

(** One settlement inside the generation branch: the turn stays in the
    branch, closer to its end and without touching a session, or it
    ends with the reset and the unlock. *)
Lemma generation_step (t : Turn) (c : Locals) (r : ExtResult) (w : World) :
  in_generation t = true -> turn_locals t = Some c ->
  (in_generation (resume t r w).1 = true /\ turn_locals (resume t r w).1 = Some c /\
   (remaining (resume t r w).1 < remaining t)%nat /\
   heap (resume t r w).2 = heap w /\ userSessions (resume t r w).2 = userSessions w) \/
  resume t r w = (Finished 200, (finish_generation c w).2).
Proof.
  intros Hgen Hc.
  destruct t; try discriminate; simpl in Hc; injection Hc as ->;
    cbv beta iota zeta delta [resume].
  - (* the stream *)
    destruct (as_stream r) as [events|e].
    + destruct (imagePart (collectFromStream events)) as [ip|].
      * destruct (after_generation_cases c (Some ip) (collected_text (collectFromStream events)) w)
          as [->|(v & f & _ & _ & ->)]; left; simpl; repeat split; lia.
      * left; simpl; repeat split; lia.
    + destruct (after_generation_cases c None "" w)
        as [->|(v & f & _ & _ & ->)]; left; simpl; repeat split; lia.
  - (* the fallback call *)
    destruct (as_full r) as [full|e].
    + destruct (after_generation_cases c (findInlineData full) (textResponse +:+ text_of full) w)
        as [->|(v & f & _ & _ & ->)]; left; simpl; repeat split; lia.
    + destruct (after_generation_cases c None textResponse w)
        as [->|(v & f & _ & _ & ->)]; left; simpl; repeat split; lia.
  - destruct (rejected r); left; simpl; repeat split; lia.
  - left; simpl; repeat split; lia.
  - destruct (rejected r); [left; simpl; repeat split; lia|].
    right. apply finish_generation_turn.
  - destruct (rejected r); [left; simpl; repeat split; lia|].
    right. apply finish_generation_turn.
  - right. apply finish_generation_turn.
  - right. apply finish_generation_turn.
Qed.

Lemma in_generation_pending (t : Turn) :
  in_generation t = true -> exists call, pending t = Some call.
Proof. destruct t; try discriminate; simpl; eauto. Qed.

(** Given an outcome for each of its calls, whatever the outcomes are,
    a turn in the generation branch runs to its end, and ends with the
    reset and the unlock. *)
Lemma run_generation (rs : list ExtResult) :
  forall (t : Turn) (c : Locals) (w : World),
    in_generation t = true -> turn_locals t = Some c ->
    (remaining t <= List.length rs)%nat ->
    exists calls w0,
      (run t rs w).1.2 = Finished 200 /\
      (run t rs w).1.1 = calls /\
      (run t rs w).2 = (finish_generation c w0).2.
Proof.
  induction rs as [|r rs IH]; intros t c w Hgen Hc Hlen.
  - destruct t; try discriminate; simpl in Hlen; lia.
  - destruct (in_generation_pending t Hgen) as [call Hcall].
    simpl. rewrite Hcall.
    destruct (generation_step t c r w Hgen Hc) as [(Hgen' & Hc' & Hlt & _)|Hfin].
    + destruct (resume t r w) as [t' w'] eqn:Hres; simpl in *.
      destruct (IH t' c w' Hgen' Hc' ltac:(lia)) as (calls & w0 & Ht & Hcalls & Hw).
      destruct (run t' rs w') as [[calls' t''] w'']; simpl in *.
      eauto.
    + rewrite Hfin. destruct rs; simpl; eauto.
Qed.

End GenerationFacts.

(** ** Every turn ends *)

Section Termination.
Context `{Env}.

Lemma ready_check_remaining (c : Locals) (w : World) :
  (remaining (ready_check c w).1 <= 7)%nat.
Proof.
  destruct (ready_check_cases c w) as [(sf & cl & o & _ & _ & _ & _ & ->)|[_ ->]].
  - simpl. lia.
  - destruct (guidance_unfold c w) as [m ->]. simpl. lia.
Qed.

(** Each settlement brings a turn closer to its end. *)
Lemma resume_decreases (t : Turn) (r : ExtResult) (w : World) :
  pending t <> None -> (remaining (resume t r w).1 < remaining t)%nat.
Proof.
  intros Hpending.
  destruct (in_generation t) eqn:Hgen.
  { assert (exists c, turn_locals t = Some c) as [c Hc] by (destruct t; try done; simpl; eauto).
    destruct (generation_step t c r w Hgen Hc) as [(_ & _ & Hlt & _)|Hfin]; [done|].
    rewrite Hfin. destruct t; try done; simpl; lia. }
  destruct t; try discriminate; try done; cbv beta iota zeta delta [resume].
  - destruct (download_after_head _); simpl; lia.
  - destruct (as_get r) as [res|]; [destruct (download_after_get res)|]; simpl; lia.
  - destruct (as_buffer r) as [buf|]; [destruct (download_finish p res buf) as [img|]|];
      try (simpl; lia).
    unfold mbind, Sync_bind.
    destruct (store_media c imageType img w) as [[] w1].
    pose proof (ready_check_remaining c w1). simpl. lia.
  - pose proof (ready_check_remaining c w). simpl. lia.
  - simpl. lia.
Qed.

(** Given an outcome for each of its calls, a turn runs to its end. *)
Lemma run_finishes (rs : list ExtResult) :
  forall (t : Turn) (w : World),
    (remaining t <= List.length rs)%nat ->
    exists status, (run t rs w).1.2 = Finished status.
Proof.
  induction rs as [|r rs IH]; intros t w Hlen.
  - destruct t; simpl in Hlen; try lia. simpl. eauto.
  - destruct (pending t) as [call|] eqn:Hcall.
    + simpl. rewrite Hcall.
      pose proof (resume_decreases t r w ltac:(congruence)) as Hlt.
      destruct (resume t r w) as [t' w']; simpl in *.
      destruct (IH t' w' ltac:(lia)) as [status Hst].
      destruct (run t' rs w') as [[calls t''] w'']; simpl in *. eauto.
    + destruct t; try discriminate. simpl. eauto.
Qed.

End Termination.

(** C6.  A turn in the generation branch, given an outcome for each of
    its calls, ends with status 200 and with the user's session replaced
    by a new, empty one (no selfie, no clothing, not in progress),
    whether an image was produced or not and whatever the sends
    returned.  Each settlement, in whatever state the store is by then,
    either keeps the turn in the branch, closer to its end and without
    touching a session, or ends it with that reset.  A failure of the
    streaming call or of the fallback call leads to the apology message,
    after which the turn ends with status 200. *)
Theorem generation_always_resets `{Env} (t : Turn) (c : Locals) :
  in_generation t = true ->
  turn_locals t = Some c ->
  (forall rs w,
     (remaining t <= List.length rs)%nat ->
     exists stamp,
       (run t rs w).1.2 = Finished 200 /\
       session_of (run t rs w).2 (userPhone c) = Some (new_session stamp)) /\
  (forall r w,
     (in_generation (resume t r w).1 = true /\ turn_locals (resume t r w).1 = Some c /\
      (remaining (resume t r w).1 < remaining t)%nat /\
      heap (resume t r w).2 = heap w /\ userSessions (resume t r w).2 = userSessions w) \/
     (exists stamp,
        (resume t r w).1 = Finished 200 /\
        session_of (resume t r w).2 (userPhone c) = Some (new_session stamp))) /\
  (forall req e w, resume (AwaitStream c req) (Rejected e) w = (AwaitApology c, w)) /\
  (forall req textResponse e w,
     resume (AwaitFull c req textResponse) (Rejected e) w = (AwaitApology c, w)) /\
  pending (AwaitApology c) = Some (Send (PlainText (userPhone c) RCS_SENDER_ID apology)) /\
  (forall r w, (resume (AwaitApology c) r w).1 = Finished 200).
Proof.
  intros Hgen Hc. repeat split.
  - intros rs w Hlen.
    destruct (run_generation rs t c w Hgen Hc Hlen) as (calls & w0 & Ht & _ & Hw).
    destruct (finish_generation_resets c w0) as (stamp & w' & Hfin & Hs).
    exists stamp. split; [exact Ht|].
    rewrite Hw, Hfin. exact Hs.
  - intros r w.
    destruct (generation_step t c r w Hgen Hc) as [Hstay|Hfin]; [by left|right].
    destruct (finish_generation_resets c w) as (stamp & w' & Hfin' & Hs).
    exists stamp. rewrite Hfin, Hfin'. done.
  - intros r w. simpl. by rewrite finish_generation_turn.
Qed.

Lemma generation_always_resets_witness :
  in_generation (AwaitApology (example_locals 0)) = true /\
  turn_locals (AwaitApology (example_locals 0)) = Some (example_locals 0) /\
  exists stamp,
    (@run steady_env (AwaitApology (example_locals 0)) [Rejected plain_error]
       (aged_world 1000)).1.2 = Finished 200 /\
    session_of (@run steady_env (AwaitApology (example_locals 0)) [Rejected plain_error]
                  (aged_world 1000)).2 "447700900123" = Some (new_session stamp).
Proof.
  split; [reflexivity|]. split; [reflexivity|].
  apply (proj1 (@generation_always_resets steady_env (AwaitApology (example_locals 0))
                  (example_locals 0) eq_refl eq_refl)).
  simpl. lia.
Defined.


(** C10.  A turn that has entered the generation branch, given an
    outcome for each of its calls, failures included, ends with the
    user's session not in progress.  In the interleaved system, each
    settlement of such a turn either keeps it in the branch or ends it
    with the user's session not in progress.  The end of the branch is
    the reset followed by the unlock of the session then in the table. *)
Theorem lock_released_at_end `{Env} (t : Turn) (c : Locals) :
  in_generation t = true ->
  turn_locals t = Some c ->
  (forall rs w,
     (remaining t <= List.length rs)%nat ->
     (run t rs w).1.2 = Finished 200 /\
     exists o, session_of (run t rs w).2 (userPhone c) = Some o /\ inProgress o = false) /\
  (forall s i r,
     turns s !! i = Some t ->
     exists t',
       turns (sys_step s (Settle i r)) !! i = Some t' /\
       (in_generation t' = true \/
        (t' = Finished 200 /\
         exists o, session_of (world (sys_step s (Settle i r))) (userPhone c) = Some o /\
                   inProgress o = false))) /\
  (forall w,
     finish_generation c w =
     let w1 := (resetSession (userPhone c) w).2 in
     let l := (getSession (userPhone c) w1).1 in
     let w2 := (getSession (userPhone c) w1).2 in
     (Finished 200, (write l (set_inProgress false) w2).2)).
Proof.
  intros Hgen Hc. split; [intros rs w Hlen; split|split].
  - destruct (run_generation rs t c w Hgen Hc Hlen) as (calls & w0 & Ht & _ & Hw).
    exact Ht.
  - destruct (run_generation rs t c w Hgen Hc Hlen) as (calls & w0 & _ & _ & Hw).
    destruct (finish_generation_resets c w0) as (stamp & w' & Hfin & Hs).
    exists (new_session stamp). rewrite Hw, Hfin. done.
  - intros s i r Hi. unfold sys_step. rewrite Hi.
    pose proof (lookup_lt_Some _ _ _ Hi) as Hlt.
    destruct (generation_step t c r (world s) Hgen Hc) as [(Hgen' & _)|Hfin].
    + destruct (resume t r (world s)) as [t' w']; simpl in *.
      exists t'. rewrite list_lookup_insert_eq by done. auto.
    + rewrite Hfin; simpl.
      exists (Finished 200). rewrite list_lookup_insert_eq by done.
      split; [done|right; split; [done|]].
      destruct (finish_generation_resets c (world s)) as (stamp & w' & Hfin' & Hs).
      exists (new_session stamp). rewrite Hfin'. done.
  - intros w. unfold finish_generation, mbind, Sync_bind.
    rewrite resetSession_unfold. simpl.
    destruct (getSession _ _) as [l w2]. reflexivity.
Qed.

Lemma lock_released_at_end_witness :
  in_generation (AwaitLink (example_locals 0) "https://tryon.example/photos/a.png") = true /\
  turn_locals (AwaitLink (example_locals 0) "https://tryon.example/photos/a.png")
    = Some (example_locals 0) /\
  exists o,
    session_of (@run steady_env
                  (AwaitLink (example_locals 0) "https://tryon.example/photos/a.png")
                  [Rejected plain_error] (aged_world 1000)).2 "447700900123" = Some o /\
    inProgress o = false.
Proof.
  split; [reflexivity|]. split; [reflexivity|].
  apply (proj1 (@lock_released_at_end steady_env
                  (AwaitLink (example_locals 0) "https://tryon.example/photos/a.png")
                  (example_locals 0) eq_refl eq_refl)).
  simpl. lia.
Defined.

(** ** The search for the image *)

(** Induction on a value, with the hypothesis for every element of an
    array and every field of an object. *)
Lemma JsVal_nested_ind (P : JsVal -> Prop) :
  P JUndefined -> P JNull -> (forall b, P (JBool b)) -> (forall n, P (JNum n)) ->
  (forall s, P (JStr s)) ->
  (forall items, Forall P items -> P (JArr items)) ->
  (forall fields, Forall (fun kv => P kv.2) fields -> P (JObj fields)) ->
  forall v, P v.
Proof.
  intros HU HN HB HZ HS HA HO.
  fix IH 1.
  intros [| |b|n|s|items|fields];
    [exact HU|exact HN|apply HB|apply HZ|apply HS| |].
  - apply HA. induction items as [|it items IHitems]; constructor; [apply IH|exact IHitems].
  - apply HO. induction fields as [|[k v] fields IHfields]; constructor;
      [apply IH|exact IHfields].
Qed.

(** What the search returns has truthy data. *)
Lemma findInlineData_has_data (v ip : JsVal) :
  findInlineData v = Some ip -> truthy (get_prop ip "data") = true.
Proof.
  revert ip. induction v as [| | | | |items IH|fields IH] using JsVal_nested_ind;
    intros ip; try discriminate.
  - simpl.
    assert (forall l, Forall (fun v => forall ip, findInlineData v = Some ip ->
                                         truthy (get_prop ip "data") = true) l ->
            forall ip,
              (fix in_items (l : list JsVal) : option JsVal :=
                 match l with
                 | [] => None
                 | it :: l' =>
                     match findInlineData it with
                     | Some f => Some f
                     | None => in_items l'
                     end
                 end) l = Some ip -> truthy (get_prop ip "data") = true) as Hitems.
    { clear. intros l Hl. induction Hl as [|it l Hit _ IHl]; intros ip; [discriminate|].
      destruct (findInlineData it) as [f|] eqn:Hf; [|apply IHl].
      intros [= <-]. by apply Hit. }
    destruct (_ items) as [f|] eqn:Hfound.
    + intros [= <-]. by apply (Hitems items IH).
    + intros Hip. rewrite Hip in Hfound. discriminate.
  - cbn [findInlineData].
    destruct (truthy (get_prop (get_prop (JObj fields) "inlineData") "data")) eqn:Hd1;
      [by intros [= <-]|].
    destruct (truthy (get_prop (get_prop (JObj fields) "inline_data") "data")) eqn:Hd2;
      [by intros [= <-]|].
    clear Hd1 Hd2.
    induction IH as [|[k v] fields Hv _ IHfields]; [discriminate|].
    destruct (findInlineData v) as [f|] eqn:Hf.
    + intros [= <-]. by apply Hv.
    + apply IHfields.
Qed.

Lemma collect_loop_image (events : list JsVal) (acc : Collected) :
  imagePart (collect_loop events acc) =
  match imagePart acc with
  | Some ip => Some ip
  | None => list_find (fun ev => is_Some (findInlineData ev)) events
              ≫= (fun found => findInlineData found.2)
  end.
Proof.
  revert acc. induction events as [|ev events IH]; intros acc; simpl.
  - by destruct (imagePart acc).
  - rewrite IH; simpl.
    destruct (imagePart acc) as [ip|]; [by destruct (findInlineData ev)|].
    destruct (findInlineData ev) as [m|] eqn:Hev.
    + rewrite decide_True by eauto. simpl. done.
    + rewrite decide_False by (by intros [? ?]).
      destruct (list_find _ events) as [[i found]|]; reflexivity.
Qed.

(** The stream yields no image exactly when no event carries one. *)
Lemma collect_none_iff (events : list JsVal) :
  imagePart (collectFromStream events) = None <->
  Forall (fun ev => findInlineData ev = None) events.
Proof.
  unfold collectFromStream. rewrite collect_loop_image; simpl.
  induction events as [|ev events IH]; simpl.
  - split; [constructor|done].
  - destruct (findInlineData ev) as [m|] eqn:Hev.
    + rewrite decide_True by eauto. simpl. rewrite Hev.
      split; [discriminate|]. intros Hall. inversion Hall; congruence.
    + rewrite decide_False by (by intros [? ?]).
      destruct (list_find _ events) as [[i found]|] eqn:Hfind; simpl in *.
      * split; [intros Hnone|intros Hall; inversion Hall; subst; by apply IH].
        constructor; [done|by apply IH].
      * split; [intros _|done]. constructor; [done|by apply IH].
Qed.

Section FallbackFacts.
Context `{Env}.

Lemma resume_after_backend (t : Turn) (r : ExtResult) (w : World) :
  after_backend t = true ->
  after_backend (resume t r w).1 = true \/ (resume t r w).1 = Finished 200.
Proof.
  destruct t; try discriminate; intros _; cbv beta iota zeta delta [resume].
  - destruct (rejected r); by left.
  - by left.
  - destruct (rejected r); [by left|right; by rewrite finish_generation_turn].
  - destruct (rejected r); [by left|right; by rewrite finish_generation_turn].
  - right; by rewrite finish_generation_turn.
  - right; by rewrite finish_generation_turn.
Qed.

Lemma after_backend_pending (t : Turn) :
  after_backend t = true ->
  exists call, pending t = Some call /\ full_calls [call] = [].
Proof. destruct t; try discriminate; intros _; simpl; eauto. Qed.

(** Past the backend calls, a turn calls the backend no more. *)
Lemma run_after_backend (rs : list ExtResult) :
  forall (t : Turn) (w : World),
    after_backend t = true \/ t = Finished 200 ->
    full_calls (run t rs w).1.1 = [].
Proof.
  induction rs as [|r rs IH]; intros t w [Ht| ->]; try (by destruct rs).
  - destruct (after_backend_pending t Ht) as (call & Hcall & Hnone).
    simpl. by rewrite Hcall.
  - reflexivity.
  - destruct (after_backend_pending t Ht) as (call & Hcall & Hnone).
    simpl. rewrite Hcall.
    pose proof (resume_after_backend t r w Ht) as Hnext.
    destruct (resume t r w) as [t' w']; simpl in Hnext.
    specialize (IH t' w' Hnext).
    destruct (run t' rs w') as [[calls t''] w'']; simpl in *.
    unfold full_calls in *; simpl in *.
    destruct call; try done.
Qed.

Lemma after_generation_after_backend (c : Locals) (ip : option JsVal) (tr : string) (w : World) :
  after_backend (after_generation c ip tr w).1 = true.
Proof.
  by destruct (after_generation_cases c ip tr w) as [->|(v & f & _ & _ & ->)].
Qed.

End FallbackFacts.

(** C4.  When the stream ends without an image in any of its events, the
    turn issues the non-streaming call, once over the whole turn and
    with the request of the streaming call; what that call returns is
    searched with the same [findInlineData], and the turn goes to the
    apology exactly when this search finds nothing, and to the delivery
    of the image found otherwise.  When an event of the stream carries
    an image, the turn never issues the non-streaming call. *)
Theorem fallback_called_once `{Env}
    (c : Locals) (req : GenRequest) (events : list JsVal) (rs : list ExtResult) (w : World) :
  let calls := (run (AwaitStream c req) (RespStream events :: rs) w).1.1 in
  hd_error calls = Some (GenerateContentStream req) /\
  (Forall (fun ev => findInlineData ev = None) events -> full_calls calls = [req]) /\
  (Exists (fun ev => is_Some (findInlineData ev)) events -> full_calls calls = []) /\
  (forall textResponse full w0,
     resume (AwaitFull c req textResponse) (RespFull full) w0 =
       after_generation c (findInlineData full) (textResponse +:+ text_of full) w0 /\
     ((resume (AwaitFull c req textResponse) (RespFull full) w0).1 = AwaitApology c <->
      findInlineData full = None) /\
     (forall ip, findInlineData full = Some ip ->
        exists outFile,
          (resume (AwaitFull c req textResponse) (RespFull full) w0).1 =
          AwaitMkdir c ip (textResponse +:+ text_of full) outFile)).
Proof.
  intros calls. subst calls.
  cbn [run pending]. cbv beta iota zeta delta [resume as_stream].
  split; [|split; [|split]].
  - destruct (imagePart (collectFromStream events));
      [destruct (after_generation _ _ _ w)|]; cbn [mret Sync_ret];
      by destruct (run _ rs _) as [[? ?] ?].
  - intros Hnone. apply collect_none_iff in Hnone. rewrite Hnone.
    cbn [mret Sync_ret].
    destruct rs as [|r rs]; [reflexivity|].
    cbn [run pending].
    assert (after_backend (resume (AwaitFull c req
              (collected_text (collectFromStream events))) r w).1 = true) as Hab.
    { cbv beta iota zeta delta [resume].
      destruct (as_full r); apply after_generation_after_backend. }
    destruct (resume (AwaitFull c req _) r w) as [t' w']; simpl in Hab.
    pose proof (run_after_backend rs t' w' (or_introl Hab)) as Hrest.
    destruct (run t' rs w') as [[calls t''] w'']; simpl in *.
    unfold full_calls in *; simpl. by rewrite Hrest.
  - intros Hsome.
    destruct (imagePart (collectFromStream events)) as [ip|] eqn:Hip.
    + pose proof (after_generation_after_backend c (Some ip)
                    (collected_text (collectFromStream events)) w) as Hab.
      destruct (after_generation c (Some ip) _ w) as [t' w'] eqn:Hag; simpl in Hab.
      pose proof (run_after_backend rs t' w' (or_introl Hab)) as Hrest.
      destruct (run t' rs w') as [[calls t''] w'']; simpl in *.
      exact Hrest.
    + apply collect_none_iff in Hip.
      apply Exists_exists in Hsome as (ev & Hin & [m Hm]).
      rewrite Forall_forall in Hip. rewrite (Hip ev Hin) in Hm. discriminate.
  - intros textResponse full w0. split; [reflexivity|]. split.
    + cbv beta iota zeta delta [resume as_full]. split.
      * intros Hap. destruct (findInlineData full) as [ip|] eqn:Hf; [|done].
        unfold after_generation in Hap.
        rewrite (findInlineData_has_data _ _ Hf) in Hap. discriminate.
      * intros ->. reflexivity.
    + intros ip Hf. cbv beta iota zeta delta [resume as_full].
      rewrite Hf. unfold after_generation.
      rewrite (findInlineData_has_data _ _ Hf). simpl. eauto.
Qed.

(** ** The regular expressions *)

Lemma is_word_char_lower (c : ascii) : is_word_char (lower_ascii c) = is_word_char c.
Proof. destruct c as [[] [] [] [] [] [] [] []]; reflexivity. Qed.

Lemma ascii_lower_app (a b : string) :
  ascii_lower (a +:+ b) = ascii_lower a +:+ ascii_lower b.
Proof. induction a as [|c a IH]; simpl; [done|by rewrite IH]. Qed.

Lemma ascii_lower_split (t a b : string) :
  ascii_lower t = a +:+ b ->
  exists ta tb, t = ta +:+ tb /\ ascii_lower ta = a /\ ascii_lower tb = b.
Proof.
  revert t. induction a as [|c a IH]; intros t Ht; simpl in Ht.
  - by exists "", t.
  - destruct t as [|d t]; [discriminate|]. simpl in Ht. injection Ht as Hc Ht.
    destruct (IH t Ht) as (ta & tb & -> & Ha & Hb).
    exists (String d ta), tb. simpl. by rewrite Hc, Ha.
Qed.

Lemma is_word_first_lower (s : string) :
  is_word (first_char (ascii_lower s)) = is_word (first_char s).
Proof. destruct s; simpl; [done|apply is_word_char_lower]. Qed.

Lemma is_word_last_lower (s : string) (prev : option ascii) :
  is_word (last_char (lower_ascii <$> prev) (ascii_lower s)) = is_word (last_char prev s).
Proof.
  revert prev. induction s as [|c s IH]; intros prev; simpl.
  - destruct prev; simpl; [apply is_word_char_lower|done].
  - apply (IH (Some c)).
Qed.

Lemma is_word_last_lower_start (s : string) :
  is_word (last_char None (ascii_lower s)) = is_word (last_char None s).
Proof. exact (is_word_last_lower s None). Qed.

Lemma prefix_app (w s : string) :
  String.prefix w s = true <-> exists post, s = w +:+ post.
Proof.
  revert s. induction w as [|c w IH]; intros s.
  - split; [intros _; by exists s|by destruct s].
  - destruct s as [|d s]; simpl; [split; [done|by intros [? ?]]|].
    destruct (Ascii.ascii_dec c d) as [<-|Hne].
    + rewrite IH. split; intros [post Hp]; exists post;
        [simpl; by rewrite Hp|simpl in Hp; by injection Hp].
    + split; [done|]. intros [post [= ? _]]. done.
Qed.

Lemma drop_chars_app (w post : string) : drop_chars (String.length w) (w +:+ post) = post.
Proof. induction w as [|c w IH]; simpl; [by destruct post|done]. Qed.

Lemma last_char_app (prev : option ascii) (a : string) (c : ascii) (b : string) :
  last_char prev (a +:+ String c b) = last_char (Some c) b.
Proof. revert prev. induction a as [|d a IH]; intros prev; simpl; [done|apply IH]. Qed.

Lemma plain_word_first (w : string) :
  plain_word w = true -> is_word (first_char w) = true.
Proof.
  unfold plain_word. destruct w as [|c w]; simpl; [done|].
  intros Hw. by destruct (is_word_char c).
Qed.

Lemma plain_word_last (w : string) (prev : option ascii) :
  plain_word w = true -> is_word (last_char prev w) = true.
Proof.
  unfold plain_word. intros Hw.
  apply andb_true_iff in Hw as [Hw _]. apply andb_true_iff in Hw as [Hne Hw].
  destruct w as [|c w]; [done|]. clear Hne. simpl in *.
  revert c Hw. induction w as [|d w IH]; intros c Hw; simpl in *.
  - by destruct (is_word_char c).
  - apply IH. by destruct (is_word_char c).
Qed.

Lemma plain_word_lower (w : string) : plain_word w = true -> ascii_lower w = w.
Proof.
  unfold plain_word. intros Hw. apply andb_true_iff in Hw as [_ Hw].
  by apply String.eqb_eq.
Qed.

(** A match at the current position, for a vocabulary of plain words. *)
Lemma match_word_here_iff (alts : list string) (prev : option ascii) (s : string) :
  Forall (fun w => plain_word w = true) alts ->
  match_word_here alts prev s = true <->
  exists w post, In w alts /\ s = w +:+ post /\
                 is_word prev = false /\ is_word (first_char post) = false.
Proof.
  intros Hplain. unfold match_word_here, word_boundary.
  rewrite andb_true_iff, existsb_exists. split.
  - intros (Hb & w & Hin & Hw).
    apply andb_true_iff in Hw as [Hpre Hb'].
    apply prefix_app in Hpre as [post ->].
    rewrite drop_chars_app in Hb'.
    rewrite Forall_forall in Hplain.
    pose proof (Hplain w (proj2 (list_elem_of_In _ _) Hin)) as Hw.
    rewrite (plain_word_last w prev Hw) in Hb'.
    assert (is_word (first_char (w +:+ post)) = true) as Hfirst.
    { pose proof (plain_word_first w Hw) as Hf. by destruct w. }
    rewrite Hfirst in Hb.
    exists w, post. repeat split; try done.
    + by destruct (is_word prev).
    + by destruct (is_word (first_char post)).
  - intros (w & post & Hin & -> & Hprev & Hpost).
    rewrite Forall_forall in Hplain.
    pose proof (Hplain w (proj2 (list_elem_of_In _ _) Hin)) as Hw.
    assert (is_word (first_char (w +:+ post)) = true) as Hfirst.
    { pose proof (plain_word_first w Hw) as Hf. by destruct w. }
    split; [by rewrite Hprev, Hfirst|].
    exists w. split; [done|].
    apply andb_true_iff. split; [apply prefix_app; eauto|].
    by rewrite drop_chars_app, (plain_word_last w prev Hw), Hpost.
Qed.

(** A match somewhere: the word stands in the input with no word
    character before it or after it. *)
Lemma regex_test_from_iff (alts : list string) (s : string) :
  Forall (fun w => plain_word w = true) alts ->
  forall prev,
    regex_test_from alts prev s = true <->
    exists w pre post, In w alts /\ s = pre +:+ w +:+ post /\
                       is_word (last_char prev pre) = false /\
                       is_word (first_char post) = false.
Proof.
  intros Hplain. induction s as [|c s IH]; intros prev.
  - simpl. rewrite orb_false_r, (match_word_here_iff _ _ _ Hplain). split.
    + intros (w & post & Hin & Hs & Hprev & Hpost). by exists w, "", post.
    + intros (w & pre & post & Hin & Hs & Hprev & Hpost).
      destruct pre; [|discriminate]. simpl in *. by exists w, post.
  - cbn [regex_test_from]. rewrite orb_true_iff, (match_word_here_iff _ _ _ Hplain), IH.
    split.
    + intros [(w & post & Hin & Hs & Hprev & Hpost)|(w & pre & post & Hin & Hs & Hprev & Hpost)].
      * by exists w, "", post.
      * exists w, (String c pre), post. simpl. by rewrite Hs.
    + intros (w & pre & post & Hin & Hs & Hprev & Hpost).
      destruct pre as [|d pre]; simpl in *.
      * left. by exists w, post.
      * injection Hs as <- Hs. right. by exists w, pre, post.
Qed.

Lemma toLowerCase_plain_cons (c1 : ascii) (s1 : string) :
  String.prefix kelvin_sign (String c1 s1) = false ->
  String.prefix dotted_capital_i (String c1 s1) = false ->
  toLowerCase (String c1 s1) = String (lower_ascii c1) (toLowerCase s1).
Proof.
  intros Hk Hi. destruct s1 as [|c2 s2]; [done|].
  assert (Ascii.eqb c1 "196" && Ascii.eqb c2 "176" = false) as Hd.
  { destruct (Ascii.eqb_spec c1 "196") as [->|]; [|done].
    destruct (Ascii.eqb_spec c2 "176") as [->|]; [|done].
    exfalso. assert (String.prefix dotted_capital_i (String "196" (String "176" s2)) = true)
      by (apply prefix_app; by exists s2). congruence. }
  destruct s2 as [|c3 s3].
  - cbn [toLowerCase]. by rewrite Hd.
  - assert (Ascii.eqb c1 "226" && Ascii.eqb c2 "132" && Ascii.eqb c3 "170" = false) as Hk'.
    { destruct (Ascii.eqb_spec c1 "226") as [->|]; [|done].
      destruct (Ascii.eqb_spec c2 "132") as [->|]; [|done].
      destruct (Ascii.eqb_spec c3 "170") as [->|]; [|done].
      exfalso.
      assert (String.prefix kelvin_sign (String "226" (String "132" (String "170" s3))) = true)
        by (apply prefix_app; by exists s3). congruence. }
    cbn [toLowerCase]. by rewrite Hd, Hk'.
Qed.

(** A string without the two characters is lower-cased byte by byte. *)
Lemma toLowerCase_plain (s : string) :
  plain_case s = true -> toLowerCase s = ascii_lower s.
Proof.
  induction s as [|c1 s1 IH]; [done|].
  cbn [plain_case]. rewrite !andb_true_iff, !negb_true_iff. intros [[Hk Hi] Hs].
  rewrite (toLowerCase_plain_cons c1 s1 Hk Hi), (IH Hs). done.
Qed.

(** Lower-casing makes a character a lower-case word character exactly
    when it is that character up to its case. *)
Lemma same_letter_lower (c d : ascii) :
  is_word_char d = true -> lower_ascii d = d ->
  same_letter c d = Ascii.eqb (lower_ascii c) d.
Proof.
  destruct d as [[] [] [] [] [] [] [] []]; try discriminate; intros _ _;
    destruct c as [[] [] [] [] [] [] [] []]; reflexivity.
Qed.

Lemma same_letters_lower (mid w : string) :
  plain_word w = true -> same_letters mid w = true <-> ascii_lower mid = w.
Proof.
  unfold plain_word. rewrite !andb_true_iff. intros [[_ Hchars] Hlow].
  apply String.eqb_eq in Hlow.
  revert mid. induction w as [|d w IH]; intros mid.
  - destruct mid; simpl; [done|split; discriminate].
  - simpl in Hchars, Hlow. apply andb_true_iff in Hchars as [Hd Hchars].
    injection Hlow as Hdl Hwl.
    destruct mid as [|c mid]; simpl; [split; discriminate|].
    rewrite (same_letter_lower c d Hd Hdl), andb_true_iff, (IH Hchars Hwl).
    split.
    + intros [Hc ->]. by apply Ascii.eqb_eq in Hc as ->.
    + intros [= <- <-]. split; [apply Ascii.eqb_refl|done].
Qed.

(** The regular expression finds the words that stand in its input. *)
Lemma regex_test_stands_in (alts : list string) (s : string) :
  Forall (fun w => plain_word w = true) alts ->
  regex_test alts s = true <-> exists w, In w alts /\ stands_in w s.
Proof.
  intros Hplain. unfold regex_test, stands_in.
  rewrite (regex_test_from_iff _ _ Hplain). split.
  - intros (w & pre & post & Hin & Hs & Hprev & Hpost). eauto 8.
  - intros (w & Hin & pre & post & Hs & Hprev & Hpost). eauto 8.
Qed.

(** In a text without the two characters, a word stands in the
    lower-cased text exactly when it occurs in the text, ignoring
    case. *)
Lemma stands_in_lower (w t : string) :
  plain_word w = true -> plain_case t = true ->
  stands_in w (toLowerCase t) <-> word_occurs w t.
Proof.
  intros Hw Ht. rewrite (toLowerCase_plain t Ht). split.
  - intros (pre & post & Hs & Hprev & Hpost).
    apply ascii_lower_split in Hs as (tpre & trest & -> & <- & Hrest).
    apply ascii_lower_split in Hrest as (tmid & tpost & -> & Hmid & <-).
    exists tpre, tmid, tpost. repeat split; try done.
    + by apply same_letters_lower.
    + by rewrite <- is_word_last_lower_start.
    + by rewrite <- is_word_first_lower.
  - intros (pre & mid & post & -> & Hmid & Hprev & Hpost).
    apply (same_letters_lower _ _ Hw) in Hmid.
    exists (ascii_lower pre), (ascii_lower post).
    rewrite !ascii_lower_app, Hmid. repeat split.
    + by rewrite is_word_last_lower_start.
    + by rewrite is_word_first_lower.
Qed.

Lemma selfie_words_plain : Forall (fun w => plain_word w = true) selfie_words.
Proof. repeat constructor. Qed.

Lemma clothing_words_plain : Forall (fun w => plain_word w = true) clothing_words.
Proof. repeat constructor. Qed.

Lemma regex_test_empty (vocabulary : list string) :
  Forall (fun w => plain_word w = true) vocabulary ->
  regex_test vocabulary "" = false.
Proof.
  intros Hplain. apply not_true_is_false. intros Ht.
  apply (regex_test_from_iff _ _ Hplain) in Ht
    as (w & pre & post & Hin & Hs & _).
  rewrite Forall_forall in Hplain.
  pose proof (Hplain w (proj2 (list_elem_of_In _ _) Hin)) as Hw.
  destruct pre, w; try discriminate.
Qed.

(** The tests of the code, by the words of the lower-cased text. *)
Lemma lower_case_has_test (vocabulary : list string) (text : option string) :
  Forall (fun w => plain_word w = true) vocabulary ->
  lower_case_has vocabulary text <->
  regex_test vocabulary (toLowerCase (default "" text)) = true.
Proof.
  intros Hplain. rewrite (regex_test_stands_in _ _ Hplain). unfold lower_case_has. split.
  - intros (t & w & -> & Hin & Hocc). eauto.
  - intros (w & Hin & Hocc). destruct text as [t|]; [by exists t, w|].
    exfalso. assert (regex_test vocabulary "" = true) as Ht
      by (apply (regex_test_stands_in _ _ Hplain); eauto).
    by rewrite (regex_test_empty _ Hplain) in Ht.
Qed.

Lemma mentions_lower_case_has (vocabulary : list string) (text : option string) :
  Forall (fun w => plain_word w = true) vocabulary ->
  plain_case (default "" text) = true ->
  mentions vocabulary text <-> lower_case_has vocabulary text.
Proof.
  intros Hplain Hcase. rewrite Forall_forall in Hplain.
  unfold mentions, lower_case_has.
  split; intros (t & w & -> & Hin & Hocc); exists t, w; (split; [done|]); (split; [done|]);
    by apply (stands_in_lower w t (Hplain w (proj2 (list_elem_of_In _ _) Hin)) Hcase).
Qed.

(** The classification of lines 244-252, by the words of the lower-cased
    text, for every text. *)
Lemma classification_of_lower_case (text mediaUrl : option string) (session : Session) :
  (lower_case_has selfie_words text -> classify text mediaUrl session = Some Selfie) /\
  (~ lower_case_has selfie_words text -> lower_case_has clothing_words text ->
     classify text mediaUrl session = Some Clothing) /\
  (~ lower_case_has selfie_words text -> ~ lower_case_has clothing_words text ->
     truthy_str mediaUrl = true ->
     classify text mediaUrl session =
       Some (if held (selfie session) then Clothing else Selfie)) /\
  (~ lower_case_has selfie_words text -> ~ lower_case_has clothing_words text ->
     truthy_str mediaUrl = false ->
     classify text mediaUrl session = None).
Proof.
  rewrite (lower_case_has_test _ _ selfie_words_plain),
    (lower_case_has_test _ _ clothing_words_plain).
  unfold classify, classify_text.
  destruct (truthy_str text) eqn:Htext.
  - destruct (regex_test selfie_words _), (regex_test clothing_words _);
      repeat split; intros; try done; by destruct (truthy_str mediaUrl).
  - assert (default "" text = "") as -> by (by destruct text as [[|]|]).
    simpl toLowerCase.
    rewrite (regex_test_empty _ selfie_words_plain), (regex_test_empty _ clothing_words_plain).
    repeat split; intros; try done; by destruct (truthy_str mediaUrl).
Qed.

(** C8, as stated, fails.  The caption made of the Kelvin sign and the
    word me contains me between word boundaries, in any case; the code
    lower-cases the caption first, the Kelvin sign becomes the letter k,
    and the caption kme has none of the words: without a picture no slot
    is assigned, and with a picture the slot is taken from the position,
    clothing when the session holds a selfie. *)
Lemma kelvin_caption_is_no_selfie :
  let caption := Some (kelvin_sign +:+ "me") in
  mentions selfie_words caption /\
  toLowerCase (kelvin_sign +:+ "me") = "kme" /\
  classify caption None (new_session 0) = None /\
  classify caption (Some "https://media.example/a.jpg") (aged_session 0) = Some Clothing /\
  ~ (forall (text mediaUrl : option string) (session : Session),
       mentions selfie_words text -> classify text mediaUrl session = Some Selfie).
Proof.
  intros caption.
  assert (mentions selfie_words caption) as Hm.
  { exists (kelvin_sign +:+ "me"), "me". split; [done|]. split; [simpl; tauto|].
    exists kelvin_sign, "me", "". repeat split. }
  split; [exact Hm|]. split; [reflexivity|]. split; [reflexivity|]. split; [reflexivity|].
  intros Hall. specialize (Hall caption None (new_session 0) Hm). discriminate.
Qed.

(** C8, amended.  For a text with neither U+212A nor U+0130: a text that
    contains one of selfie, me, face, portrait as a word of its own, in
    any case, assigns the selfie slot; otherwise one that so contains
    clothing, dress, shirt, outfit, attire or wear assigns the clothing
    slot; otherwise, with media present, the slot is clothing when the
    session holds a selfie and selfie when it does not; with no media
    and no such word, no slot is assigned. *)
Theorem classification_rule (text mediaUrl : option string) (session : Session) :
  plain_case (default "" text) = true ->
  (mentions selfie_words text -> classify text mediaUrl session = Some Selfie) /\
  (~ mentions selfie_words text -> mentions clothing_words text ->
     classify text mediaUrl session = Some Clothing) /\
  (~ mentions selfie_words text -> ~ mentions clothing_words text ->
     truthy_str mediaUrl = true ->
     classify text mediaUrl session =
       Some (if held (selfie session) then Clothing else Selfie)) /\
  (~ mentions selfie_words text -> ~ mentions clothing_words text ->
     truthy_str mediaUrl = false ->
     classify text mediaUrl session = None).
Proof.
  intros Hcase.
  rewrite (mentions_lower_case_has _ _ selfie_words_plain Hcase),
    (mentions_lower_case_has _ _ clothing_words_plain Hcase).
  apply classification_of_lower_case.
Qed.

Lemma classification_rule_witness :
  plain_case "Here is ME!" = true /\
  (mentions selfie_words (Some "Here is ME!") ->
   classify (Some "Here is ME!") None (new_session 0) = Some Selfie).
Proof.
  split; [reflexivity|].
  exact (proj1 (classification_rule (Some "Here is ME!") None (new_session 0) eq_refl)).
Defined.

Example classify_text_words :
  classify_text (Some "Here is ME!") = Some Selfie /\
  classify_text (Some "me_too") = None /\
  classify_text (Some "menswear, a DRESS") = Some Clothing /\
  classify_text (Some "my face in a shirt") = Some Selfie /\
  classify_text (Some "homewear") = None.
Proof. repeat split. Qed.

(** The earlier handler classifies by substring and not by word, and
    never from the position: "home" contains "me". *)
Lemma classify_includes_differs (session : Session) :
  classify_includes (Some "home") = Some Selfie /\
  classify (Some "home") None session = None /\
  classify_includes None = None /\
  classify None (Some "https://media.example/a.png") session =
    Some (if held (selfie session) then Clothing else Selfie).
Proof. repeat split. Qed.

(** ** The clock *)

Section ClockFacts.
Context `{Env}.

Lemma ticks_getSession (u : string) (w : World) :
  (ticks w < ticks (getSession u w).2)%nat.
Proof.
  rewrite getSession_unfold.
  destruct (userSessions w !! u); [destruct (_ >? _)|]; unfold tick; simpl; lia.
Qed.

Lemma ticks_updateSession (u : string) (patch : Patch) (w : World) :
  ticks (updateSession u patch w).2 = S (ticks (getSession u w).2).
Proof. rewrite updateSession_unfold. reflexivity. Qed.

Lemma ticks_store_media (c : Locals) (imageType : Slot) (img : Download) (w : World) :
  (ticks w < ticks (store_media c imageType img w).2)%nat.
Proof.
  rewrite store_media_unfold. cbv zeta. rewrite ticks_updateSession.
  set (w1 := if decide (imageType = Selfie) then _ else w).
  pose proof (ticks_getSession (userPhone c) (tick w1)).
  assert (ticks w <= ticks w1)%nat.
  { subst w1. destruct (decide _); [|lia]. rewrite ticks_updateSession.
    pose proof (ticks_getSession (userPhone c) w). lia. }
  assert (ticks (tick w1) = S (ticks w1)) as Ht by reflexivity. lia.
Qed.

Lemma ticks_ready_check (c : Locals) (w : World) :
  (ticks w < ticks (ready_check c w).2)%nat.
Proof.
  pose proof (ticks_getSession (userPhone c) w).
  destruct (ready_check_cases c w) as [(sf & cl & o & _ & _ & _ & _ & ->)|[_ ->]]; simpl.
  - rewrite ticks_updateSession. lia.
  - by destruct (guidance_unfold c w) as [m ->].
Qed.

Lemma finish_generation_unfold (c : Locals) (w : World) :
  finish_generation c w =
  let w1 := (resetSession (userPhone c) w).2 in
  let l := (getSession (userPhone c) w1).1 in
  let w2 := (getSession (userPhone c) w1).2 in
  (Finished 200, (write l (set_inProgress false) w2).2).
Proof.
  unfold finish_generation, mbind, Sync_bind.
  rewrite resetSession_unfold. simpl.
  destruct (getSession _ _) as [l w2]. reflexivity.
Qed.

Lemma ticks_finish_generation (c : Locals) (w : World) :
  (ticks w < ticks (finish_generation c w).2)%nat.
Proof.
  rewrite finish_generation_unfold. cbv zeta. simpl.
  pose proof (ticks_getSession (userPhone c) (resetSession (userPhone c) w).2) as Hlt.
  rewrite resetSession_unfold in Hlt. unfold tick in Hlt; simpl in Hlt.
  lia.
Qed.

Lemma ticks_finish_generation_reset (c : Locals) (w : World) :
  (ticks (assign_entry (userPhone c) (new_session (Date_now (ticks w))) (tick w)).2
   < ticks (finish_generation c w).2)%nat.
Proof.
  rewrite finish_generation_unfold, resetSession_unfold.
  exact (ticks_getSession (userPhone c) _).
Qed.

Lemma ticks_after_generation (c : Locals) (ip : option JsVal) (tr : string) (w : World) :
  (ticks w <= ticks (after_generation c ip tr w).2)%nat.
Proof.
  destruct (after_generation_cases c ip tr w) as [->|(v & f & _ & _ & ->)];
    unfold tick; simpl; lia.
Qed.

(** No segment of a turn sets the count of readings back. *)
Lemma ticks_resume (t : Turn) (r : ExtResult) (w : World) :
  (ticks w <= ticks (resume t r w).2)%nat.
Proof.
  destruct t; cbv beta iota zeta delta [resume];
    try apply ticks_after_generation;
    try (pose proof (ticks_finish_generation c w); lia);
    try (pose proof (ticks_ready_check c w); lia);
    try (simpl; lia).
  - destruct (download_after_head _); simpl; lia.
  - destruct (as_get r) as [res|]; [destruct (download_after_get res)|]; simpl; lia.
  - destruct (as_buffer r) as [buf|]; [destruct (download_finish p res buf) as [img|]|];
      try (simpl; lia).
    unfold mbind, Sync_bind.
    pose proof (ticks_store_media c imageType img w) as Hs.
    destruct (store_media c imageType img w) as [[] w1]; simpl in Hs.
    pose proof (ticks_ready_check c w1). lia.
  - destruct (as_stream r) as [events|];
      [destruct (imagePart (collectFromStream events))|];
      try apply ticks_after_generation. simpl; lia.
  - destruct (as_full r); apply ticks_after_generation.
  - destruct (rejected r); simpl; lia.
  - destruct (rejected r); [simpl; lia|].
    pose proof (ticks_finish_generation c w); lia.
  - destruct (rejected r); [simpl; lia|].
    pose proof (ticks_finish_generation c w); lia.
Qed.

Lemma ticks_inbound (req : Request) (w : World) :
  (ticks w <= ticks (inbound req w).2)%nat.
Proof.
  unfold inbound. destruct (negb _); [simpl; lia|].
  unfold mbind, Sync_bind, read.
  pose proof (ticks_getSession (default "" (req_from req)) w) as Hg.
  destruct (getSession _ w) as [l w1]; simpl in Hg. cbv beta iota zeta.
  match goal with |- context [ready_check ?c] =>
    pose proof (ticks_ready_check c w1) end.
  destruct (classify _ _ _); [destruct (truthy_str (req_mediaUrl req))|]; simpl; lia.
Qed.

Lemma ticks_sys_step (s : System) (e : Event) :
  (ticks (world s) <= ticks (world (sys_step s e)))%nat.
Proof.
  destruct e as [req|i r]; simpl.
  - pose proof (ticks_inbound req (world s)).
    by destruct (inbound req (world s)).
  - destruct (turns s !! i) as [t|]; [|lia].
    pose proof (ticks_resume t r (world s)).
    by destruct (resume t r (world s)).
Qed.

Lemma ticks_sys_run (es : list Event) (s : System) :
  (ticks (world s) <= ticks (world (sys_run es s)))%nat.
Proof.
  revert s. induction es as [|e es IH]; intros s; simpl; [lia|].
  pose proof (ticks_sys_step s e). pose proof (IH (sys_step s e)).
  unfold sys_run in *. lia.
Qed.

End ClockFacts.

(** ** One generation at a time, while no session expires *)

Section ExclusionFacts.
Context `{Env}.

Lemma benign_refl (w : World) : benign w w.
Proof. split; eauto. Qed.

Lemma benign_length (w w' : World) :
  benign w w' -> (List.length (heap w) <= List.length (heap w'))%nat.
Proof.
  intros Hb. destruct (heap w) as [|o h] eqn:Hh using rev_ind; [simpl; lia|].
  assert (heap w !! List.length h = Some o) as Hlast.
  { rewrite Hh, lookup_app_r by lia. by rewrite Nat.sub_diag. }
  destruct (locks_kept _ _ Hb _ _ Hlast) as (o' & Ho' & _).
  apply lookup_lt_Some in Ho'. rewrite length_app; simpl. lia.
Qed.

Lemma benign_trans (w1 w2 w3 : World) : benign w1 w2 -> benign w2 w3 -> benign w1 w3.
Proof.
  intros H12 H23. split.
  - intros u l Hl. by apply (entries_kept _ _ H23), (entries_kept _ _ H12).
  - intros u l Hl. pose proof (benign_length _ _ H12) as Hlen.
    destruct (entries_new _ _ H23 _ _ Hl) as [Hl2|Hl2]; [|right; lia].
    apply (entries_new _ _ H12 _ _ Hl2).
  - intros l o Ho.
    destruct (locks_kept _ _ H12 _ _ Ho) as (o2 & Ho2 & Hp2).
    destruct (locks_kept _ _ H23 _ _ Ho2) as (o3 & Ho3 & Hp3).
    exists o3. split; [done|auto].
Qed.

Lemma benign_tick (w : World) : benign w (tick w).
Proof. split; unfold tick; simpl; eauto. Qed.

Lemma store_ok_initial : store_ok initial_world.
Proof.
  split.
  - apply well_formed_initial.
  - intros u v l Hu. simpl in Hu. by rewrite lookup_empty in Hu.
  - intros l o Ho. simpl in Ho. by rewrite lookup_nil in Ho.
Qed.

Lemma store_ok_tick (w : World) : store_ok w -> store_ok (tick w).
Proof.
  intros [Hwf Hinj Hst]. split; [done|done|].
  intros l o Ho. destruct (Hst l o Ho) as (m & Hm & Hs).
  exists m. unfold tick; simpl. split; [lia|done].
Qed.

Lemma store_ok_assign_entry (u : string) (s : Session) (w : World) :
  store_ok w -> (exists m, (m < ticks w)%nat /\ lastUpdated s = Date_now m) ->
  store_ok (assign_entry u s w).2.
Proof.
  intros [Hwf Hinj Hst] Hs. split.
  - by apply well_formed_assign_entry.
  - intros a b l. unfold assign_entry; simpl.
    destruct (decide (a = u)) as [->|Ha]; destruct (decide (b = u)) as [->|Hb]; try done.
    + rewrite lookup_insert_eq, lookup_insert_ne by done.
      intros [= <-] Hl. apply Hwf in Hl. lia.
    + rewrite lookup_insert_eq, lookup_insert_ne by done.
      intros Hl [= <-]. apply Hwf in Hl. lia.
    + rewrite !lookup_insert_ne by done. apply Hinj.
  - intros l o. unfold assign_entry; simpl. intros Ho.
    apply lookup_app_Some in Ho as [Ho|[_ Ho]]; [by eapply Hst|].
    apply list_lookup_singleton_Some in Ho as [_ <-]. done.
Qed.

Lemma store_ok_write (l : nat) (f : Session -> Session) (w : World) :
  store_ok w ->
  (forall o, (exists m, (m < ticks w)%nat /\ lastUpdated o = Date_now m) ->
             exists m, (m < ticks w)%nat /\ lastUpdated (f o) = Date_now m) ->
  store_ok (write l f w).2.
Proof.
  intros [Hwf Hinj Hst] Hf. split.
  - by apply well_formed_write.
  - exact Hinj.
  - intros k o. unfold write; simpl. intros Ho.
    destruct (decide (l = k)) as [->|Hne].
    + rewrite list_lookup_alter_eq in Ho.
      destruct (heap w !! k) as [o0|] eqn:Ho0; [|done]. injection Ho as <-.
      apply Hf. by eapply Hst.
    + rewrite list_lookup_alter_ne in Ho by done. by eapply Hst.
Qed.

Lemma benign_assign_entry (u : string) (s : Session) (w : World) :
  well_formed w -> userSessions w !! u = None -> benign w (assign_entry u s w).2.
Proof.
  intros Hwf Hnone. split; unfold assign_entry; simpl.
  - intros v l Hl. rewrite lookup_insert_ne; [done|congruence].
  - intros v l. destruct (decide (u = v)) as [->|Hne].
    + rewrite lookup_insert_eq. intros [= <-]. by right.
    + rewrite lookup_insert_ne by done. by left.
  - intros l o Ho. exists o. split; [|done].
    by apply lookup_app_l_Some.
Qed.

Lemma benign_write (l : nat) (f : Session -> Session) (w : World) :
  (forall o, inProgress o = true -> inProgress (f o) = true) ->
  benign w (write l f w).2.
Proof.
  intros Hf. split; unfold write; simpl; eauto.
  intros k o Ho. destruct (decide (l = k)) as [->|Hne].
  - exists (f o). rewrite list_lookup_alter_eq, Ho. auto.
  - exists o. by rewrite list_lookup_alter_ne.
Qed.

Section WithinTTL.
Variable N : nat.
Hypothesis no_expiry : within_ttl N.

(** While nothing expires, [getSession] creates a missing entry and
    does nothing else. *)
Lemma getSession_within (u : string) (w : World) :
  store_ok w -> (ticks w < N)%nat ->
  getSession u w =
  match userSessions w !! u with
  | Some l => (l, tick w)
  | None => assign_entry u (new_session (Date_now (ticks w))) (tick w)
  end.
Proof.
  intros [Hwf Hinj Hst] Hn. rewrite getSession_unfold.
  destruct (userSessions w !! u) as [l|] eqn:Hl; [|done].
  destruct (lookup_lt_is_Some_2 (heap w) l (Hwf _ _ Hl)) as [o Ho].
  rewrite (list_lookup_total_correct _ _ _ Ho).
  destruct (Hst _ _ Ho) as (m & Hm & ->).
  pose proof (no_expiry m (ticks w) ltac:(lia) Hn).
  assert ((Date_now (ticks w) - Date_now m >? SESSION_TTL_MS) = false) as -> by lia.
  reflexivity.
Qed.

Lemma getSession_benign (u : string) (w : World) :
  store_ok w -> (ticks (getSession u w).2 <= N)%nat ->
  store_ok (getSession u w).2 /\ benign w (getSession u w).2 /\
  userSessions (getSession u w).2 !! u = Some (getSession u w).1.
Proof.
  intros Hok Hn. pose proof (ticks_getSession u w) as Hlt.
  rewrite (getSession_within u w Hok) by lia.
  destruct (userSessions w !! u) as [l|] eqn:Hl.
  - split; [by apply store_ok_tick|]. split; [apply benign_tick|done].
  - split; [|split].
    + apply store_ok_assign_entry; [by apply store_ok_tick|].
      exists (ticks w). unfold tick; simpl. split; [lia|done].
    + apply (benign_trans _ (tick w)); [apply benign_tick|].
      apply benign_assign_entry; [apply (table_in_heap _ Hok)|done].
    + simpl. by rewrite lookup_insert_eq.
Qed.

Lemma updateSession_benign (u : string) (patch : Patch) (w : World) :
  store_ok w -> patch <> PatchInProgress false ->
  (ticks (updateSession u patch w).2 <= N)%nat ->
  store_ok (updateSession u patch w).2 /\ benign w (updateSession u patch w).2.
Proof.
  intros Hok Hpatch Hn. rewrite ticks_updateSession in Hn.
  rewrite updateSession_unfold. cbv zeta.
  destruct (getSession_benign u w Hok ltac:(lia)) as (Hok1 & Hb1 & _).
  set (w1 := (getSession u w).2) in *. set (l := (getSession u w).1).
  set (w2 := (write l (fun o => Object_assign o patch) w1).2).
  assert (store_ok w2) as Hok2.
  { apply store_ok_write; [done|]. intros o Ho. by destruct patch as [[] ?|?]. }
  assert (benign w1 w2) as Hb2.
  { apply benign_write. intros o Ho. destruct patch as [[] ?|[]]; done. }
  split.
  - apply store_ok_write; [by apply store_ok_tick|]. intros o _.
    exists (ticks w2). unfold tick; simpl. split; [lia|done].
  - apply (benign_trans _ w1); [done|].
    apply (benign_trans _ w2); [done|].
    apply (benign_trans _ (tick w2)); [apply benign_tick|].
    by apply benign_write.
Qed.

Lemma store_media_benign (c : Locals) (imageType : Slot) (img : Download) (w : World) :
  store_ok w -> (ticks (store_media c imageType img w).2 <= N)%nat ->
  store_ok (store_media c imageType img w).2 /\ benign w (store_media c imageType img w).2.
Proof.
  intros Hok Hn. rewrite store_media_unfold in *. cbv zeta in *.
  set (w1 := if decide (imageType = Selfie)
             then (updateSession (userPhone c) (PatchSlot Clothing None) w).2 else w) in *.
  assert (ticks w1 <= N)%nat as Hn1.
  { rewrite ticks_updateSession in Hn.
    pose proof (ticks_getSession (userPhone c) (tick w1)) as Hlt.
    assert (ticks (tick w1) = S (ticks w1)) as Ht by reflexivity. lia. }
  assert (store_ok w1 /\ benign w w1) as [Hok1 Hb1].
  { subst w1. destruct (decide _); [by apply updateSession_benign|].
    split; [done|apply benign_refl]. }
  destruct (updateSession_benign (userPhone c)
              (PatchSlot imageType
                 (Some {| data := img_base64 img; mime := img_mime img;
                          ts := Date_now (ticks w1) |}))
              (tick w1) (store_ok_tick _ Hok1) ltac:(done) Hn) as [Hok2 Hb2].
  split; [done|].
  apply (benign_trans _ w1); [done|].
  apply (benign_trans _ (tick w1)); [apply benign_tick|done].
Qed.

Lemma reference_ok_benign (w w' : World) (c : Locals) :
  benign w w' -> reference_ok w c -> reference_ok w' c.
Proof.
  intros Hb [Hcur|[(o & Ho & Hlock) Hstale]].
  - left. by apply (entries_kept _ _ Hb).
  - right. split.
    + destruct (locks_kept _ _ Hb _ _ Ho) as (o' & Ho' & Hp). eauto.
    + intros u Hu. destruct (entries_new _ _ Hb _ _ Hu) as [Hold|Hnew].
      * by apply (Hstale u).
      * apply lookup_lt_Some in Ho. lia.
Qed.

Lemma flag_benign (w w' : World) (u : string) :
  benign w w' ->
  (exists o, session_of w u = Some o /\ inProgress o = true) ->
  exists o', session_of w' u = Some o' /\ inProgress o' = true.
Proof.
  intros Hb (o & Ho & Hlock). unfold session_of in *.
  destruct (userSessions w !! u) as [l|] eqn:Hl; [|done]. simpl in Ho.
  rewrite (entries_kept _ _ Hb _ _ Hl); simpl.
  destruct (locks_kept _ _ Hb _ _ Ho) as (o' & Ho' & Hp). eauto.
Qed.

(** A change of the store that is benign keeps a system in order. *)
Lemma system_ok_benign (w' : World) (s : System) :
  system_ok s -> store_ok w' -> benign (world s) w' ->
  system_ok {| world := w'; turns := turns s |}.
Proof.
  intros [Hstore Hrefs Hone Hflag] Hok Hb.
  split; unfold one_generation_per_user, flag_set_while_generating in *; simpl.
  - done.
  - intros i t c Hi Hbefore Hc. eapply reference_ok_benign; eauto.
  - done.
  - intros i t c Hi Hgen Hc. eapply flag_benign; eauto.
Qed.

(** A turn that does not hold the lock, and whose reference is in
    order if it still is to reach the ready check, can take the place
    of one that did not hold the lock or be added. *)
Lemma system_ok_replace (i : nat) (t' : Turn) (s : System) :
  system_ok s ->
  in_generation t' = false ->
  (forall c, before_check t' = true -> turn_locals t' = Some c -> reference_ok (world s) c) ->
  system_ok {| world := world s; turns := <[i := t']> (turns s) |}.
Proof.
  intros [Hstore Hrefs Hone Hflag] Hgen Href.
  split; unfold one_generation_per_user, flag_set_while_generating in *; simpl.
  - done.
  - intros j t c Hj Hbefore Hc.
    destruct (decide (i = j)) as [->|Hne].
    + apply list_lookup_insert_Some in Hj as [(_ & <- & _)|[? _]]; [eauto|done].
    + rewrite list_lookup_insert_ne in Hj by done. eauto.
  - intros j k tj tk cj ck Hj Hk Hgj Hgk Hcj Hck Hu.
    destruct (decide (i = j)) as [->|Hnej].
    { apply list_lookup_insert_Some in Hj as [(_ & <- & _)|[? _]]; [congruence|done]. }
    destruct (decide (i = k)) as [->|Hnek].
    { apply list_lookup_insert_Some in Hk as [(_ & <- & _)|[? _]]; [congruence|done]. }
    rewrite list_lookup_insert_ne in Hj, Hk by done. eauto.
  - intros j t c Hj Hgj Hc.
    destruct (decide (i = j)) as [->|Hne].
    { apply list_lookup_insert_Some in Hj as [(_ & <- & _)|[? _]]; [congruence|done]. }
    rewrite list_lookup_insert_ne in Hj by done. eauto.
Qed.

Lemma system_ok_append (t' : Turn) (s : System) :
  system_ok s ->
  in_generation t' = false ->
  (forall c, before_check t' = true -> turn_locals t' = Some c -> reference_ok (world s) c) ->
  system_ok {| world := world s; turns := turns s ++ [t'] |}.
Proof.
  intros [Hstore Hrefs Hone Hflag] Hgen Href.
  split; unfold one_generation_per_user, flag_set_while_generating in *; simpl.
  - done.
  - intros j t c Hj Hbefore Hc.
    apply lookup_app_Some in Hj as [Hj|[_ Hj]]; [eauto|].
    apply list_lookup_singleton_Some in Hj as [_ <-]. eauto.
  - intros j k tj tk cj ck Hj Hk Hgj Hgk Hcj Hck Hu.
    apply lookup_app_Some in Hj as [Hj|[_ Hj]];
      [|apply list_lookup_singleton_Some in Hj as [_ <-]; congruence].
    apply lookup_app_Some in Hk as [Hk|[_ Hk]];
      [|apply list_lookup_singleton_Some in Hk as [_ <-]; congruence].
    eauto.
  - intros j t c Hj Hgj Hc.
    apply lookup_app_Some in Hj as [Hj|[_ Hj]];
      [|apply list_lookup_singleton_Some in Hj as [_ <-]; congruence].
    eauto.
Qed.

(** A turn that holds the lock can move on inside the generation
    branch. *)
Lemma system_ok_stay (i : nat) (t t' : Turn) (c : Locals) (s : System) :
  system_ok s ->
  turns s !! i = Some t -> in_generation t = true -> turn_locals t = Some c ->
  in_generation t' = true -> turn_locals t' = Some c ->
  system_ok {| world := world s; turns := <[i := t']> (turns s) |}.
Proof.
  intros [Hstore Hrefs Hone Hflag] Hi Hgen Hc Hgen' Hc'.
  split; unfold one_generation_per_user, flag_set_while_generating in *; simpl.
  - done.
  - intros j tj cj Hj Hbefore Hcj.
    apply list_lookup_insert_Some in Hj as [(_ & <- & _)|[_ Hj]]; [|eauto].
    by destruct t'.
  - intros j k tj tk cj ck Hj Hk Hgj Hgk Hcj Hck Hu.
    apply list_lookup_insert_Some in Hj as [(<- & <- & _)|[Hnej Hj]];
      apply list_lookup_insert_Some in Hk as [(<- & <- & _)|[Hnek Hk]]; try done.
    + rewrite Hc' in Hcj. injection Hcj as <-. eauto.
    + rewrite Hc' in Hck. injection Hck as <-. eauto.
    + eauto.
  - intros j tj cj Hj Hgj Hcj.
    apply list_lookup_insert_Some in Hj as [(<- & <- & _)|[Hnej Hj]]; [|eauto].
    rewrite Hc' in Hcj. injection Hcj as <-. eauto.
Qed.

Lemma same_sessions_benign (w w' : World) :
  heap w' = heap w -> userSessions w' = userSessions w ->
  (ticks w <= ticks w')%nat ->
  benign w w' /\ (store_ok w -> store_ok w').
Proof.
  intros Hh Ht Hticks. split.
  - split; rewrite ?Hh, ?Ht; eauto.
  - intros [Hwf Hinj Hst]. split; unfold well_formed; rewrite ?Hh, ?Ht; try done.
    intros l o Ho. destruct (Hst l o Ho) as (m & Hm & Hs). exists m. split; [lia|done].
Qed.

(** The ready check: the turn takes the lock, which no other turn of
    the user holds, or goes on to the guidance. *)
Lemma ready_check_ok (i : nat) (c : Locals) (s : System) :
  system_ok s -> reference_ok (world s) c ->
  (ticks (ready_check c (world s)).2 <= N)%nat ->
  system_ok {| world := (ready_check c (world s)).2;
               turns := <[i := (ready_check c (world s)).1]> (turns s) |}.
Proof.
  intros Hs Href.
  destruct (ready_check_cases c (world s))
    as [(sf & cl & o & Ho & _ & _ & Hfree & ->)|[_ ->]]; simpl.
  - (* the lock *)
    intros Hn.
    destruct Hs as [Hstore Hrefs Hone Hflag].
    destruct (updateSession_benign (userPhone c) (PatchInProgress true) (world s) Hstore
                ltac:(done) Hn) as [Hok' Hb].
    assert (userSessions (world s) !! userPhone c = Some (session c)) as Hcur.
    { destruct Href as [?|[(o' & Ho' & Hlock) _]]; [done|congruence]. }
    assert (forall j tj cj, turns s !! j = Some tj -> in_generation tj = true ->
                            turn_locals tj = Some cj -> userPhone cj <> userPhone c) as Hnone.
    { intros j tj cj Hj Hgj Hcj Hu.
      destruct (Hflag j tj cj Hj Hgj Hcj) as (o' & Ho' & Hlock).
      unfold session_of in Ho'. rewrite Hu, Hcur in Ho'. simpl in Ho'. congruence. }
    split; unfold one_generation_per_user, flag_set_while_generating in *; simpl.
    + done.
    + intros j tj cj Hj Hbefore Hcj.
      apply list_lookup_insert_Some in Hj as [(_ & <- & _)|[_ Hj]]; [done|].
      eapply reference_ok_benign; eauto.
    + intros j k tj tk cj ck Hj Hk Hgj Hgk Hcj Hck Hu.
      apply list_lookup_insert_Some in Hj as [(<- & <- & _)|[Hnej Hj]];
        apply list_lookup_insert_Some in Hk as [(<- & <- & _)|[Hnek Hk]]; try done.
      * injection Hcj as <-. by destruct (Hnone k tk ck Hk Hgk Hck).
      * injection Hck as <-. by destruct (Hnone j tj cj Hj Hgj Hcj).
      * eauto.
    + intros j tj cj Hj Hgj Hcj.
      apply list_lookup_insert_Some in Hj as [(<- & <- & _)|[Hnej Hj]].
      * injection Hcj as <-.
        destruct (updateSession_session (userPhone c) (PatchInProgress true) (world s)
                    (table_in_heap _ Hstore)) as (o' & t & Hs' & _).
        eexists. split; [exact Hs'|reflexivity].
      * eapply flag_benign; eauto.
  - (* the guidance *)
    destruct (guidance_unfold c (world s)) as [m ->]; simpl. intros Hn.
    destruct (getSession_benign (userPhone c) (world s) (sys_store _ Hs) Hn)
      as (Hok' & Hb & _).
    apply (system_ok_replace i (AwaitGuidance c m)
             {| world := (getSession (userPhone c) (world s)).2; turns := turns s |});
      [by apply system_ok_benign|done|done].
Qed.

(** The end of a generation: the user's entry is rebound to a new
    object, and the references to the old one are to a locked object. *)
Lemma finish_ok (i : nat) (t : Turn) (c : Locals) (s : System) :
  system_ok s ->
  turns s !! i = Some t -> in_generation t = true -> turn_locals t = Some c ->
  (ticks (finish_generation c (world s)).2 <= N)%nat ->
  system_ok {| world := (finish_generation c (world s)).2;
               turns := <[i := Finished 200]> (turns s) |}.
Proof.
  intros Hs Hi Hgen Hc Hn. destruct s as [w ts].
  destruct Hs as [Hstore Hrefs Hone Hflag].
  unfold one_generation_per_user, flag_set_while_generating in *. simpl in *.
  set (L := List.length (heap w)).
  set (w1 := (assign_entry (userPhone c) (new_session (Date_now (ticks w))) (tick w)).2).
  assert (store_ok w1) as Hok1.
  { apply store_ok_assign_entry; [by apply store_ok_tick|].
    exists (ticks w). unfold tick; simpl. split; [lia|done]. }
  assert (ticks w1 < N)%nat as Hn1.
  { pose proof (ticks_finish_generation_reset c w) as Hr. fold w1 in Hr. lia. }
  assert (finish_generation c w =
          (Finished 200, (write L (set_inProgress false) (tick w1)).2)) as Hfin.
  { unfold finish_generation, mbind, Sync_bind. rewrite resetSession_unfold. fold w1.
    rewrite (getSession_within _ _ Hok1 Hn1).
    assert (userSessions w1 !! userPhone c = Some L) as ->
      by (subst w1; simpl; by rewrite lookup_insert_eq).
    reflexivity. }
  rewrite Hfin. simpl.
  set (w' := {| userSessions := <[userPhone c := L]> (userSessions w);
                heap := alter (set_inProgress false) L
                          (heap w ++ [new_session (Date_now (ticks w))])%list;
                ticks := S (S (ticks w)) |}).
  assert (store_ok w') as Hok'.
  { apply (store_ok_write L (set_inProgress false) (tick w1)); [by apply store_ok_tick|].
    intros o Ho. exact Ho. }
  assert (forall l o, heap w !! l = Some o -> heap w' !! l = Some o) as Hkeep.
  { intros l o Ho. subst w'; simpl.
    pose proof (lookup_lt_Some _ _ _ Ho).
    rewrite list_lookup_alter_ne by (subst L; lia).
    by apply lookup_app_l_Some. }
  assert (forall v, v <> userPhone c -> session_of w' v = session_of w v) as Hothers.
  { intros v Hv. unfold session_of. subst w'; simpl.
    rewrite lookup_insert_ne by done.
    destruct (userSessions w !! v) as [l|] eqn:Hl; [simpl|done].
    destruct (lookup_lt_is_Some_2 (heap w) l (table_in_heap _ Hstore _ _ Hl)) as [o Ho].
    rewrite Ho. by apply Hkeep. }
  destruct (Hflag i t c Hi Hgen Hc) as (oc & Hoc & Hlocked).
  unfold session_of in Hoc.
  destruct (userSessions w !! userPhone c) as [lc|] eqn:Hlc; [simpl in Hoc|done].
  assert (forall a, (a < L)%nat -> forall v, userSessions w' !! v = Some a ->
                    v <> userPhone c /\ userSessions w !! v = Some a) as Hentry.
  { intros a Ha v. subst w'; simpl.
    destruct (decide (v = userPhone c)) as [->|Hv].
    - rewrite lookup_insert_eq. intros [= <-]. lia.
    - rewrite lookup_insert_ne by done. done. }
  split; unfold one_generation_per_user, flag_set_while_generating; simpl.
  - exact Hok'.
  - intros j tj cj Hj Hbefore Hcj.
    apply list_lookup_insert_Some in Hj as [(_ & <- & _)|[_ Hj]]; [done|].
    destruct (Hrefs j tj cj Hj Hbefore Hcj) as [Hcur|[(o & Ho & Hlock) Hstale]].
    + destruct (decide (userPhone cj = userPhone c)) as [Hu|Hu].
      * right. rewrite Hu, Hlc in Hcur. injection Hcur as Hcur. rewrite <- Hcur.
        split; [eauto|].
        intros v Hv.
        apply Hentry in Hv as [Hv Hv']; [|by apply (lookup_lt_Some _ _ _ Hoc)].
        apply Hv. by apply (table_injective _ Hstore _ _ lc).
      * left. change (userSessions w' !! userPhone cj = Some (session cj)).
        subst w'; simpl. by rewrite lookup_insert_ne.
    + right. split; [eauto|].
      intros v Hv.
      apply Hentry in Hv as [_ Hv]; [|by apply (lookup_lt_Some _ _ _ Ho)].
      by apply (Hstale v).
  - intros j k tj tk cj ck Hj Hk Hgj Hgk Hcj Hck Hu.
    apply list_lookup_insert_Some in Hj as [(_ & <- & _)|[_ Hj]]; [done|].
    apply list_lookup_insert_Some in Hk as [(_ & <- & _)|[_ Hk]]; [done|].
    eauto.
  - intros j tj cj Hj Hgj Hcj.
    apply list_lookup_insert_Some in Hj as [(_ & <- & _)|[Hne Hj]]; [done|].
    change (exists o, session_of w' (userPhone cj) = Some o /\ inProgress o = true).
    rewrite Hothers; [eauto|].
    intros Hu. apply Hne. by apply (Hone i j t tj c cj).
Qed.

(** A turn takes the place of another without a change of the store. *)
Ltac replace_turn :=
  simpl; apply system_ok_replace;
  [ assumption
  | reflexivity
  | first [ by intros ? _ [= <-] | by intros ? ? ] ].

Lemma sys_step_settle (s : System) (i : nat) (r : ExtResult) :
  sys_step s (Settle i r) =
  match turns s !! i with
  | Some t => {| world := (resume t r (world s)).2;
                 turns := <[i := (resume t r (world s)).1]> (turns s) |}
  | None => s
  end.
Proof.
  unfold sys_step. destruct (turns s !! i) as [t|]; [|done].
  by destruct (resume t r (world s)).
Qed.

(** The settlement of a call keeps the system in order. *)
Lemma settle_ok (s : System) (i : nat) (r : ExtResult) :
  system_ok s -> (ticks (world (sys_step s (Settle i r))) <= N)%nat ->
  system_ok (sys_step s (Settle i r)).
Proof.
  intros Hs. rewrite sys_step_settle.
  destruct (turns s !! i) as [t|] eqn:Hi; [|done].
  destruct (in_generation t) eqn:Hgen.
  { (* inside the generation branch *)
    assert (exists c, turn_locals t = Some c) as [c Hc] by (destruct t; try done; simpl; eauto).
    destruct (generation_step t c r (world s) Hgen Hc)
      as [(Hgen' & Hc' & _ & Hheap & Htable)|Hfin].
    - intros _.
      destruct (same_sessions_benign _ _ Hheap Htable (ticks_resume t r (world s)))
        as [Hb Hok].
      apply (system_ok_stay i t _ c
               {| world := (resume t r (world s)).2; turns := turns s |}); try done.
      apply system_ok_benign; [done|by apply Hok, (sys_store _ Hs)|done].
    - rewrite Hfin. simpl. by apply (finish_ok i t c). }
  destruct t; try discriminate; cbv beta iota zeta delta [resume]; intros Hn.
  - (* the probe *)
    assert (reference_ok (world s) c) as Href by (by apply (sys_refs _ Hs i _ c Hi)).
    destruct (download_after_head _); replace_turn.
  - (* the retrieval *)
    assert (reference_ok (world s) c) as Href by (by apply (sys_refs _ Hs i _ c Hi)).
    destruct (as_get r) as [res|e]; [destruct (download_after_get res)|];
      replace_turn.
  - (* the body: a failure, or the store and the ready check *)
    assert (reference_ok (world s) c) as Href by (by apply (sys_refs _ Hs i _ c Hi)).
    destruct (as_buffer r) as [buf|e];
      [destruct (download_finish p res buf) as [img|e]|];
      try replace_turn.
    unfold mbind, Sync_bind in *.
    pose proof (store_media_benign c imageType img (world s) (sys_store _ Hs)) as Hsm.
    destruct (store_media c imageType img (world s)) as [[] w1]; simpl in *.
    pose proof (ticks_ready_check c w1) as Hlt.
    destruct Hsm as [Hok Hb]; [lia|].
    apply (ready_check_ok i c {| world := w1; turns := turns s |}).
    + by apply system_ok_benign.
    + by apply (reference_ok_benign (world s)).
    + done.
  - (* the tip *)
    apply ready_check_ok; [done| |done]. by apply (sys_refs _ Hs i _ c Hi).
  - (* the guidance *)
    replace_turn.
  - replace_turn.
Qed.

Lemma insert_last (ts : list Turn) (t t' : Turn) :
  <[List.length ts := t']> (ts ++ [t])%list = (ts ++ [t'])%list.
Proof.
  rewrite insert_app_r_alt by lia. by rewrite Nat.sub_diag.
Qed.

(** The arrival of a request keeps the system in order. *)
Lemma arrive_ok (s : System) (req : Request) :
  system_ok s -> (ticks (world (sys_step s (Arrive req))) <= N)%nat ->
  system_ok (sys_step s (Arrive req)).
Proof.
  intros Hs. unfold sys_step, inbound.
  destruct (negb (truthy_str (req_from req))).
  { simpl. intros _. by apply system_ok_append. }
  unfold mbind, Sync_bind, read.
  set (u := default "" (req_from req)).
  pose proof (getSession_benign u (world s) (sys_store _ Hs)) as Hget.
  destruct (getSession u (world s)) as [l w1]; simpl in *.
  set (c := {| userPhone := u; text := req_text req; mediaUrl := req_mediaUrl req;
               session := l; protocol := req_protocol req; host := req_host req |}).
  pose proof (ticks_ready_check c w1) as Hlt.
  assert ((ticks w1 <= N)%nat ->
          system_ok {| world := w1; turns := turns s |} /\ reference_ok w1 c) as Hfirst.
  { intros Hn. destruct (Hget Hn) as (Hok & Hb & Hentry).
    split; [by apply system_ok_benign|by left]. }
  assert ((ticks (ready_check c w1).2 <= N)%nat ->
          system_ok
            {| world := (ready_check c w1).2;
               turns := (turns s ++ [(ready_check c w1).1])%list |})
    as Hready.
  { intros Hn. destruct Hfirst as [Hs1 Href]; [lia|].
    rewrite <- (insert_last (turns s) (AwaitTip c "")).
    apply (ready_check_ok (List.length (turns s)) c
             {| world := w1; turns := (turns s ++ [AwaitTip c ""])%list |}); [|done|done].
    apply (system_ok_append (AwaitTip c "") {| world := w1; turns := turns s |});
      [done|done|]. by intros ? _ [= <-]. }
  destruct (classify _ _ _) as [imageType|];
    [destruct (truthy_str (req_mediaUrl req))|].
  - simpl. intros Hn. destruct (Hfirst Hn) as [Hs1 Href].
    apply (system_ok_append _ {| world := w1; turns := turns s |});
      [done|done|]. by intros ? _ [= <-].
  - by destruct (ready_check c w1).
  - by destruct (ready_check c w1).
Qed.

Lemma system_ok_initial : system_ok initial_system.
Proof.
  split; unfold one_generation_per_user, flag_set_while_generating; simpl.
  - apply store_ok_initial.
  - intros i t c Hi. by rewrite lookup_nil in Hi.
  - intros i j ti tj ci cj Hi. by rewrite lookup_nil in Hi.
  - intros i t c Hi. by rewrite lookup_nil in Hi.
Qed.

Lemma sys_run_ok (es : list Event) (s : System) :
  system_ok s -> (ticks (world (sys_run es s)) <= N)%nat -> system_ok (sys_run es s).
Proof.
  revert s. induction es as [|e es IH]; intros s Hs Hn; [done|].
  simpl in *. pose proof (ticks_sys_run es (sys_step s e)) as Hlt.
  apply IH; [|done].
  destruct e; [apply arrive_ok|apply settle_ok]; try done; unfold sys_run in *; lia.
Qed.

End WithinTTL.
End ExclusionFacts.

Section LockFacts.
Context `{Env}.

(** The segment that passes the ready check leaves the flag set in the
    user's session when it suspends, on any clock. *)
Lemma ready_check_sets_flag (c : Locals) (w : World) :
  well_formed w ->
  in_generation (ready_check c w).1 = true ->
  exists o, session_of (ready_check c w).2 (userPhone c) = Some o /\ inProgress o = true.
Proof.
  intros Hwf.
  destruct (ready_check_cases c w) as [(sf & cl & o & _ & _ & _ & _ & ->)|[_ ->]]; simpl.
  - intros _.
    destruct (updateSession_session (userPhone c) (PatchInProgress true) w Hwf)
      as (o' & t & Hs & _).
    eexists. split; [exact Hs|reflexivity].
  - by destruct (guidance_unfold c w) as [m ->].
Qed.

Lemma one_generation_no_concurrent (s : System) :
  one_generation_per_user s -> no_concurrent_generation s.
Proof.
  intros Hone i j ti tj ci cj Hi Hj Hgi Hgj. apply (Hone i j ti tj ci cj); try done.
  - by destruct ti.
  - by destruct tj.
Qed.

End LockFacts.

(** Two turns of one user with a backend call in flight contradict the
    exclusion. *)
Lemma two_generating (s : System) (i j : nat) (user : string) :
  i <> j ->
  generating <$> turns s !! i = Some true ->
  generating <$> turns s !! j = Some true ->
  userPhone <$> (turns s !! i ≫= turn_locals) = Some user ->
  userPhone <$> (turns s !! j ≫= turn_locals) = Some user ->
  ~ no_concurrent_generation s.
Proof.
  intros Hne Hgi Hgj Hui Huj Hno.
  destruct (turns s !! i) as [ti|] eqn:Hi; [|done].
  destruct (turns s !! j) as [tj|] eqn:Hj; [|done].
  simpl in *.
  destruct (turn_locals ti) as [ci|] eqn:Hci; [|done].
  destruct (turn_locals tj) as [cj|] eqn:Hcj; [|done].
  simpl in *.
  apply Hne, (Hno i j ti tj ci cj); congruence.
Qed.


(** The plain case of the same failure: the user, with no answer after
    eleven minutes, sends both pictures again, and the second clothing
    picture starts a second call while the first is in flight. *)
Lemma resend_generates_too :
  let s := @sys_run (jump_env 13) resend_after_ttl initial_system in
  map generating (turns s) = [false; true; false; true] /\
  ~ no_concurrent_generation s.
Proof.
  intros s. split; [vm_compute; reflexivity|].
  apply (two_generating s 1 3 "447700900123");
    [discriminate|vm_compute; reflexivity..].
Qed.

(** *** Runs in which no access finds a session expired *)

Section LongerTTL.
Context `{E : Env}.
Variable ttl : Z.
Hypothesis longer : SESSION_TTL_MS <= ttl.

(** An access that does not find the session expired is the same under
    any longer TTL. *)
Lemma getSession_longer_ttl (u : string) (w : World) :
  finds_expired u w = false ->
  @getSession (with_ttl E ttl) u w = getSession u w.
Proof.
  intros Hlive.
  rewrite (@getSession_unfold (with_ttl E ttl)), (@getSession_unfold E).
  unfold finds_expired in Hlive.
  destruct (userSessions w !! u) as [l|]; [|done].
  rewrite lastUpdated_or_0_id in Hlive. simpl.
  assert ((Date_now (ticks w) - lastUpdated (heap w !!! l) >? ttl) = false) as -> by lia.
  by rewrite Hlive.
Qed.

Lemma updateSession_longer_ttl (u : string) (patch : Patch) (w : World) :
  finds_expired u w = false ->
  @updateSession (with_ttl E ttl) u patch w = updateSession u patch w.
Proof.
  intros Hlive.
  rewrite (@updateSession_unfold (with_ttl E ttl)), (@updateSession_unfold E).
  by rewrite (getSession_longer_ttl u w Hlive).
Qed.

Lemma store_media_longer_ttl (c : Locals) (imageType : Slot) (img : Download) (w : World) :
  Forall (fun access => finds_expired access.1 access.2 = false)
         (store_media_accesses c imageType w) ->
  @store_media (with_ttl E ttl) c imageType img w = store_media c imageType img w.
Proof.
  intros Hlive.
  rewrite (@store_media_unfold (with_ttl E ttl)), (@store_media_unfold E). cbv zeta.
  unfold store_media_accesses in Hlive.
  destruct (decide (imageType = Selfie)) as [->|Hne].
  - apply Forall_cons in Hlive as [H1 Hlive]. apply Forall_cons in Hlive as [H2 _].
    simpl in H1, H2.
    rewrite (updateSession_longer_ttl _ _ w H1).
    by rewrite (updateSession_longer_ttl _ _ _ H2).
  - apply Forall_cons in Hlive as [H1 _]. simpl in H1.
    by rewrite (updateSession_longer_ttl _ _ _ H1).
Qed.

Lemma guidance_longer_ttl (c : Locals) (w : World) :
  finds_expired (userPhone c) w = false ->
  @guidance (with_ttl E ttl) c w = guidance c w.
Proof.
  intros Hlive. unfold guidance, mbind, Sync_bind.
  by rewrite (getSession_longer_ttl _ w Hlive).
Qed.

Lemma ready_check_longer_ttl (c : Locals) (w : World) :
  finds_expired (userPhone c) w = false ->
  @ready_check (with_ttl E ttl) c w = ready_check c w.
Proof.
  intros Hlive. unfold ready_check, mbind, Sync_bind, read.
  destruct (selfie (heap w !!! session c)); [|by apply guidance_longer_ttl].
  destruct (clothing (heap w !!! session c)); [|by apply guidance_longer_ttl].
  destruct (inProgress (heap w !!! session c)); [by apply guidance_longer_ttl|].
  by rewrite (updateSession_longer_ttl _ _ w Hlive).
Qed.

Lemma finish_generation_longer_ttl (c : Locals) (w : World) :
  finds_expired (userPhone c) (resetSession (userPhone c) w).2 = false ->
  @finish_generation (with_ttl E ttl) c w = finish_generation c w.
Proof.
  intros Hlive.
  rewrite (@finish_generation_unfold (with_ttl E ttl)), (@finish_generation_unfold E).
  cbv zeta.
  change (@resetSession (with_ttl E ttl) (userPhone c) w) with (resetSession (userPhone c) w).
  by rewrite (getSession_longer_ttl _ _ Hlive).
Qed.

Lemma resume_longer_ttl (t : Turn) (r : ExtResult) (w : World) :
  Forall (fun access => finds_expired access.1 access.2 = false) (resume_accesses t r w) ->
  @resume (with_ttl E ttl) t r w = resume t r w.
Proof.
  intros Hlive. destruct t; cbv beta iota zeta delta [resume]; simpl in Hlive;
    try reflexivity.
  - change (@download_finish (with_ttl E ttl)) with (@download_finish E).
    destruct (as_buffer r) as [buf|]; [|reflexivity].
    destruct (download_finish p res buf) as [img|]; [|reflexivity].
    apply Forall_app in Hlive as [Hstore Hready].
    apply Forall_cons in Hready as [Hready _]. simpl in Hready.
    unfold mbind, Sync_bind.
    rewrite (store_media_longer_ttl c imageType img w Hstore).
    destruct (store_media c imageType img w) as [[] w1]. simpl in Hready.
    by apply ready_check_longer_ttl.
  - apply Forall_cons in Hlive as [Hready _]. by apply ready_check_longer_ttl.
  - destruct (rejected r); [reflexivity|].
    apply Forall_cons in Hlive as [Hfin _]. by apply finish_generation_longer_ttl.
  - destruct (rejected r); [reflexivity|].
    apply Forall_cons in Hlive as [Hfin _]. by apply finish_generation_longer_ttl.
  - apply Forall_cons in Hlive as [Hfin _]. by apply finish_generation_longer_ttl.
  - apply Forall_cons in Hlive as [Hfin _]. by apply finish_generation_longer_ttl.
Qed.

Lemma inbound_longer_ttl (req : Request) (w : World) :
  Forall (fun access => finds_expired access.1 access.2 = false) (inbound_accesses req w) ->
  @inbound (with_ttl E ttl) req w = inbound req w.
Proof.
  unfold inbound, inbound_accesses.
  destruct (negb (truthy_str (req_from req))); [done|].
  cbv zeta. intros Hlive. apply Forall_cons in Hlive as [Hfirst Hlive]. simpl in Hfirst.
  unfold mbind, Sync_bind, read.
  rewrite (getSession_longer_ttl _ w Hfirst).
  destruct (getSession (default "" (req_from req)) w) as [l w1]. simpl in *.
  destruct (classify _ _ _) as [imageType|].
  - destruct (truthy_str (req_mediaUrl req)); [reflexivity|].
    apply Forall_cons in Hlive as [Hready _]. by apply ready_check_longer_ttl.
  - apply Forall_cons in Hlive as [Hready _]. by apply ready_check_longer_ttl.
Qed.

Lemma sys_step_longer_ttl (s : System) (e : Event) :
  Forall (fun access => finds_expired access.1 access.2 = false) (sys_step_accesses s e) ->
  @sys_step (with_ttl E ttl) s e = sys_step s e.
Proof.
  intros Hlive. destruct e as [req|i r]; simpl in *.
  - by rewrite (inbound_longer_ttl req (world s) Hlive).
  - destruct (turns s !! i) as [t|]; [|done].
    by rewrite (resume_longer_ttl t r (world s) Hlive).
Qed.

(** A run in which no access finds a session expired is the run under
    any longer TTL. *)
Lemma sys_run_longer_ttl (es : list Event) (s : System) :
  Forall (fun access => finds_expired access.1 access.2 = false) (sys_run_accesses es s) ->
  @sys_run (with_ttl E ttl) es s = sys_run es s.
Proof.
  revert s. induction es as [|e es IH]; intros s Hlive; [done|].
  simpl in Hlive. apply Forall_app in Hlive as [Hstep Hrest].
  change (@sys_run (with_ttl E ttl) es (@sys_step (with_ttl E ttl) s e) =
          sys_run es (sys_step s e)).
  rewrite (sys_step_longer_ttl s e Hstep). by apply IH.
Qed.

End LongerTTL.

(** Finitely many readings are within some distance of each other. *)
Lemma readings_bounded (f : nat -> nat -> Z) (N : nat) :
  exists b, forall m n, (m < N)%nat -> (n < N)%nat -> f m n <= b.
Proof.
  assert (forall (g : nat -> Z) K, exists b, forall m, (m < K)%nat -> g m <= b) as Hone.
  { intros g K. induction K as [|K [b Hb]].
    - exists 0. intros m Hm. lia.
    - exists (Z.max b (g K)). intros m Hm.
      destruct (decide (m = K)) as [->|Hne]; [lia|].
      specialize (Hb m ltac:(lia)). lia. }
  induction N as [|N [b Hb]].
  - exists 0. intros m n Hm. lia.
  - destruct (Hone (fun m => f m N) (S N)) as [b1 Hb1].
    destruct (Hone (fun n => f N n) (S N)) as [b2 Hb2].
    exists (Z.max b (Z.max b1 b2)). intros m n Hm Hn.
    destruct (decide (n = N)) as [->|Hn'].
    + specialize (Hb1 m Hm). simpl in Hb1. lia.
    + destruct (decide (m = N)) as [->|Hm'].
      * specialize (Hb2 n Hn). simpl in Hb2. lia.
      * specialize (Hb m n ltac:(lia) ltac:(lia)). lia.
Qed.


Lemma forallb_Forall_false {A : Type} (f : A -> bool) (l : list A) :
  forallb (fun x => negb (f x)) l = true -> Forall (fun x => f x = false) l.
Proof.
  induction l as [|x l IH]; simpl; [constructor|].
  rewrite andb_true_iff, negb_true_iff. intros [Hx Hl]. constructor; auto.
Qed.


(** ** The scenarios of the design, run on the model *)

(** A: a selfie with its caption fills the selfie slot. *)
Example scenario_selfie_stored :
  let s := @sys_run steady_env (firstn 5 two_pictures) initial_system in
  turns s = [Finished 200] /\
  (fun o => (held (selfie o), held (clothing o), inProgress o))
    <$> session_of (world s) "447700900123" = Some (true, false, false).
Proof. vm_compute. split; reflexivity. Qed.

(** B: the unlabelled picture that follows is taken as the clothing,
    the generation starts, and on success one message is sent and the
    session is empty again. *)
Example scenario_generation_delivered :
  let ready := @sys_run steady_env two_pictures initial_system in
  let done := @sys_run steady_env (two_pictures ++ generation_succeeds) initial_system in
  map generating (turns ready) = [false; true] /\
  turns done = [Finished 200; Finished 200] /\
  (fun o => (held (selfie o), held (clothing o), inProgress o))
    <$> session_of (world done) "447700900123" = Some (false, false, false).
Proof. vm_compute. repeat split; reflexivity. Qed.

(** C: a WEBP picture is refused with the tip for that format and the
    slots stay as they were. *)
Example scenario_webp_refused :
  let s := @sys_run steady_env
             ([Arrive (unlabelled "https://media.example/shirt.webp")] ++
              fetched 0 "image/webp") initial_system in
  turns s = [AwaitTip {| userPhone := "447700900123"; text := None;
                         mediaUrl := Some "https://media.example/shirt.webp";
                         session := 0; protocol := "https"; host := "tryon.example" |}
               "That looks like a WEBP. Please resend as PNG or JPEG."] /\
  (fun o => (held (selfie o), held (clothing o), inProgress o))
    <$> session_of (world s) "447700900123" = Some (false, false, false).
Proof. vm_compute. split; reflexivity. Qed.

(** D: no image on the stream and none on the fallback: the apology is
    sent, nothing is written, and the session is empty again. *)
Example scenario_no_image :
  let s := @sys_run steady_env (two_pictures ++ generation_blocked) initial_system in
  let calls := (@run steady_env
                  (AwaitStream (example_locals 0)
                     (build_request {| data := "0"; mime := "image/jpeg"; ts := 0 |}
                                    {| data := "0"; mime := "image/png"; ts := 0 |}))
                  [RespStream [blocked_response]; RespFull blocked_response; Fulfilled]
                  initial_world).1.1 in
  turns s = [Finished 200; Finished 200] /\
  (fun o => (held (selfie o), held (clothing o), inProgress o))
    <$> session_of (world s) "447700900123" = Some (false, false, false) /\
  sends calls = [PlainText "447700900123" (Some "TryOn") apology] /\
  List.length (full_calls calls) = 1%nat /\
  Forall (fun call => match call with WriteFile _ _ => False | _ => True end) calls.
Proof. vm_compute. repeat split; try reflexivity. repeat constructor. Qed.

(** ** The search for inline data, by where it looks *)

Lemma findInlineData_arr (items : list JsVal) :
  findInlineData (JArr items) = first_found findInlineData items.
Proof.
  simpl.
  set (in_items := fix in_items (l : list JsVal) : option JsVal :=
         match l with
         | [] => None
         | it :: l' =>
             match findInlineData it with Some f => Some f | None => in_items l' end
         end).
  assert (forall l, in_items l = first_found findInlineData l) as Heq.
  { induction l as [|x l IH]; simpl; [done|]. by rewrite IH. }
  rewrite Heq. by destruct (first_found _ _).
Qed.

Lemma findInlineData_obj (fields : list (string * JsVal)) :
  findInlineData (JObj fields) =
  match own_payload (JObj fields) with
  | Some p => Some p
  | None => first_found (fun kv => findInlineData kv.2) fields
  end.
Proof.
  simpl.
  set (in_fields := fix in_fields (fs : list (string * JsVal)) : option JsVal :=
         match fs with
         | [] => None
         | (_, v) :: fs' =>
             match findInlineData v with Some f => Some f | None => in_fields fs' end
         end).
  assert (forall l, in_fields l = first_found (fun kv => findInlineData kv.2) l) as Heq.
  { induction l as [|[k x] l IH]; simpl; [done|]. by rewrite IH. }
  rewrite Heq.
  destruct (truthy (get_prop (assoc "inlineData" fields) "data")); [done|].
  by destruct (truthy (get_prop (assoc "inline_data" fields) "data")).
Qed.

Lemma first_found_Some {A : Type} (f : A -> option JsVal) (l : list A) (r : JsVal) :
  first_found f l = Some r -> exists x, In x l /\ f x = Some r.
Proof.
  induction l as [|x l IH]; simpl; [done|].
  destruct (f x) eqn:Hx.
  - intros [= ->]. eauto.
  - intros Hr. destruct (IH Hr) as (y & Hy & Hfy). eauto.
Qed.

Lemma first_found_None {A : Type} (f : A -> option JsVal) (l : list A) :
  first_found f l = None <-> forall x, In x l -> f x = None.
Proof.
  induction l as [|x l IH]; simpl.
  - split; [by intros _ x []|done].
  - destruct (f x) eqn:Hx.
    + split; [done|]. intros Hall. rewrite <- Hx. apply Hall. by left.
    + rewrite IH. split.
      * intros Hall y [<-|Hy]; auto.
      * intros Hall y Hy. apply Hall. by right.
Qed.

Lemma first_found_app {A : Type} (f : A -> option JsVal) (l1 l2 : list A) :
  first_found f (l1 ++ l2)%list =
  match first_found f l1 with Some r => Some r | None => first_found f l2 end.
Proof.
  induction l1 as [|x l1 IH]; simpl; [by destruct (first_found f l2)|].
  by destruct (f x).
Qed.

Lemma findInlineData_sound (root p : JsVal) :
  findInlineData root = Some p -> exists o, inside o root /\ own_payload o = Some p.
Proof.
  revert p. induction root as [| | | | |items IH|fields IH] using JsVal_nested_ind;
    intros p; try discriminate.
  - rewrite findInlineData_arr. intros Hf.
    destruct (first_found_Some _ _ _ Hf) as (x & Hx & Hfx).
    rewrite Forall_forall in IH.
    destruct (IH x (proj2 (list_elem_of_In _ _) Hx) p Hfx) as (o & Ho & Hp).
    exists o. split; [|done]. by apply inside_item with x.
  - rewrite findInlineData_obj.
    destruct (own_payload (JObj fields)) as [q|] eqn:Hown.
    + intros [= <-]. exists (JObj fields). split; [constructor|done].
    + intros Hf. destruct (first_found_Some _ _ _ Hf) as ([k x] & Hx & Hfx).
      rewrite Forall_forall in IH.
      destruct (IH (k, x) (proj2 (list_elem_of_In _ _) Hx) p Hfx) as (o & Ho & Hp).
      exists o. split; [|done]. by apply inside_field with k x.
Qed.

Lemma findInlineData_complete (root o : JsVal) :
  inside o root -> is_Some (own_payload o) -> is_Some (findInlineData root).
Proof.
  intros Hin Hown. induction Hin as [|x items Hx Hin IH|k x fields Hx Hin IH].
  - destruct o; try (by destruct Hown as [? [=]]).
    rewrite findInlineData_obj. destruct Hown as [q ->]. eauto.
  - rewrite findInlineData_arr.
    destruct (first_found findInlineData items) eqn:Hf; [eauto|].
    rewrite first_found_None in Hf. rewrite (Hf x Hx) in IH. by destruct IH.
  - rewrite findInlineData_obj.
    destruct (own_payload (JObj fields)); [eauto|].
    destruct (first_found _ fields) eqn:Hf; [eauto|].
    rewrite first_found_None in Hf. specialize (Hf (k, x) Hx). simpl in Hf.
    rewrite Hf in IH. by destruct IH.
Qed.

(** X1.  [findInlineData] finds inline data exactly when some object
    anywhere in the value (the value itself, an array element or a field
    value, at any depth) carries [inlineData] or [inline_data] with
    truthy [data]; what it returns is the payload of such an object, and
    the payload of the value itself when it has one. *)
Theorem findInlineData_searches_everywhere (root : JsVal) :
  (is_Some (findInlineData root) <->
   exists o, inside o root /\ is_Some (own_payload o)) /\
  (forall p, findInlineData root = Some p ->
             exists o, inside o root /\ own_payload o = Some p) /\
  (forall p, own_payload root = Some p -> findInlineData root = Some p).
Proof.
  split; [split|split].
  - intros [p Hp]. destruct (findInlineData_sound _ _ Hp) as (o & Ho & Hown). eauto.
  - intros (o & Ho & Hown). by apply findInlineData_complete with o.
  - apply findInlineData_sound.
  - intros p Hown. destruct root; try discriminate.
    by rewrite findInlineData_obj, Hown.
Qed.

Lemma append_empty_r (s : string) : s +:+ "" = s.
Proof.
  induction s as [|c s IH]; [done|].
  change (String c (s +:+ "") = String c s). by rewrite IH.
Qed.

Lemma append_assoc (a b c : string) : (a +:+ b) +:+ c = a +:+ b +:+ c.
Proof.
  induction a as [|x a IH]; [done|].
  change (String x ((a +:+ b) +:+ c) = String x (a +:+ b +:+ c)). by rewrite IH.
Qed.

Lemma collect_loop_text (events : list JsVal) (acc : Collected) :
  collected_text (collect_loop events acc) =
  collected_text acc +:+ String.concat "" (map text_of events).
Proof.
  revert acc. induction events as [|ev events IH]; intros acc; simpl.
  - by rewrite append_empty_r.
  - rewrite IH; simpl. rewrite append_assoc. f_equal.
    destruct events; simpl; [by rewrite append_empty_r|done].
Qed.

Lemma collect_loop_first_found (events : list JsVal) (acc : Collected) :
  imagePart (collect_loop events acc) =
  match imagePart acc with
  | Some ip => Some ip
  | None => first_found findInlineData events
  end.
Proof.
  revert acc. induction events as [|ev events IH]; intros acc; simpl.
  - by destruct (imagePart acc).
  - rewrite IH; simpl.
    destruct (imagePart acc); [by destruct (findInlineData ev)|].
    by destruct (findInlineData ev).
Qed.

Lemma concat_texts_app (l1 l2 : list string) :
  String.concat "" (l1 ++ l2)%list = String.concat "" l1 +:+ String.concat "" l2.
Proof.
  induction l1 as [|x l1 IH]; simpl; [done|].
  destruct l1 as [|y l1]; simpl in *.
  - destruct l2; simpl; [by rewrite append_empty_r|done].
  - rewrite IH. by rewrite append_assoc.
Qed.

(** X2.  [collectFromStream] returns the texts of all events joined in
    order, those after the image included, and the inline data of the
    first event that has any; over a stream in two pieces the texts join
    and the image is the one of the first piece when it has one. *)
Theorem collectFromStream_result (events more : list JsVal) :
  collected_text (collectFromStream events) = String.concat "" (map text_of events) /\
  imagePart (collectFromStream events) = first_found findInlineData events /\
  collected_text (collectFromStream (events ++ more)%list) =
    collected_text (collectFromStream events) +:+ collected_text (collectFromStream more) /\
  imagePart (collectFromStream (events ++ more)%list) =
    match imagePart (collectFromStream events) with
    | Some ip => Some ip
    | None => imagePart (collectFromStream more)
    end.
Proof.
  unfold collectFromStream.
  rewrite !collect_loop_text, !collect_loop_first_found; simpl.
  repeat split; [|apply first_found_app].
  by rewrite map_app, concat_texts_app.
Qed.

(** ** Reading the webhook body *)

Lemma first_present_nullish (vs : list JsVal) :
  nullish (first_present vs) = true -> forall v, In v vs -> nullish v = true.
Proof.
  induction vs as [|x vs IH]; simpl; [by intros _ v []|].
  destruct (nullish x) eqn:Hx.
  - intros Hn v [<-|Hv]; auto.
  - intros Hn. congruence.
Qed.

Lemma first_present_app (vs ws : list JsVal) (v : JsVal) :
  In v vs -> nullish v = false ->
  first_present (vs ++ ws)%list = first_present vs.
Proof.
  induction vs as [|x vs IH]; simpl; [by intros []|].
  destruct (nullish x) eqn:Hx; [|done].
  intros [->|Hv] Hn; [congruence|auto].
Qed.

(** X3.  [extractText] and [extractMediaUrl] return the first value that
    is neither [null] nor [undefined] among their places, read in the
    order of the source, and [null] when there is none; for the media
    URL every image place comes before every file place, so a message
    with an image URL anywhere gets it whatever its file fields hold.
    A value that is falsy but present, such as the empty string, is
    returned and not skipped. *)
Theorem extract_first_present (msg : JsVal) :
  extractText msg = first_present (map (path msg) text_paths) /\
  extractMediaUrl msg = first_present (map (path msg) (image_paths ++ file_paths)%list) /\
  (nullish (extractMediaUrl msg) = true ->
   extractMediaUrl msg = JNull /\
   forall p, In p (image_paths ++ file_paths)%list -> nullish (path msg p) = true) /\
  (forall p, In p image_paths -> nullish (path msg p) = false ->
             extractMediaUrl msg = first_present (map (path msg) image_paths)).
Proof.
  assert (extractMediaUrl msg =
          first_present (map (path msg) (image_paths ++ file_paths)%list)) as Hmedia.
  { unfold extractMediaUrl, coalesce, image_paths, file_paths. cbn [map app first_present].
    repeat match goal with
           | |- context [nullish (path msg ?p)] =>
               let E := fresh in
               destruct (nullish (path msg p)) eqn:E; cbv iota;
               repeat (rewrite E; cbv iota); try reflexivity
           end. }
  split; [|split; [done|split]].
  - unfold extractText, coalesce, text_paths. cbn [map first_present].
    repeat match goal with
           | |- context [nullish (path msg ?p)] =>
               let E := fresh in
               destruct (nullish (path msg p)) eqn:E; cbv iota;
               repeat (rewrite E; cbv iota); try reflexivity
           end.
  - rewrite Hmedia. intros Hn. split.
    + clear Hmedia. revert Hn.
      generalize (map (path msg) (image_paths ++ file_paths)%list) as vs.
      induction vs as [|x vs IH]; simpl; [done|].
      destruct (nullish x) eqn:Hx; [done|congruence].
    + intros p Hp. apply (first_present_nullish _ Hn). by apply in_map.
  - intros p Hp Hn. rewrite Hmedia, map_app.
    apply first_present_app with (path msg p); [by apply in_map|done].
Qed.

(** ** Webhook authentication *)

Lemma no_space_cons (c : ascii) (s : string) :
  no_space (String c s) <-> c <> " "%char /\ no_space s.
Proof.
  unfold no_space; simpl. split.
  - intros Hn. split; [intros ->; apply Hn; by left|intros Hs; apply Hn; by right].
  - intros [Hc Hs] [Heq|Hin]; [by apply Hc|by apply Hs].
Qed.

Lemma split_space_cases (s : string) :
  (no_space s /\ split_space s = [s]) \/
  exists a rest, s = a +:+ String " " rest /\ no_space a /\
                 split_space s = a :: split_space rest.
Proof.
  induction s as [|c s IH].
  - left. split; [by intros []|done].
  - simpl. destruct (Ascii.eqb_spec c " ") as [->|Hc].
    + right. exists "", s. repeat split. by intros [].
    + destruct IH as [[Hs ->]|(a & rest & -> & Ha & ->)].
      * left. split; [by apply no_space_cons|done].
      * right. exists (String c a), rest. repeat split. by apply no_space_cons.
Qed.

Lemma split_space_word (a : string) : no_space a -> split_space a = [a].
Proof.
  induction a as [|c a IH]; [done|].
  rewrite no_space_cons. intros [Hc Ha]. simpl.
  destruct (Ascii.eqb_spec c " ") as [->|_]; [done|]. by rewrite IH.
Qed.

Lemma split_space_app (a rest : string) :
  no_space a -> split_space (a +:+ String " " rest) = a :: split_space rest.
Proof.
  induction a as [|c a IH]; [done|].
  rewrite no_space_cons. intros [Hc Ha].
  change (split_space (String c (a +:+ String " " rest)) = String c a :: split_space rest).
  simpl. destruct (Ascii.eqb_spec c " ") as [->|_]; [done|]. by rewrite IH.
Qed.

(** The second component of [header.split(" ")]. *)
Lemma split_space_second (header token : string) :
  split_space header !! 1%nat = Some token <->
  exists scheme tail,
    header = scheme +:+ " " +:+ token +:+ tail /\
    no_space scheme /\ no_space token /\
    (tail = "" \/ exists t, tail = String " " t).
Proof.
  split.
  - intros Hl. destruct (split_space_cases header) as [[_ Hs]|(a & rest & -> & Ha & Hs)];
      rewrite Hs in Hl; [done|]. simpl in Hl.
    destruct (split_space_cases rest) as [[Hr Hs']|(b & rest' & -> & Hb & Hs')];
      rewrite Hs' in Hl; injection Hl as <-.
    + exists a, "". rewrite append_empty_r. auto.
    + exists a, (String " " rest'). eauto 6.
  - intros (scheme & tail & -> & Hs & Ht & Htail).
    change (scheme +:+ " " +:+ token +:+ tail)
      with (scheme +:+ String " " (token +:+ tail)).
    rewrite split_space_app by done. simpl.
    destruct Htail as [->|[t ->]].
    + by rewrite append_empty_r, split_space_word.
    + by rewrite split_space_app.
Qed.

Section MiddlewareFacts.
Context `{Access}.

(** X4.  The middleware hands a request on exactly when verification is
    switched off ([SKIP_VONAGE_JWT] is the string true) or the
    [Authorization] header has a non-empty second space-separated
    component that [verifySignature] accepts with the configured secret;
    the first component (the scheme) is not examined.  In every other
    case, a throwing [verifySignature] included, it answers 401. *)
Theorem gate_opens_iff (authorization : option string) :
  verifyWebhookSignature authorization = Next <->
  SKIP_VONAGE_JWT = Some "true" \/
  exists scheme token tail,
    authorization = Some (scheme +:+ " " +:+ token +:+ tail) /\
    no_space scheme /\ no_space token /\ token <> "" /\
    (tail = "" \/ exists t, tail = String " " t) /\
    verifySignature token VONAGE_API_SIGNATURE_SECRET = Ok true.
Proof.
  unfold verifyWebhookSignature.
  destruct (decide (SKIP_VONAGE_JWT = Some "true")) as [Hskip|Hskip];
    [split; [by left|done]|].
  split.
  - destruct authorization as [header|]; simpl; [|done].
    destruct (split_space header !! 1%nat) as [token|] eqn:Hsplit; simpl; [|done].
    destruct token as [|c token]; simpl; [done|].
    destruct (verifySignature _ _) as [[]|] eqn:Hv; try done. intros _. right.
    apply split_space_second in Hsplit as (scheme & tail & -> & Hs & Ht & Htail).
    exists scheme, (String c token), tail. repeat split; auto.
  - intros [Hs|(scheme & token & tail & -> & Hs & Ht & Hne & Htail & Hv)]; [done|].
    simpl.
    assert (split_space (scheme +:+ " " +:+ token +:+ tail) !! 1%nat = Some token) as ->.
    { apply split_space_second. eauto 6. }
    simpl. destruct token; [done|]. simpl. by rewrite Hv.
Qed.

End MiddlewareFacts.

(** ** The store, whatever the clock does *)

Section SoundFacts.
Context `{Env}.

Lemma touches_refl (u : string) (w : World) : touches u w w.
Proof. by split. Qed.

Lemma advance_trans (u : string) (w w1 w2 : World) :
  advance u w w1 -> advance u w1 w2 -> advance u w w2.
Proof.
  intros [_ [Hg1 Ho1]] [Hs2 [Hg2 Ho2]]. split; [done|]. split; [lia|].
  intros v Hv. by rewrite Ho2, Ho1.
Qed.

Lemma sound_tick (w : World) : sound w -> sound (tick w).
Proof. intros [Ht Hi Ha]. by split. Qed.

Lemma advance_tick (u : string) (w : World) : sound w -> advance u w (tick w).
Proof. intros Hs. split; [by apply sound_tick|by split]. Qed.

Lemma advance_assign_entry (u : string) (s : Session) (w : World) :
  session_ok s -> sound w -> advance u w (assign_entry u s w).2.
Proof.
  intros Hs [Ht Hi Ha]. split; split.
  - by apply well_formed_assign_entry.
  - unfold assign_entry; simpl. intros u1 u2 l.
    destruct (decide (u = u1)) as [<-|Hne1], (decide (u = u2)) as [<-|Hne2];
      rewrite ?lookup_insert_eq, ?lookup_insert_ne by done; try done.
    + intros [= <-] Hl. apply Ht in Hl. lia.
    + intros Hl [= <-]. apply Ht in Hl. lia.
    + apply Hi.
  - unfold assign_entry; simpl. intros l o Hl.
    apply lookup_app_Some in Hl as [Hl|[_ Hl]]; [by apply Ha in Hl|].
    destruct (l - _)%nat; [|done]. by injection Hl as <-.
  - unfold assign_entry; simpl. rewrite length_app. lia.
  - intros v Hv. unfold session_of, assign_entry; simpl.
    rewrite lookup_insert_ne by done.
    destruct (userSessions w !! v) as [l|] eqn:Hl; simpl; [|done].
    apply lookup_app_l. by apply Ht in Hl.
Qed.

Lemma advance_write (u : string) (l : nat) (f : Session -> Session) (w : World) :
  userSessions w !! u = Some l ->
  (forall o, session_ok o -> session_ok (f o)) ->
  sound w -> advance u w (write l f w).2.
Proof.
  intros Hu Hf [Ht Hi Ha]. split; split.
  - by apply well_formed_write.
  - done.
  - unfold write; simpl. intros l' o.
    destruct (decide (l = l')) as [<-|Hne].
    + rewrite list_lookup_alter_eq.
      destruct (heap w !! l) as [o0|] eqn:Hl; simpl; [|done].
      intros [= <-]. eauto.
    + rewrite list_lookup_alter_ne by done. apply Ha.
  - unfold write; simpl. by rewrite length_alter.
  - intros v Hv. unfold session_of, write; simpl.
    destruct (userSessions w !! v) as [l'|] eqn:Hl; simpl; [|done].
    apply list_lookup_alter_ne. intros <-. apply Hv. by apply (Hi v u l).
Qed.

Lemma session_ok_new (t : Z) : session_ok (new_session t).
Proof. by split. Qed.

Lemma advance_getSession (u : string) (w : World) :
  sound w ->
  advance u w (getSession u w).2 /\
  userSessions (getSession u w).2 !! u = Some (getSession u w).1 /\
  ((getSession u w).1 < List.length (heap (getSession u w).2))%nat.
Proof.
  intros Hs.
  assert (advance u w (getSession u w).2) as Hadv.
  { rewrite getSession_unfold.
    destruct (userSessions w !! u) as [l|]; [destruct (_ >? _)|].
    - apply advance_trans with (tick (tick w)).
      + apply advance_trans with (tick w); apply advance_tick; [done|].
        by apply sound_tick.
      + apply advance_assign_entry; [apply session_ok_new|].
        by apply sound_tick, sound_tick.
    - by apply advance_tick.
    - apply advance_trans with (tick w); [by apply advance_tick|].
      apply advance_assign_entry; [apply session_ok_new|]. by apply sound_tick. }
  split; [done|].
  destruct (getSession_entry u w (sound_table _ Hs)) as (o & Hentry & Hobj & _).
  split; [done|]. by apply lookup_lt_Some in Hobj.
Qed.

Lemma session_ok_assign (o : Session) (patch : Patch) :
  patch_ok patch -> session_ok o -> session_ok (Object_assign o patch).
Proof. intros Hp [Hsf Hcl]. destruct patch as [[] v|b]; by split. Qed.

Lemma advance_updateSession (u : string) (patch : Patch) (w : World) :
  patch_ok patch -> sound w -> advance u w (updateSession u patch w).2.
Proof.
  intros Hp Hs. rewrite updateSession_unfold. cbv zeta.
  destruct (advance_getSession u w Hs) as (Hadv & Hentry & _).
  apply advance_trans with (getSession u w).2; [done|].
  set (w1 := (getSession u w).2) in *. set (l := (getSession u w).1) in *.
  assert (advance u w1 (write l (fun o => Object_assign o patch) w1).2) as Hw.
  { apply advance_write; [done| |apply Hadv]. intros o. by apply session_ok_assign. }
  apply advance_trans with (write l (fun o => Object_assign o patch) w1).2; [done|].
  set (w2 := (write l _ w1).2) in *.
  apply advance_trans with (tick w2); [apply advance_tick, Hw|].
  apply advance_write; [done|by intros o []|apply sound_tick, Hw].
Qed.

Lemma advance_resetSession (u : string) (w : World) :
  sound w -> advance u w (resetSession u w).2.
Proof.
  intros Hs.
  replace (resetSession u w).2
    with (assign_entry u (new_session (Date_now (ticks w))) (tick w)).2 by done.
  apply advance_trans with (tick w); [by apply advance_tick|].
  apply advance_assign_entry; [apply session_ok_new|]. by apply sound_tick.
Qed.

Lemma download_finish_mime (p : Probe) (res : GetResp) (buf : list Byte.byte) (img : Download) :
  download_finish p res buf = Ok img -> accepted_mime (img_mime img).
Proof.
  unfold download_finish. destruct (_ >? _); [done|].
  destruct (negb _); [done|]. intros [= <-]; simpl.
  destruct (includes _ "image/png"); [by left|by right].
Qed.

Lemma advance_store_media (c : Locals) (imageType : Slot) (img : Download) (w : World) :
  accepted_mime (img_mime img) -> sound w ->
  advance (userPhone c) w (store_media c imageType img w).2.
Proof.
  intros Hm Hs. rewrite store_media_unfold. cbv zeta.
  set (w1 := if decide (imageType = Selfie) then _ else w).
  assert (advance (userPhone c) w w1) as H1.
  { subst w1. destruct (decide _).
    - by apply advance_updateSession.
    - split; [done|apply touches_refl]. }
  apply advance_trans with w1; [done|].
  apply advance_trans with (tick w1); [apply advance_tick, H1|].
  apply advance_updateSession; [|apply sound_tick, H1].
  simpl. by intros x [= <-].
Qed.

Lemma advance_guidance (c : Locals) (w : World) :
  sound w -> advance (userPhone c) w (guidance c w).2.
Proof.
  intros Hs. destruct (guidance_unfold c w) as [m ->]; simpl.
  by apply advance_getSession.
Qed.

Lemma advance_ready_check (c : Locals) (w : World) :
  sound w ->
  advance (userPhone c) w (ready_check c w).2 /\
  turn_locals (ready_check c w).1 = Some c /\
  forall req, turn_request (ready_check c w).1 = Some req -> request_ok req.
Proof.
  intros Hs.
  destruct (ready_check_cases c w) as [(sf & cl & o & Ho & Hsf & Hcl & _ & ->)|[_ ->]]; simpl.
  - split; [by apply advance_updateSession|]. split; [done|].
    intros req [= <-]. exists sf, cl.
    destruct (sound_assets _ Hs _ _ Ho) as [Hasf Hacl]. split; [done|].
    split; [by apply Hasf|by apply Hacl].
  - split; [by apply advance_guidance|].
    destruct (guidance_unfold c w) as [m ->]; simpl. by split.
Qed.

Lemma advance_finish_generation (c : Locals) (w : World) :
  sound w ->
  advance (userPhone c) w (finish_generation c w).2 /\
  (finish_generation c w).1 = Finished 200.
Proof.
  intros Hs. rewrite finish_generation_unfold. cbv zeta. split; [|done]. simpl.
  pose proof (advance_resetSession (userPhone c) w Hs) as H1.
  apply advance_trans with (resetSession (userPhone c) w).2; [done|].
  set (w1 := (resetSession (userPhone c) w).2) in *.
  destruct (advance_getSession (userPhone c) w1 (proj1 H1)) as (H2 & Hentry & _).
  apply advance_trans with (getSession (userPhone c) w1).2; [done|].
  apply advance_write; [done|by intros o []|apply H2].
Qed.

Lemma advance_after_generation (c : Locals) (ip : option JsVal) (tr : string) (w : World) :
  sound w ->
  advance (userPhone c) w (after_generation c ip tr w).2 /\
  turn_locals (after_generation c ip tr w).1 = Some c /\
  turn_request (after_generation c ip tr w).1 = None.
Proof.
  intros Hs.
  destruct (after_generation_cases c ip tr w) as [->|(v & f & _ & _ & ->)]; simpl.
  - split; [|done]. split; [done|apply touches_refl].
  - split; [|done]. by apply advance_tick.
Qed.

(** One segment of a turn. *)
Lemma advance_resume (t : Turn) (c : Locals) (r : ExtResult) (w : World) :
  turn_locals t = Some c -> sound w -> turn_ok w t ->
  advance (userPhone c) w (resume t r w).2 /\
  (turn_locals (resume t r w).1 = Some c \/ (resume t r w).1 = Finished 200) /\
  forall req, turn_request (resume t r w).1 = Some req -> request_ok req.
Proof.
  intros Hc Hs [Href Hreq].
  assert (advance (userPhone c) w w) as Hsame by (split; [done|apply touches_refl]).
  pose proof (advance_ready_check c w Hs) as (Hrc1 & Hrc2 & Hrc3).
  pose proof (advance_finish_generation c w Hs) as (Hfg1 & Hfg2).
  destruct t; try discriminate; simpl in Hc; injection Hc as ->;
    cbv beta iota zeta delta [resume].
  - destruct (download_after_head _); simpl; auto.
  - destruct (as_get r) as [res0|]; [destruct (download_after_get res0)|]; simpl; auto.
  - destruct (as_buffer r) as [buf|]; [destruct (download_finish p res buf) as [img|] eqn:Hd|];
      simpl; auto.
    unfold mbind, Sync_bind.
    pose proof (advance_store_media c imageType img w (download_finish_mime _ _ _ _ Hd) Hs)
      as H1.
    destruct (store_media c imageType img w) as [[] w1]; simpl in *.
    pose proof (advance_ready_check c w1 (proj1 H1)) as (H2 & H3 & H4).
    split; [by apply advance_trans with w1|auto].
  - auto.
  - destruct (as_stream r) as [events|].
    + destruct (imagePart (collectFromStream events)) as [ip|].
      * pose proof (advance_after_generation c (Some ip)
                      (collected_text (collectFromStream events)) w Hs) as (H1 & H2 & H3).
        split; [done|]. split; [auto|]. intros req0 Hr. by rewrite H3 in Hr.
      * simpl. split; [done|]. split; [auto|]. intros req0 [= <-]. by apply Hreq.
    + pose proof (advance_after_generation c None "" w Hs) as (H1 & H2 & H3).
      split; [done|]. split; [auto|]. intros req0 Hr. by rewrite H3 in Hr.
  - destruct (as_full r) as [full|].
    + pose proof (advance_after_generation c (findInlineData full)
                    (textResponse +:+ text_of full) w Hs) as (H1 & H2 & H3).
      split; [done|]. split; [auto|]. intros req0 Hr. by rewrite H3 in Hr.
    + pose proof (advance_after_generation c None textResponse w Hs) as (H1 & H2 & H3).
      split; [done|]. split; [auto|]. intros req0 Hr. by rewrite H3 in Hr.
  - destruct (rejected r); simpl; auto.
  - simpl; auto.
  - destruct (rejected r); [simpl; auto|].
    split; [done|]. rewrite Hfg2. split; [auto|done].
  - destruct (rejected r); [simpl; auto|].
    split; [done|]. rewrite Hfg2. split; [auto|done].
  - split; [done|]. rewrite Hfg2. split; [auto|done].
  - split; [done|]. rewrite Hfg2. split; [auto|done].
  - simpl; auto.
Qed.

Lemma turn_ok_grows (w w' : World) (t : Turn) :
  (List.length (heap w) <= List.length (heap w'))%nat -> turn_ok w t -> turn_ok w' t.
Proof.
  intros Hlen [Href Hreq]. split; [|done].
  intros c Hc. specialize (Href c Hc). lia.
Qed.

Lemma turn_ok_resume (t : Turn) (r : ExtResult) (w : World) :
  sound w -> turn_ok w t ->
  sound (resume t r w).2 /\ turn_ok (resume t r w).2 (resume t r w).1 /\
  (List.length (heap w) <= List.length (heap (resume t r w).2))%nat /\
  forall u v, turn_locals t = Some u -> v <> userPhone u ->
              session_of (resume t r w).2 v = session_of w v.
Proof.
  intros Hs Hok.
  destruct (turn_locals t) as [c|] eqn:Hc.
  - destruct (advance_resume t c r w Hc Hs Hok) as ([Hs' [Hg Ho]] & Hl & Hreq).
    split; [done|]. split; [|split; [done|]].
    + split; [|done]. intros c' Hc'.
      destruct Hl as [Hl|Hl]; rewrite Hl in Hc'; [|done].
      injection Hc' as <-. destruct Hok as [Href _]. specialize (Href c Hc). lia.
    + intros u v [= <-]. apply Ho.
  - destruct t; try discriminate. simpl. split; [done|]. split; [done|]. split; [lia|done].
Qed.

(** The first segment of a turn. *)
Lemma turn_ok_inbound (req : Request) (w : World) :
  sound w ->
  sound (inbound req w).2 /\ turn_ok (inbound req w).2 (inbound req w).1 /\
  (List.length (heap w) <= List.length (heap (inbound req w).2))%nat /\
  forall v, (if truthy_str (req_from req) then req_from req else None) <> Some v ->
            session_of (inbound req w).2 v = session_of w v.
Proof.
  intros Hs. unfold inbound.
  destruct (truthy_str (req_from req)) eqn:Hfrom; simpl.
  2:{ split; [done|]. split; [by split|]. split; [lia|done]. }
  destruct (req_from req) as [u|]; [|done]. simpl.
  unfold mbind, Sync_bind.
  destruct (advance_getSession u w Hs) as ([Hs1 [Hg1 Ho1]] & Hentry & Hlt).
  destruct (getSession u w) as [l w1]; simpl in *.
  set (c := {| userPhone := u; text := req_text req; mediaUrl := req_mediaUrl req;
               session := l; protocol := req_protocol req; host := req_host req |}).
  destruct (advance_ready_check c w1 Hs1) as ([Hs2 [Hg2 Ho2]] & Hl2 & Hreq2).
  assert (sound (ready_check c w1).2 /\
          turn_ok (ready_check c w1).2 (ready_check c w1).1 /\
          (List.length (heap w) <= List.length (heap (ready_check c w1).2))%nat /\
          forall v, Some u <> Some v -> session_of (ready_check c w1).2 v = session_of w v)
    as Hready.
  { split; [done|]. split; [|split; [lia|]].
    - split; [|done]. intros c' Hc'. rewrite Hl2 in Hc'. injection Hc' as <-. simpl. lia.
    - intros v Hv. rewrite Ho2, Ho1; [done|congruence|]. simpl. congruence. }
  unfold read; simpl.
  destruct (classify _ _ _) as [ty|]; [|done].
  destruct (truthy_str (req_mediaUrl req)); [|done]. simpl.
  split; [done|]. split; [|split; [done|]].
  - split; [|done]. intros c' [= <-]. done.
  - intros v Hv. apply Ho1. congruence.
Qed.

Lemma sys_step_sound (s : System) (e : Event) :
  system_sound s -> system_sound (sys_step s e).
Proof.
  intros [Hs Ht]. destruct e as [req|i r]; simpl.
  - destruct (turn_ok_inbound req (world s) Hs) as (Hs' & Hok & Hg & _).
    destruct (inbound req (world s)) as [t w]; simpl in *.
    split; simpl; [done|].
    apply Forall_app. split; [|by constructor].
    eapply Forall_impl; [done|]. intros t0. by apply turn_ok_grows.
  - destruct (turns s !! i) as [t|] eqn:Hi; [|by split].
    pose proof (Forall_lookup_1 _ _ _ _ Ht Hi) as Hok.
    destruct (turn_ok_resume t r (world s) Hs Hok) as (Hs' & Hok' & Hg & _).
    destruct (resume t r (world s)) as [t' w]; simpl in *.
    split; simpl; [done|].
    apply Forall_insert; [|done].
    eapply Forall_impl; [done|]. intros t0. by apply turn_ok_grows.
Qed.

Lemma system_sound_initial : system_sound initial_system.
Proof.
  split; simpl; [|constructor]. split.
  - apply well_formed_initial.
  - intros u v l Hl. simpl in Hl. by rewrite lookup_empty in Hl.
  - intros l o Hl. by destruct l.
Qed.

Lemma sys_run_sound (es : list Event) (s : System) :
  system_sound s -> system_sound (sys_run es s).
Proof.
  revert s. induction es as [|e es IH]; intros s Hs; simpl; [done|].
  by apply IH, sys_step_sound.
Qed.

End SoundFacts.

Section ReachableFacts.
Context `{Env}.

(** X5.  In every state the server can reach, every entry of
    [userSessions] refers to an object of the heap, no two users share a
    session object, and the reference a suspended turn holds is an
    object of the heap, so that a read through it, stale or not, finds a
    session. *)
Theorem references_never_dangle (es : list Event) :
  let s := sys_run es initial_system in
  (forall u, is_Some (userSessions (world s) !! u) -> is_Some (session_of (world s) u)) /\
  (forall u v l, userSessions (world s) !! u = Some l ->
                 userSessions (world s) !! v = Some l -> u = v) /\
  (forall i t c, turns s !! i = Some t -> turn_locals t = Some c ->
                 is_Some (heap (world s) !! session c)).
Proof.
  intros s. destruct (sys_run_sound es _ system_sound_initial) as [[Ht Hi Ha] Hturns].
  fold s in Ht, Hi, Ha, Hturns. split; [|split; [done|]].
  - intros u [l Hl]. unfold session_of. rewrite Hl; simpl.
    apply lookup_lt_is_Some. by apply (Ht u).
  - intros i t c Hi' Hc. apply lookup_lt_is_Some.
    by apply (Forall_lookup_1 _ _ _ _ Hturns Hi').
Qed.

(** X6.  In every state the server can reach, every picture held by a
    session is recorded as [image/png] or [image/jpeg], and every
    request that is waiting at the generation backend consists of two
    inline pictures of those types followed by the prompt. *)
Theorem only_accepted_types_reach_the_backend (es : list Event) :
  let s := sys_run es initial_system in
  (forall u o x, session_of (world s) u = Some o ->
                 selfie o = Some x \/ clothing o = Some x -> accepted_mime (mime x)) /\
  (forall i t req, turns s !! i = Some t ->
     pending t = Some (GenerateContentStream req) \/ pending t = Some (GenerateContent req) ->
     exists d1 m1 d2 m2,
       parts req = [InlineData d1 m1; InlineData d2 m2; TextPart prompt] /\
       accepted_mime m1 /\ accepted_mime m2).
Proof.
  intros s. destruct (sys_run_sound es _ system_sound_initial) as [[Ht Hi Ha] Hturns].
  fold s in Ht, Hi, Ha, Hturns. split.
  - intros u o x Ho Hx. unfold session_of in Ho.
    destruct (userSessions (world s) !! u) as [l|]; [|done]. simpl in Ho.
    destruct (Ha l o Ho) as [Hsf Hcl]. destruct Hx as [Hx|Hx]; [by apply Hsf|by apply Hcl].
  - intros i t req Hi' Hp.
    destruct (Forall_lookup_1 _ _ _ _ Hturns Hi') as [_ Hreq].
    assert (turn_request t = Some req) as Hr.
    { destruct t; simpl in Hp; destruct Hp as [Hp|Hp]; try discriminate;
        by injection Hp as ->. }
    destruct (Hreq req Hr) as (sf & cl & -> & Hsf & Hcl).
    by exists (data sf), (mime sf), (data cl), (mime cl).
Qed.

(** X7.  Whatever has happened before, an event leaves the session of
    every user other than its own as it was: a request touches the
    session of its sender only, a settled call the session of the user
    of its turn only. *)
Theorem users_are_isolated (es : list Event) (e : Event) (v : string) :
  let s := sys_run es initial_system in
  event_user s e <> Some v ->
  session_of (world (sys_step s e)) v = session_of (world s) v.
Proof.
  intros s Hv. destruct (sys_run_sound es _ system_sound_initial) as [Hs Hturns].
  fold s in Hs, Hturns. destruct e as [req|i r]; simpl in *.
  - destruct (turn_ok_inbound req (world s) Hs) as (_ & _ & _ & Ho).
    specialize (Ho v Hv). by destruct (inbound req (world s)).
  - destruct (turns s !! i) as [t|] eqn:Hi; [|done]. simpl in Hv.
    pose proof (Forall_lookup_1 _ _ _ _ Hturns Hi) as Hok.
    destruct (turn_ok_resume t r (world s) Hs Hok) as (_ & _ & _ & Ho).
    destruct (turn_locals t) as [c|] eqn:Hc.
    + specialize (Ho c v eq_refl). simpl in Hv.
      destruct (resume t r (world s)); simpl in *. apply Ho. congruence.
    + destruct t; try discriminate. done.
Qed.

End ReachableFacts.

Lemma users_are_isolated_witness :
  session_of (world (@sys_step steady_env (@sys_run steady_env two_pictures initial_system)
                       (Arrive other_request))) "447700900123" =
  session_of (world (@sys_run steady_env two_pictures initial_system)) "447700900123".
Proof.
  exact (@users_are_isolated steady_env two_pictures (Arrive other_request) "447700900123"
           ltac:(discriminate)).
Defined.

Section StoreOperations.
Context `{Env}.

(** X8.  [resetSession] binds the user to a new, empty and unlocked
    session stamped with the current reading, whatever the old one held;
    a second reset in a row gives an empty session again, stamped with
    the next reading.  The old object is not cleared: the entry is
    bound to an object that was not in the heap, and every object of the
    heap is as it was, so a turn that still holds the old reference
    keeps reading the old pictures. *)
Theorem resetSession_replaces (u : string) (w : World) :
  let w1 := (resetSession u w).2 in
  let w2 := (resetSession u w1).2 in
  session_of w1 u = Some (new_session (Date_now (ticks w))) /\
  session_of w2 u = Some (new_session (Date_now (S (ticks w)))) /\
  (forall l o, heap w !! l = Some o -> heap w1 !! l = Some o /\ heap w2 !! l = Some o) /\
  (forall l, (l < List.length (heap w))%nat -> userSessions w1 !! u <> Some l).
Proof.
  intros w1 w2. subst w1 w2. rewrite !resetSession_unfold. cbn [snd].
  split; [apply session_of_assign_entry|]. split; [apply session_of_assign_entry|].
  split.
  - intros l o Hl. unfold assign_entry, tick; simpl.
    split; [by apply lookup_app_l_Some|by apply lookup_app_l_Some, lookup_app_l_Some].
  - intros l Hlt. unfold assign_entry, tick; simpl.
    rewrite lookup_insert_eq. intros [= <-]. lia.
Qed.

(** X9.  [updateSession] applies the patch to the user's session when it
    has not expired, keeping the other fields, and to a new empty
    session when it has: an update that comes more than the TTL after
    the last one drops every picture the session held.  Either way
    [lastUpdated] becomes the reading taken after the patch. *)
Theorem updateSession_starts_over_after_ttl
    (u : string) (patch : Patch) (w : World) (l : nat) (o : Session) :
  userSessions w !! u = Some l -> heap w !! l = Some o ->
  session_of (updateSession u patch w).2 u =
  Some (if Date_now (ticks w) - lastUpdated o >? SESSION_TTL_MS
        then set_lastUpdated (Date_now (S (S (ticks w))))
               (Object_assign (new_session (Date_now (S (ticks w)))) patch)
        else set_lastUpdated (Date_now (S (ticks w))) (Object_assign o patch)).
Proof.
  intros Hentry Hobj.
  rewrite updateSession_unfold, getSession_unfold, Hentry.
  rewrite (list_lookup_total_correct _ _ _ Hobj).
  pose proof (lookup_lt_Some _ _ _ Hobj) as Hlt.
  destruct (_ >? _); cbv zeta; unfold session_of, write, assign_entry, tick; simpl.
  - rewrite lookup_insert_eq; simpl.
    rewrite !list_lookup_alter_eq, lookup_app_r by lia.
    by rewrite Nat.sub_diag.
  - rewrite Hentry; simpl. by rewrite !list_lookup_alter_eq, Hobj.
Qed.

End StoreOperations.

Lemma updateSession_starts_over_after_ttl_witness :
  selfie <$> session_of (@updateSession steady_env "447700900123"
                           (PatchSlot Clothing None) (aged_world 600001)).2 "447700900123"
  = Some None.
Proof.
  rewrite (@updateSession_starts_over_after_ttl steady_env "447700900123"
             (PatchSlot Clothing None) (aged_world 600001) 0%nat (aged_session 600001)
             eq_refl eq_refl).
  reflexivity.
Defined.

(** ** The course of a turn *)

Section TurnFacts.
Context `{Env}.

Lemma ready_check_locals (c : Locals) (w : World) :
  turn_locals (ready_check c w).1 = Some c /\ fetching (ready_check c w).1 = false.
Proof.
  destruct (ready_check_cases c w) as [(sf & cl & o & _ & _ & _ & _ & ->)|[_ ->]]; [done|].
  by destruct (guidance_unfold c w) as [m ->].
Qed.

Lemma after_generation_locals (c : Locals) (ip : option JsVal) (tr : string) (w : World) :
  turn_locals (after_generation c ip tr w).1 = Some c /\
  fetching (after_generation c ip tr w).1 = false.
Proof.
  by destruct (after_generation_cases c ip tr w) as [->|(v & f & _ & _ & ->)].
Qed.

Lemma finish_generation_status (c : Locals) (w : World) :
  (finish_generation c w).1 = Finished 200.
Proof. by rewrite finish_generation_unfold. Qed.

(** A segment ends in a state of the same turn or ends the turn, and
    only a segment of the download leads to a call of the download. *)
Lemma resume_locals (t : Turn) (c : Locals) (r : ExtResult) (w : World) :
  turn_locals t = Some c ->
  (turn_locals (resume t r w).1 = Some c \/ (resume t r w).1 = Finished 200) /\
  (fetching t = false -> fetching (resume t r w).1 = false).
Proof.
  intros Hc.
  pose proof (ready_check_locals c w) as [Hrc1 Hrc2].
  pose proof (finish_generation_status c w) as Hfg.
  destruct t; try discriminate; simpl in Hc; injection Hc as ->;
    cbv beta iota zeta delta [resume].
  - destruct (download_after_head _); simpl; auto.
  - destruct (as_get r) as [res0|]; [destruct (download_after_get res0)|]; simpl; auto.
  - destruct (as_buffer r) as [buf|]; [destruct (download_finish p res buf) as [img|]|];
      simpl; auto.
    unfold mbind, Sync_bind. destruct (store_media c imageType img w) as [[] w1].
    destruct (ready_check_locals c w1) as [H1 H2]. auto.
  - auto.
  - destruct (as_stream r) as [events|].
    + destruct (imagePart (collectFromStream events)) as [ip|]; [|simpl; auto].
      destruct (after_generation_locals c (Some ip)
                  (collected_text (collectFromStream events)) w); auto.
    + destruct (after_generation_locals c None "" w); auto.
  - destruct (as_full r) as [full|].
    + destruct (after_generation_locals c (findInlineData full)
                  (textResponse +:+ text_of full) w); auto.
    + destruct (after_generation_locals c None textResponse w); auto.
  - destruct (rejected r); simpl; auto.
  - simpl; auto.
  - destruct (rejected r); [simpl; auto|]. rewrite Hfg. auto.
  - destruct (rejected r); [simpl; auto|]. rewrite Hfg. auto.
  - rewrite Hfg. auto.
  - rewrite Hfg. auto.
  - simpl; auto.
Qed.

Lemma inbound_locals (req : Request) (w : World) :
  truthy_str (req_from req) = true ->
  exists c, turn_locals (inbound req w).1 = Some c /\
            userPhone c = default "" (req_from req) /\ mediaUrl c = req_mediaUrl req /\
            (fetching (inbound req w).1 = true ->
             truthy_str (req_mediaUrl req) = true /\ exists ty, (inbound req w).1 = AwaitHead c ty) /\
            (truthy_str (req_mediaUrl req) = true -> fetching (inbound req w).1 = true).
Proof.
  intros Hfrom. unfold inbound. rewrite Hfrom; simpl.
  unfold mbind, Sync_bind. destruct (getSession _ w) as [l w1]. unfold read; simpl.
  set (c := {| userPhone := default "" (req_from req); session := l |}).
  exists c. destruct (ready_check_locals c w1) as [H1 H2].
  unfold classify.
  destruct (classify_text (req_text req)) as [ty|].
  - destruct (truthy_str (req_mediaUrl req)) eqn:Hm; simpl.
    + repeat split; eauto.
    + do 3 (split; [done|]). split; [rewrite H2; discriminate|discriminate].
  - destruct (truthy_str (req_mediaUrl req)) eqn:Hm; simpl.
    + repeat split; eauto.
    + do 3 (split; [done|]). split; [rewrite H2; discriminate|discriminate].
Qed.

Lemma run_no_fetch (rs : list ExtResult) :
  forall (t : Turn) (w : World),
    fetching t = false -> Forall (fun call => is_fetch call = false) (run t rs w).1.1.
Proof.
  induction rs as [|r rs IH]; intros t w Hf.
  - destruct t; try discriminate; simpl; repeat constructor.
  - destruct (turn_locals t) as [c|] eqn:Hc.
    2:{ destruct t; try discriminate. simpl. constructor. }
    assert (exists call, pending t = Some call /\ is_fetch call = false) as (call & Hp & Hcall)
      by (destruct t; try discriminate; simpl; eauto).
    simpl. rewrite Hp.
    destruct (resume_locals t c r w Hc) as [_ Hnf]. specialize (Hnf Hf).
    destruct (resume t r w) as [t' w'] eqn:Hres; simpl in Hnf.
    specialize (IH t' w' Hnf).
    destruct (run t' rs w') as [[calls t''] w'']; simpl in *.
    by constructor.
Qed.

(** X11.  A message with a sender and a media URL is always downloaded,
    labelled or not, starting with the probe of that URL; a message
    without a media URL never leads to a call of the download, however
    its turn goes on. *)
Theorem media_is_fetched_and_nothing_else (req : Request) (w : World) :
  truthy_str (req_from req) = true ->
  (truthy_str (req_mediaUrl req) = true ->
   exists url, req_mediaUrl req = Some url /\
               pending (inbound req w).1 = Some (FetchHead url)) /\
  (truthy_str (req_mediaUrl req) = false ->
   forall rs, Forall (fun call => is_fetch call = false)
                     (run (inbound req w).1 rs (inbound req w).2).1.1).
Proof.
  intros Hfrom.
  destruct (inbound_locals req w Hfrom) as (c & Hc & Hu & Hm & Hfetch & Hmedia).
  split.
  - intros Hurl. destruct (Hfetch (Hmedia Hurl)) as (_ & ty & ->).
    destruct (req_mediaUrl req) as [url|] eqn:Hreq; [|done].
    exists url. split; [done|]. simpl. by rewrite Hm.
  - intros Hurl rs. apply run_no_fetch.
    destruct (fetching (inbound req w).1) eqn:Hf; [|done].
    destruct (Hfetch eq_refl) as [Ht _]. congruence.
Qed.

(** X12.  The three segments of the download compose to
    [downloadImageAsBase64IfSupported].  When the function returns a
    picture, the turn has issued the probe, the retrieval and the read
    of the body, has stored the picture and stands at the outcome of the
    ready check.  When it throws, the turn has left the store as it was
    and waits for one message to settle, the tip for the error; the
    calls before it are the first one, two or three of the download,
    and after a probe that answers 401 or 403 the retrieval is not
    issued. *)
Theorem download_segments_compose
    (c : Locals) (imageType : Slot) (r1 r2 r3 : ExtResult) (w : World) :
  let url := default "" (mediaUrl c) in
  let calls := [FetchHead url; FetchGet url; ReadBuffer] in
  match downloadImageAsBase64IfSupported (as_head r1) (as_get r2) (as_buffer r3) with
  | Ok img =>
      let after := (store_media c imageType img;; ready_check c) w in
      take 3 (run (AwaitHead c imageType) [r1; r2; r3] w).1.1 = calls /\
      (run (AwaitHead c imageType) [r1; r2; r3] w).1.2 = after.1 /\
      (run (AwaitHead c imageType) [r1; r2; r3] w).2 = after.2
  | Throw e =>
      exists n, (1 <= n <= 3)%nat /\
        run (AwaitHead c imageType) (take n [r1; r2; r3]) w =
        ((take n calls ++ [Send (PlainText (userPhone c) RCS_SENDER_ID (tip_for e))])%list,
         AwaitTip c (tip_for e), w) /\
        (is_401_or_403 (headStatus (probe (as_head r1))) = true -> n = 1%nat)
  end.
Proof.
  intros url calls. unfold downloadImageAsBase64IfSupported.
  destruct (download_after_head (probe (as_head r1))) as [[]|e1] eqn:H1.
  2:{ exists 1%nat. split; [lia|]. split; [|done].
      simpl. cbv beta iota zeta delta [resume]. by rewrite H1. }
  assert (is_401_or_403 (headStatus (probe (as_head r1))) = false) as Hprobe.
  { unfold download_after_head in H1. by destruct (is_401_or_403 _). }
  destruct (as_get r2) as [res|e2] eqn:H2.
  2:{ exists 2%nat. split; [lia|]. split; [|congruence].
      simpl. cbv beta iota zeta delta [resume]. rewrite H1; simpl.
      cbv beta iota zeta delta [resume]. by rewrite H2. }
  destruct (download_after_get res) as [[]|e2] eqn:H2'.
  2:{ exists 2%nat. split; [lia|]. split; [|congruence].
      simpl. cbv beta iota zeta delta [resume]. rewrite H1; simpl.
      cbv beta iota zeta delta [resume]. by rewrite H2, H2'. }
  destruct (as_buffer r3) as [buf|e3] eqn:H3.
  2:{ exists 3%nat. split; [lia|]. split; [|congruence].
      simpl. cbv beta iota zeta delta [resume]. rewrite H1; simpl.
      cbv beta iota zeta delta [resume]. rewrite H2, H2'; simpl.
      cbv beta iota zeta delta [resume]. by rewrite H3. }
  destruct (download_finish (probe (as_head r1)) res buf) as [img|e3] eqn:H4.
  2:{ exists 3%nat. split; [lia|]. split; [|congruence].
      simpl. cbv beta iota zeta delta [resume]. rewrite H1; simpl.
      cbv beta iota zeta delta [resume]. rewrite H2, H2'; simpl.
      cbv beta iota zeta delta [resume]. by rewrite H3, H4. }
  cbv zeta. simpl. cbv beta iota zeta delta [resume]. rewrite H1; simpl.
  cbv beta iota zeta delta [resume]. rewrite H2, H2'; simpl.
  cbv beta iota zeta delta [resume]. rewrite H3, H4.
  destruct ((store_media c imageType img;; ready_check c) w) as [t3 w3]; simpl.
  by destruct (pending t3).
Qed.

End TurnFacts.

Lemma media_is_fetched_and_nothing_else_witness :
  Forall (fun call => is_fetch call = false)
    (@run steady_env (@inbound steady_env (caption_only "selfie") initial_world).1
       [Fulfilled]
       (@inbound steady_env (caption_only "selfie") initial_world).2).1.1.
Proof.
  exact (proj2 (@media_is_fetched_and_nothing_else steady_env (caption_only "selfie")
                  initial_world eq_refl) eq_refl [Fulfilled]).
Defined.

(** ** The other routes *)

Section RouteFacts.
Context `{Env} `{Access}.

Lemma serve_status_snoc (posts : list (JsVal * JsVal)) (post : JsVal * JsVal) (p : Process) :
  serve_status (posts ++ [post])%list p =
  (webhooks_status post.1 post.2 (serve_status posts p)).2.
Proof. unfold serve_status. by rewrite fold_left_app. Qed.

(** X13.  [GET /debug/last] shows the last status webhook that the
    middleware let through, with the reading of the clock taken when it
    came; webhooks that were refused leave no trace, and as long as none
    has been let through the answer is what it was, 404 at the start.
    Status webhooks read the clock once each and leave every session
    alone. *)
Theorem debug_shows_last_admitted (posts : list (JsVal * JsVal)) (p : Process) :
  let p' := serve_status posts p in
  userSessions (store p') = userSessions (store p) /\
  heap (store p') = heap (store p) /\
  ticks (store p') = (ticks (store p) + List.length (List.filter admitted posts))%nat /\
  match last (List.filter admitted posts) with
  | Some (headers, body) =>
      debug_last p' =
      ReplyJson 200
        (JObj [("lastWebhook",
                JObj [("time", JNum (Date_now (ticks (store p') - 1)));
                      ("headers", headers); ("body", body)])])
  | None => lastWebhook p' = lastWebhook p
  end.
Proof.
  induction posts as [|post posts IH] using rev_ind; [simpl; repeat split; lia|].
  cbv zeta in *. rewrite serve_status_snoc, List.filter_app.
  destruct IH as (Hu & Hh & Ht & Hlast). simpl.
  unfold admitted at 2 4. unfold webhooks_status.
  destruct (verifyWebhookSignature (authorization_of post.1)); simpl.
  - rewrite last_snoc, Hu, Hh, Ht, length_app; simpl.
    repeat split; try lia. destruct post as [headers body]; simpl.
    unfold debug_last; simpl. by rewrite Nat.sub_0_r.
  - rewrite app_nil_r. done.
Qed.

Lemma try_after_cases (q : TryOnRequest) (ip : option JsVal) (tr : string) (w : World) :
  (exists body, try_after q ip tr w = (TryReplied (ReplyJson 500 body), w)) \/
  (exists v f, ip = Some v /\ try_after q ip tr w = (TryMkdir q v tr f, tick w)).
Proof.
  unfold try_after. destruct ip as [v|]; [|left; eauto].
  destruct (truthy _); [|left; eauto]. right. eauto.
Qed.

(** One segment of the local route: the store, the request served, and
    the two ways a turn ends. *)
Lemma try_resume_cases (t : TryOn) (q : TryOnRequest) (r : ExtResult) (w : World) :
  try_request_of t = Some q ->
  exists call, try_pending t = Some call /\
  userSessions (try_resume t r w).2 = userSessions w /\
  heap (try_resume t r w).2 = heap w /\
  (try_request_of (try_resume t r w).1 = Some q \/
   (exists body, (try_resume t r w).1 = TryReplied (ReplyJson 500 body)) \/
   (exists e, (try_resume t r w).1 = TryRejected e /\ is_file_call call = true) \/
   (exists ip tr f body,
      t = TryWrite q ip tr f /\
      (try_resume t r w).1 = TryReplied (ReplyJson 200 body) /\
      get_prop body "imageUrl" = JStr (buildPublicUrl (try_locals q) f))).
Proof.
  intros Hq. destruct t; try discriminate; simpl in Hq; injection Hq as ->;
    (eexists; split; [reflexivity|]); cbv beta iota zeta delta [try_resume].
  - destruct (as_buffer r); simpl; eauto 10.
  - destruct (as_stream r) as [events|].
    + destruct (imagePart (collectFromStream events)) as [ip|]; [|simpl; auto].
      destruct (try_after_cases q (Some ip) (collected_text (collectFromStream events)) w)
        as [[body ->]|(v & f & _ & ->)]; simpl; eauto 10.
    + destruct (try_after_cases q None "" w) as [[body ->]|(v & f & _ & ->)]; simpl; eauto 10.
  - destruct (as_full r) as [full|].
    + destruct (try_after_cases q (findInlineData full) (textResponse +:+ text_of full) w)
        as [[body ->]|(v & f & _ & ->)]; simpl; eauto 10.
    + destruct (try_after_cases q None textResponse w)
        as [[body ->]|(v & f & _ & ->)]; simpl; eauto 10.
  - destruct (failure r); simpl; eauto 10.
  - destruct (failure r); simpl; [eauto 10|].
    do 2 (split; [done|]). right. right. right. eauto 10.
Qed.

Lemma try_run_ended (t : TryOn) (rs : list ExtResult) (w : World) :
  try_pending t = None -> try_run t rs w = ([], t, w).
Proof. intros Hp. destruct rs; simpl; by rewrite Hp. Qed.

Lemma try_run_outcome (rs : list ExtResult) :
  forall (t : TryOn) (q : TryOnRequest) (w : World),
    try_request_of t = Some q ->
    userSessions (try_run t rs w).2 = userSessions w /\
    heap (try_run t rs w).2 = heap w /\
    (forall body, (try_run t rs w).1.2 = TryReplied (ReplyJson 200 body) ->
       exists outFile data,
         In (Shared (WriteFile (path_join PHOTOS_PATH outFile) data)) (try_run t rs w).1.1 /\
         get_prop body "imageUrl" = JStr (buildPublicUrl (try_locals q) outFile)) /\
    (forall e, (try_run t rs w).1.2 = TryRejected e ->
       exists call, last (try_run t rs w).1.1 = Some call /\ is_file_call call = true).
Proof.
  induction rs as [|r rs IH]; intros t q w Hq.
  - destruct t; try discriminate; simpl; repeat split; intros; discriminate.
  - destruct (try_resume_cases t q r w Hq) as (call & Hp & Hu & Hh & Hnext).
    simpl. rewrite Hp.
    destruct (try_resume t r w) as [t1 w1] eqn:Hres; simpl in *.
    destruct Hnext as [Hq1|[[body ->]|[(e & -> & Hfile)|(ip & tr & f & body & -> & -> & Hurl)]]].
    + destruct (IH t1 q w1 Hq1) as (Hu1 & Hh1 & Hok & Hrej).
      destruct (try_run t1 rs w1) as [[calls t2] w2]; simpl in *.
      split; [congruence|]. split; [congruence|]. split.
      * intros body Hb. destruct (Hok body Hb) as (f & d & Hin & Hurl). eauto.
      * intros e He. destruct (Hrej e He) as (call' & Hl & Hf).
        exists call'. split; [|done]. destruct calls; [done|]. by rewrite last_cons, Hl.
    + rewrite try_run_ended by done. simpl.
      do 2 (split; [done|]). split; intros; discriminate.
    + rewrite try_run_ended by done. simpl.
      do 2 (split; [done|]). split; [intros; discriminate|]. intros e' _. eauto.
    + rewrite try_run_ended by done. simpl. injection Hp as <-.
      do 2 (split; [done|]). split; [|intros; discriminate].
      intros body' [= <-]. eexists _, _. split; [by left|done].
Qed.


End RouteFacts.

Section DeliveryFacts.
Context `{Env}.

Lemma resume_delivering (t : Turn) (r : ExtResult) (w : World) :
  delivering t = true -> delivering (resume t r w).1 = true.
Proof.
  intros Hd. destruct t; try discriminate; cbv beta iota zeta delta [resume];
    try (destruct (rejected r); [done|]); try done;
    by rewrite finish_generation_status.
Qed.

Lemma run_no_write (rs : list ExtResult) :
  forall (t : Turn) (w : World),
    delivering t = true -> Forall (fun call => is_write call = false) (run t rs w).1.1.
Proof.
  induction rs as [|r rs IH]; intros t w Hd.
  - destruct t; try discriminate; simpl; repeat constructor.
  - destruct (pending t) as [call|] eqn:Hp; simpl; rewrite Hp; [|constructor].
    assert (is_write call = false) as Hcall
      by (destruct t; try discriminate; simpl in Hp; by injection Hp as <-).
    pose proof (resume_delivering t r w Hd) as Hd'.
    destruct (resume t r w) as [t' w']; simpl in Hd'.
    specialize (IH t' w' Hd').
    destruct (run t' rs w') as [[calls t''] w'']; simpl in *.
    by constructor.
Qed.

Lemma run_step (t : Turn) (call : ExtCall) (r : ExtResult) (rs : list ExtResult) (w : World) :
  pending t = Some call ->
  (run t (r :: rs) w).1.1 = call :: (run (resume t r w).1 rs (resume t r w).2).1.1.
Proof.
  intros Hp. simpl. rewrite Hp. destruct (resume t r w) as [t' w']; simpl.
  by destruct (run t' rs w') as [[calls t''] w''].
Qed.

Lemma run_head (t : Turn) (call : ExtCall) (rs : list ExtResult) (w : World) :
  pending t = Some call -> exists rest, (run t rs w).1.1 = call :: rest.
Proof.
  intros Hp. destruct rs as [|r rs].
  - simpl. rewrite Hp. by exists [].
  - rewrite (run_step t call) by done. eauto.
Qed.

(** X15.  Once an image has been generated, the rich message with the
    public URL of the artifact is sent whether or not the artifact could
    be saved: a failed [mkdir] or [writeFile] is logged and nothing
    else.  After a failed [mkdir] the file is never written, and the
    message goes out all the same. *)
Theorem preview_sent_even_if_not_saved
    (c : Locals) (ip : JsVal) (tr outFile : string) (r1 r2 : ExtResult)
    (rs : list ExtResult) (w : World) :
  let calls := (run (AwaitMkdir c ip tr outFile) (r1 :: r2 :: rs) w).1.1 in
  In (Send (RCSImage (userPhone c) RCS_SENDER_ID (buildPublicUrl c outFile)
              (str_or tr preview_caption))) calls /\
  (rejected r1 = true -> Forall (fun call => is_write call = false) calls).
Proof.
  cbv zeta. rewrite (run_step _ (Mkdir PHOTOS_PATH)) by done.
  set (rich := AwaitRich c (buildPublicUrl c outFile) tr).
  destruct (rejected r1) eqn:Hr1.
  - assert (resume (AwaitMkdir c ip tr outFile) r1 w = (rich, w)) as ->
      by (cbv beta iota zeta delta [resume]; by rewrite Hr1).
    cbn [fst snd]. split.
    + destruct (run_head rich _ (r2 :: rs) w eq_refl) as [rest ->]. by right; left.
    + intros _. constructor; [done|]. by apply run_no_write.
  - assert (resume (AwaitMkdir c ip tr outFile) r1 w = (AwaitWrite c ip tr outFile, w)) as ->
      by (cbv beta iota zeta delta [resume]; by rewrite Hr1).
    cbn [fst snd]. split; [|done].
    rewrite (run_step _ (WriteFile (path_join PHOTOS_PATH outFile)
                           (js_string (get_prop ip "data")))) by done.
    assert (resume (AwaitWrite c ip tr outFile) r2 w = (rich, w)) as -> by done.
    cbn [fst snd].
    destruct (run_head rich _ rs w eq_refl) as [rest ->]. by right; right; left.
Qed.

End DeliveryFacts.

Lemma preview_sent_even_if_not_saved_witness :
  Forall (fun call => is_write call = false)
    (@run steady_env
       (AwaitMkdir (example_locals 0) (JObj [("data", JStr "iVBORw0KGgo=")]) "" "tryon.png")
       [Rejected plain_error; Fulfilled] initial_world).1.1.
Proof.
  exact (proj2 (@preview_sent_even_if_not_saved steady_env (example_locals 0)
                  (JObj [("data", JStr "iVBORw0KGgo=")]) "" "tryon.png"
                  (Rejected plain_error) Fulfilled [] initial_world) eq_refl).
Defined.

(** ** The names of the artifacts *)

Lemma length_append (a b : string) :
  String.length (a +:+ b) = (String.length a + String.length b)%nat.
Proof.
  induction a as [|c a IH]; [done|].
  change (S (String.length (a +:+ b)) = S (String.length a + String.length b)).
  by rewrite IH.
Qed.

Lemma append_inv_tail (a b s : string) : a +:+ s = b +:+ s -> a = b.
Proof.
  revert b. induction a as [|c a IH]; intros [|d b] Heq; [done| | |].
  - apply (f_equal String.length) in Heq.
    change (String d b +:+ s) with (String d (b +:+ s)) in Heq. simpl in Heq.
    rewrite !length_append in Heq. simpl in Heq. lia.
  - apply (f_equal String.length) in Heq.
    change (String c a +:+ s) with (String c (a +:+ s)) in Heq. simpl in Heq.
    rewrite !length_append in Heq. simpl in Heq. lia.
  - change (String c (a +:+ s) = String d (b +:+ s)) in Heq.
    injection Heq as -> Heq. by rewrite (IH b Heq).
Qed.

Lemma no_underscore_app (a b : string) :
  no_underscore (a +:+ b) = no_underscore a && no_underscore b.
Proof.
  induction a as [|c a IH]; [done|].
  change (no_underscore (String c (a +:+ b)) =
          no_underscore (String c a) && no_underscore b).
  simpl. rewrite IH. by rewrite andb_assoc.
Qed.

Lemma split_at_last_underscore (a b x y : string) :
  no_underscore x = true -> no_underscore y = true ->
  a +:+ String "_" x = b +:+ String "_" y -> a = b /\ x = y.
Proof.
  intros Hx Hy. revert b. induction a as [|c a IH]; intros [|d b] Heq.
  - by injection Heq.
  - change (String "_" x = String d (b +:+ String "_" y)) in Heq.
    injection Heq as <- ->. rewrite no_underscore_app in Hx. simpl in Hx.
    by rewrite andb_false_r in Hx.
  - change (String c (a +:+ String "_" x) = String "_" y) in Heq.
    injection Heq as -> <-. rewrite no_underscore_app in Hy. simpl in Hy.
    by rewrite andb_false_r in Hy.
  - change (String c (a +:+ String "_" x) = String d (b +:+ String "_" y)) in Heq.
    injection Heq as -> Heq. destruct (IH b Heq) as [-> ->]. done.
Qed.

Lemma no_underscore_uint (u : Decimal.uint) :
  no_underscore (NilEmpty.string_of_uint u) = true.
Proof. induction u; simpl; done. Qed.

Lemma no_underscore_string_of_Z (n : Z) : no_underscore (string_of_Z n) = true.
Proof.
  unfold string_of_Z. destruct (Z.to_int n) as [u|u]; simpl.
  - destruct u; try done; apply (no_underscore_uint (_ u)).
  - destruct u; try done; apply (no_underscore_uint (_ u)).
Qed.

Lemma string_of_Z_inj (a b : Z) : string_of_Z a = string_of_Z b -> a = b.
Proof.
  unfold string_of_Z. intros Heq.
  assert (forall z, Z.to_int z <> Decimal.Pos Decimal.Nil /\
                    Z.to_int z <> Decimal.Neg Decimal.Nil) as Hnn.
  { intros [|p|p]; simpl; split; try discriminate;
      intros [= Hp]; by apply DecimalPos.Unsigned.to_uint_nonnil in Hp. }
  apply (f_equal NilZero.int_of_string) in Heq.
  rewrite !NilZero.isi in Heq by apply Hnn.
  injection Heq as Heq. by apply DecimalZ.to_int_inj.
Qed.

Section ArtifactFacts.
Context `{Env}.

(** X16.  The file name of an artifact is made of the user and the
    reading of the clock: two generations get the same name exactly when
    they are for the same user at the same reading, so a user never
    overwrites the preview of another, and a second preview of the same
    user replaces the first only within the same millisecond. *)
Theorem artifact_names_differ
    (c1 c2 : Locals) (ip1 ip2 : JsVal) (tr1 tr2 f1 f2 : string) (w1 w2 : World) :
  (after_generation c1 (Some ip1) tr1 w1).1 = AwaitMkdir c1 ip1 tr1 f1 ->
  (after_generation c2 (Some ip2) tr2 w2).1 = AwaitMkdir c2 ip2 tr2 f2 ->
  f1 = f2 <->
  userPhone c1 = userPhone c2 /\ Date_now (ticks w1) = Date_now (ticks w2).
Proof.
  unfold after_generation.
  destruct (truthy (get_prop ip1 "data")); [|done].
  destruct (truthy (get_prop ip2 "data")); [|done].
  simpl. intros [= <-] [= <-]. split.
  - intros Heq. apply String.app_inj in Heq.
    apply split_at_last_underscore in Heq as [Hu Ht].
    + split; [done|]. by apply append_inv_tail, string_of_Z_inj in Ht.
    + by rewrite no_underscore_app, no_underscore_string_of_Z.
    + by rewrite no_underscore_app, no_underscore_string_of_Z.
  - by intros [-> ->].
Qed.

End ArtifactFacts.

Lemma artifact_names_differ_witness :
  ("tryon_447700900123_1700000000000.png" = "tryon_447700900456_1700000000000.png" <->
   "447700900123" = "447700900456" /\ 1700000000000 = 1700000000000).
Proof.
  exact (@artifact_names_differ steady_env (example_locals 0)
           {| userPhone := "447700900456"; text := None; mediaUrl := None;
              session := 1%nat; protocol := "https"; host := "tryon.example" |}
           (JObj [("data", JStr "iVBORw0KGgo=")]) (JObj [("data", JStr "iVBORw0KGgo=")])
           "" "" "tryon_447700900123_1700000000000.png"
           "tryon_447700900456_1700000000000.png" initial_world initial_world
           eq_refl eq_refl).
Defined.

(** ** The two classifiers *)

Lemma includes_prefix (s sub : string) : String.prefix sub s = true -> includes s sub = true.
Proof. intros Hp. destruct s; unfold includes; fold includes; by rewrite Hp. Qed.

Lemma includes_app (pre sub post : string) : includes (pre +:+ sub +:+ post) sub = true.
Proof.
  induction pre as [|c pre IH].
  - change ("" +:+ sub +:+ post) with (sub +:+ post).
    apply includes_prefix, prefix_app. eauto.
  - change (String c pre +:+ sub +:+ post) with (String c (pre +:+ sub +:+ post)).
    simpl. rewrite IH. apply orb_true_r.
Qed.

Lemma stands_in_includes (w s : string) : stands_in w s -> includes s w = true.
Proof. intros (pre & post & -> & _). apply includes_app. Qed.

(** X17.  The substring test of the earlier handler accepts every
    caption that the word test of the later one accepts through a word
    the two vocabularies share.  Both handlers lower-case the caption
    first: a caption whose lower case has selfie or me as a word is a
    selfie for both handlers, and one whose lower case has clothing,
    dress or shirt as a word gets a label from the earlier one as
    well. *)
Theorem earlier_classifier_is_coarser (text : option string) :
  (lower_case_has ["selfie"; "me"] text ->
   classify_text text = Some Selfie /\ classify_includes text = Some Selfie) /\
  (lower_case_has ["clothing"; "dress"; "shirt"] text -> is_Some (classify_includes text)).
Proof.
  split.
  - intros (t & w & -> & Hin & Hocc). split.
    + assert (lower_case_has selfie_words (Some t)) as Hm.
      { exists t, w. split; [done|]. split; [|done]. simpl in *. tauto. }
      apply (lower_case_has_test _ _ selfie_words_plain) in Hm. simpl default in Hm.
      unfold classify_text. destruct t as [|c t].
      * by vm_compute in Hm.
      * simpl truthy_str. cbv iota. simpl default. by rewrite Hm.
    + apply stands_in_includes in Hocc. unfold classify_includes.
      destruct Hin as [<-|[<-|[]]]; rewrite Hocc; [done|].
      by rewrite orb_true_r.
  - intros (t & w & -> & Hin & Hocc).
    apply stands_in_includes in Hocc. unfold classify_includes.
    destruct (includes (toLowerCase t) "selfie" || includes (toLowerCase t) "me"); [eauto|].
    destruct Hin as [<-|[<-|[<-|[]]]]; rewrite Hocc, ?orb_true_r; eauto.
Qed.

(** ** The earlier handler *)

Lemma inside_trans (a b c : JsVal) : inside a b -> inside b c -> inside a c.
Proof.
  intros Hab Hbc. induction Hbc as [|x items Hx Hin IH|k x fields Hx Hin IH]; [done| |].
  - by apply inside_item with x.
  - by apply inside_field with k x.
Qed.

Lemma assoc_In (k : string) (fs : list (string * JsVal)) :
  assoc k fs <> JUndefined -> exists k', In (k', assoc k fs) fs.
Proof.
  induction fs as [|[k' v] fs IH]; simpl; [done|].
  destruct (String.eqb k k'); [eauto|].
  intros Hne. destruct (IH Hne) as [k'' Hin]. eauto.
Qed.

Lemma get_prop_inside (o : JsVal) (k : string) :
  get_prop o k <> JUndefined -> inside (get_prop o k) o.
Proof.
  destruct o; simpl; try done. intros Hne.
  destruct (assoc_In k fields Hne) as [k' Hin].
  apply inside_field with k' (assoc k fields); [done|constructor].
Qed.

Lemma first_of_inside (v : JsVal) :
  (forall fs, Earlier.first_of v = JObj fs -> inside (Earlier.first_of v) v).
Proof.
  destruct v as [| | | |s|items|fields]; simpl; try done.
  - by destruct s.
  - destruct items as [|x items]; [done|]. intros fs _.
    apply inside_item with x; [by left|constructor].
  - intros fs Hfs.
    destruct (assoc_In "0" fields) as [k' Hin]; [by rewrite Hfs|].
    apply inside_field with k' (assoc "0" fields); [done|constructor].
Qed.

Lemma get_prop_object (o : JsVal) (k : string) :
  get_prop o k <> JUndefined -> exists fs, o = JObj fs.
Proof. destruct o; simpl; try done. eauto. Qed.

Lemma truthy_defined (v : JsVal) : truthy v = true -> v <> JUndefined.
Proof. by destruct v. Qed.

(** X18.  Every picture that the loop of the earlier handler accepts
    and that has data is found by [findInlineData] of the later one as
    well.  The converse fails: the earlier loop looks at the first part
    of the first candidate only, and misses a picture that comes after a
    text part. *)
Theorem later_search_finds_more (chunk : JsVal) :
  truthy (get_prop (Earlier.first_part_inlineData chunk) "data") = true ->
  is_Some (findInlineData chunk) /\
  Earlier.first_part_inlineData image_response = JUndefined /\
  is_Some (findInlineData image_response).
Proof.
  intros Hdata. split; [|split; [reflexivity|by eexists]].
  unfold Earlier.first_part_inlineData in Hdata.
  set (a := get_prop chunk "candidates") in *.
  set (b := Earlier.first_of a) in *.
  set (c := get_prop b "content") in *.
  set (d := get_prop c "parts") in *.
  set (e := Earlier.first_of d) in *.
  assert (get_prop e "inlineData" <> JUndefined) as He.
  { intros Hu. by rewrite Hu in Hdata. }
  destruct (get_prop_object e _ He) as [fe Hfe].
  pose proof (first_of_inside d fe Hfe) as Hed. fold e in Hed.
  assert (d <> JUndefined) as Hd.
  { intros Hu. subst e. rewrite Hu in Hfe. discriminate. }
  assert (c <> JUndefined) as Hc.
  { intros Hu. apply Hd. subst d. by rewrite Hu. }
  destruct (get_prop_object b _ Hc) as [fb Hfb].
  pose proof (first_of_inside a fb Hfb) as Hba. fold b in Hba.
  assert (a <> JUndefined) as Ha.
  { intros Hu. subst b. rewrite Hu in Hfb. discriminate. }
  assert (inside e chunk) as Hin.
  { apply inside_trans with d; [done|]. apply inside_trans with c; [by apply get_prop_inside|].
    apply inside_trans with b; [by apply get_prop_inside|].
    apply inside_trans with a; [done|by apply get_prop_inside]. }
  apply findInlineData_complete with e; [done|].
  rewrite Hfe in *. unfold own_payload. rewrite Hdata. eauto.
Qed.

Lemma later_search_finds_more_witness :
  is_Some (findInlineData picture_chunk).
Proof.
  exact (proj1 (later_search_finds_more picture_chunk eq_refl)).
Defined.

Section EarlierFacts.
Context `{Env}.
Variable Buffer_from : JsVal -> Exc (list Byte.byte).

(** X19.  The earlier handler has no lock and asks for no label once
    both pictures are stored: a generation that yields no image leaves
    the pair where it is, and then every message of the user that is
    not a labelled picture (one without picture, or one whose caption
    gets no label) calls the backend again with the same two pictures,
    both declared as [image/jpeg]. *)
Theorem earlier_generates_on_every_message
    (userImages : gmap string Earlier.Images) (user selfie clothing : string)
    (c0 : Earlier.Locals) (req0 : Earlier.StreamRequest) (chunks : list JsVal)
    (req : Request) :
  Earlier.pair userImages user = Some (selfie, clothing) ->
  Earlier.first_image chunks None = Ok None ->
  req_from req = Some user -> user <> "" ->
  truthy_str (req_mediaUrl req) = false \/ classify_includes (req_text req) = None ->
  let after := Earlier.resume Buffer_from (Earlier.Streaming c0 req0)
                 (Earlier.Stream chunks None) userImages in
  after = (Earlier.Ended 200, userImages) /\
  Earlier.pending (Earlier.inbound req after.2) =
    Some (Earlier.GenerateContentStream
            {| Earlier.model := "gemini-2.5-flash-image-preview";
               Earlier.responseModalities := ["IMAGE"; "TEXT"];
               Earlier.role := "user";
               Earlier.parts := [InlineData selfie "image/jpeg";
                                 InlineData clothing "image/jpeg";
                                 TextPart "Try this clothing on me."] |}).
Proof.
  intros Hpair Hnone Hfrom Hne Hplain after. subst after. simpl. rewrite Hnone.
  split; [done|]. simpl. unfold Earlier.inbound. rewrite Hfrom.
  destruct user; [done|]. simpl.
  assert (Earlier.generate
            {| Earlier.userPhone := String a user;
               Earlier.url := default "" (req_mediaUrl req) |} userImages =
          Earlier.Streaming
            {| Earlier.userPhone := String a user;
               Earlier.url := default "" (req_mediaUrl req) |}
            (Earlier.contents selfie clothing)) as Hgen.
  { unfold Earlier.generate. simpl. by rewrite Hpair. }
  destruct Hplain as [Hm|Hl].
  - rewrite Hm. destruct (classify_includes _); by rewrite Hgen.
  - rewrite Hl. by rewrite Hgen.
Qed.

Lemma earlier_resume_cases (t : Earlier.Turn) (u : string) (r : Earlier.Result)
    (userImages : gmap string Earlier.Images) :
  Earlier.turn_user t = Some u ->
  exists call, Earlier.pending t = Some call /\
  (Earlier.turn_user (Earlier.resume Buffer_from t r userImages).1 = Some u \/
   Earlier.pending (Earlier.resume Buffer_from t r userImages).1 = None) /\
  (forall v, v <> u -> (Earlier.resume Buffer_from t r userImages).2 !! v = userImages !! v) /\
  ((is_Some (userImages !! u) ->
    is_Some ((Earlier.resume Buffer_from t r userImages).2 !! u)) \/
   (exists url, call = Earlier.SendImage u RCS_SENDER_ID url) /\
   (Earlier.resume Buffer_from t r userImages).1 = Earlier.Ended 200).
Proof.
  intros Hu. destruct t; try discriminate; simpl in Hu; injection Hu as <-;
    (eexists; split; [reflexivity|]); simpl.
  - destruct (Earlier.failed r); simpl; auto.
  - destruct r; simpl; auto.
    split; [|split].
    + unfold Earlier.generate. destruct (Earlier.pair _ _) as [[sf cl]|]; simpl; auto.
    + intros v Hv. by rewrite lookup_insert_ne.
    + left. intros _. rewrite lookup_insert_eq. eauto.
  - destruct r as [e| |buffer|chunks fl|]; simpl; auto.
    destruct (Earlier.first_image chunks fl) as [[ip|]|]; simpl; auto.
    destruct (Buffer_from _); simpl; auto.
  - destruct (Earlier.failed r); simpl; auto.
  - destruct (Earlier.failed r); simpl; auto.
    split; [auto|]. split; [|right; eauto].
    intros v Hv. by rewrite lookup_delete_ne.
Qed.

Lemma earlier_run_ended (t : Earlier.Turn) (rs : list Earlier.Result)
    (userImages : gmap string Earlier.Images) :
  Earlier.pending t = None -> Earlier.run Buffer_from t rs userImages = ([], t, userImages).
Proof. intros Hp. destruct rs; simpl; by rewrite Hp. Qed.

Lemma earlier_run_keeps (rs : list Earlier.Result) :
  forall (t : Earlier.Turn) (userImages : gmap string Earlier.Images) (v : string),
    let done := Earlier.run Buffer_from t rs userImages in
    (Earlier.turn_user t <> Some v -> done.2 !! v = userImages !! v) /\
    (is_Some (userImages !! v) -> done.2 !! v = None ->
     (exists url, In (Earlier.SendImage v RCS_SENDER_ID url) done.1.1) /\
     done.1.2 = Earlier.Ended 200).
Proof.
  induction rs as [|r rs IH]; intros t m v; cbv zeta.
  - assert ((Earlier.run Buffer_from t [] m).2 = m) as ->
      by (simpl; by destruct (Earlier.pending t)).
    split; [done|]. intros [x Hx] Hn. congruence.
  - destruct (Earlier.turn_user t) as [u|] eqn:Hu.
    2:{ rewrite earlier_run_ended by (by destruct t). simpl.
        split; [done|]. intros [x Hx] Hn; congruence. }
    destruct (earlier_resume_cases t u r m Hu) as (call & Hp & Hnext & Hothers & Hkept).
    simpl. rewrite Hp.
    destruct (Earlier.resume Buffer_from t r m) as [t1 m1] eqn:Hres; simpl in *.
    pose proof (IH t1 m1 v) as [IH1 IH2]. cbv zeta in IH1, IH2.
    assert (Earlier.turn_user t1 = Some u \/ Earlier.turn_user t1 = None) as Hnext'.
    { destruct Hnext as [?|Hn]; [by left|right]. by destruct t1. }
    destruct (Earlier.run Buffer_from t1 rs m1) as [[calls t2] m2] eqn:Hrun; simpl in *.
    split.
    + intros Hv.
      assert (Earlier.turn_user t1 <> Some v) as Ht1
        by (destruct Hnext' as [Hn|Hn]; rewrite Hn; congruence).
      rewrite (IH1 Ht1). apply Hothers. congruence.
    + intros Hsome Hnone.
      destruct (decide (v = u)) as [->|Hvu].
      * destruct Hkept as [Hkept|[[url ->] ->]].
        -- destruct (IH2 (Hkept Hsome) Hnone) as [[url Hin] Hend]. eauto.
        -- rewrite earlier_run_ended in Hrun by done. injection Hrun as <- <- <-.
           split; [|done]. exists url. by left.
      * exfalso.
        assert (Earlier.turn_user t1 <> Some v) as Ht1
          by (destruct Hnext' as [Hn|Hn]; rewrite Hn; congruence).
        rewrite (IH1 Ht1), (Hothers v Hvu) in Hnone.
        destruct Hsome as [x Hx]. congruence.
Qed.

(** X20.  In the earlier handler the pictures of a user disappear only
    at the end of a turn of that user that has sent the generated image
    and ended with 200; a turn whose awaited call fails is rejected and
    leaves the pictures of every user who had some, and a turn never
    changes the pictures of another user. *)
Theorem earlier_pictures_kept_until_sent
    (t : Earlier.Turn) (rs : list Earlier.Result)
    (userImages : gmap string Earlier.Images) (v : string) :
  let done := Earlier.run Buffer_from t rs userImages in
  (Earlier.turn_user t <> Some v -> done.2 !! v = userImages !! v) /\
  (is_Some (userImages !! v) -> done.2 !! v = None ->
   (exists url, In (Earlier.SendImage v RCS_SENDER_ID url) done.1.1) /\
   done.1.2 = Earlier.Ended 200) /\
  (forall e, done.1.2 = Earlier.Rejected e ->
             is_Some (userImages !! v) -> is_Some (done.2 !! v)).
Proof.
  cbv zeta. destruct (earlier_run_keeps rs t userImages v) as [H1 H2]. cbv zeta in H1, H2.
  split; [done|]. split; [done|].
  intros e He Hsome.
  destruct ((Earlier.run Buffer_from t rs userImages).2 !! v) eqn:Hv; [eauto|].
  destruct (H2 Hsome eq_refl) as [_ Hend]. congruence.
Qed.

End EarlierFacts.

Lemma earlier_generates_on_every_message_witness :
  @Earlier.pending steady_env
    (Earlier.inbound hello
       (@Earlier.resume steady_env (fun _ => Ok [])
          (Earlier.Streaming {| Earlier.userPhone := "447700900123"; Earlier.url := "" |}
             (Earlier.contents "c2VsZmll" "c2hpcnQ="))
          (Earlier.Stream [blocked_response] None) stored_pair).2) =
  Some (Earlier.GenerateContentStream (Earlier.contents "c2VsZmll" "c2hpcnQ=")).
Proof.
  exact (proj2 (@earlier_generates_on_every_message steady_env (fun _ => Ok [])
                  stored_pair "447700900123" "c2VsZmll" "c2hpcnQ="
                  {| Earlier.userPhone := "447700900123"; Earlier.url := "" |}
                  (Earlier.contents "c2VsZmll" "c2hpcnQ=") [blocked_response] hello
                  eq_refl eq_refl eq_refl ltac:(discriminate) (or_introl eq_refl))).
Defined.

(** ** Messages that store nothing *)

Section IdleFacts.
Context `{Env}.

Lemma getSession_live (u : string) (w : World) (l : nat) (o : Session) :
  userSessions w !! u = Some l -> heap w !! l = Some o ->
  Date_now (ticks w) - lastUpdated o <= SESSION_TTL_MS ->
  getSession u w = (l, tick w).
Proof.
  intros Hl Ho Hage. rewrite getSession_unfold, Hl.
  rewrite (list_lookup_total_correct _ _ _ Ho).
  assert ((Date_now (ticks w) - lastUpdated o >? SESSION_TTL_MS) = false) as -> by lia.
  done.
Qed.

(** X21.  A message without a picture stores nothing and does not extend
    the life of the session: when the user's session has not expired
    and is not ready for a generation, the turn goes straight to the
    guidance message, and the session, its [lastUpdated] included, is
    what it was.  The TTL runs from the last picture stored, not from
    the last message. *)
Theorem message_without_picture_keeps_session
    (req : Request) (w : World) (user : string) (l : nat) (o : Session) :
  req_from req = Some user -> user <> "" ->
  truthy_str (req_mediaUrl req) = false ->
  userSessions w !! user = Some l -> heap w !! l = Some o ->
  Date_now (ticks w) - lastUpdated o <= SESSION_TTL_MS ->
  Date_now (S (ticks w)) - lastUpdated o <= SESSION_TTL_MS ->
  held (selfie o) && held (clothing o) && negb (inProgress o) = false ->
  exists c message,
    (inbound req w).1 = AwaitGuidance c message /\
    userPhone c = user /\
    heap (inbound req w).2 = heap w /\
    userSessions (inbound req w).2 = userSessions w /\
    session_of (inbound req w).2 user = Some o.
Proof.
  intros Hfrom Hne Hmedia Hl Ho Hage1 Hage2 Hready.
  assert (exists c message,
            userPhone c = user /\
            inbound req w = (AwaitGuidance c message, tick (tick w))) as (c & message & Hu & Heq).
  { unfold inbound. rewrite Hfrom. destruct user as [|a user]; [done|]. simpl.
    unfold mbind, Sync_bind.
    rewrite (getSession_live _ w l o Hl Ho Hage1).
    unfold read. simpl fst. simpl snd.
    replace (heap (tick w) !!! l) with o
      by (symmetry; by apply list_lookup_total_correct).
    set (c := {| userPhone := String a user; session := l |}).
    assert (ready_check c (tick w) = guidance c (tick w)) as Hrc.
    { destruct (ready_check_cases c (tick w))
        as [(sf & cl & o' & Ho' & Hsf & Hcl & Hp & _)|[_ Hg]]; [|done].
      simpl in Ho'. rewrite Ho in Ho'. injection Ho' as <-.
      by rewrite Hsf, Hcl, Hp in Hready. }
    assert (exists message,
              guidance c (tick w) = (AwaitGuidance c message, tick (tick w))) as [message Hg].
    { destruct (guidance_unfold c (tick w)) as [m Hm]. exists m. rewrite Hm. f_equal.
      by rewrite (getSession_live _ (tick w) l o Hl Ho Hage2). }
    exists c, message. split; [done|].
    destruct (classify _ _ _); [rewrite Hmedia|]; by rewrite Hrc. }
  exists c, message. rewrite Heq. simpl. repeat split; try done.
  unfold session_of. simpl. by rewrite Hl.
Qed.

End IdleFacts.

Lemma message_without_picture_keeps_session_witness :
  exists c message,
    (@inbound steady_env (caption_only "hello") selfie_world).1 = AwaitGuidance c message /\
    userPhone c = "447700900123" /\
    heap (@inbound steady_env (caption_only "hello") selfie_world).2 = heap selfie_world /\
    userSessions (@inbound steady_env (caption_only "hello") selfie_world).2 =
      userSessions selfie_world /\
    session_of (@inbound steady_env (caption_only "hello") selfie_world).2 "447700900123" =
      Some selfie_session.
Proof.
  exact (@message_without_picture_keeps_session steady_env (caption_only "hello")
           selfie_world "447700900123" 0%nat selfie_session
           eq_refl ltac:(discriminate) eq_refl eq_refl eq_refl
           ltac:(simpl; lia) ltac:(simpl; lia) eq_refl).
Defined.
